(** * Constraint solver steps (lib/Sema/CSStep.cpp)

    A shallow embedding of the iterative constraint-solver steps of
    [CSStep.cpp]: [SplitterStep], [ComponentStep], [TypeVariableStep] and
    [DisjunctionStep], with the properties of the merge of partial
    solutions, of the selection of work inside a component, of the
    skip and short-circuit heuristics of disjunctions and of the scopes
    that rewind the constraint system.

    Conventions.
    - [unsigned] values are integers in [Z] reduced modulo [2^32] where
      the code increments or subtracts them.
    - The debug log ([DebugConstraintSolver]) is a side channel and is
      left out.
    - A [SmallVectorImpl<Solution> &] is a reference: solution vectors
      live in a store and steps hold addresses into it.
    - Declarations that live in headers or in other files of the
      repository ([ConstraintSystem], [Score], [Constraint], the producers,
      the driver loop) are either operations of the class [Collaborators]
      or definitions marked "Modelled from the spec". *)

From Stdlib Require Import ZArith Lia Bool.
From stdpp Require Import base list.

Local Open Scope Z_scope.

(** ** Machine integers *)

Definition wrap32 (z : Z) : Z := z mod 2 ^ 32.

(** ** Scores *)

(** Modelled from the spec: [Score] is declared in ConstraintSystem.h; a
    fixed-size vector of [unsigned] counters with value-wise subtraction
    and a lexicographic comparison. *)
Record Score := mkScore { Data : list Z }.

Definition counter (s : Score) (kind : nat) : Z := nth kind (Data s) 0.

Definition score_sub (x y : Score) : Score :=
  mkScore (zip_with (fun a b => wrap32 (a - b)) (Data x) (Data y)).

Fixpoint data_ltb (x y : list Z) : bool :=
  match x, y with
  | a :: x', b :: y' =>
      if a <? b then true
      else if negb (a =? b) then false
      else data_ltb x' y'
  | _, _ => false
  end.

Definition score_ltb (x y : Score) : bool := data_ltb (Data x) (Data y).

(** ** Types, constraints, solutions *)

Definition TypeVariableType := nat.
Definition Ty := nat.

(** Modelled from the spec: the enumerations of Constraint.h; the
    constructors the steps inspect are named, the others are numbered. *)
Inductive ConstraintKind :=
| CK_Bind | CK_Equal | CK_Subtype | CK_Conversion | CK_ConformsTo
| CK_CheckedCast | CK_BindOverload | CK_ValueMember | CK_Disjunction
| CK_Other (n : nat).

Inductive ConstraintClassification :=
| Relational | Member | TypeProperty | DisjunctionClass.

Inductive ConversionRestrictionKind :=
| OptionalToOptional | ArrayToPointer | InoutToPointer
| CRK_Other (n : nat).

Record Constraint := mkConstraint {
  getKind : ConstraintKind;
  getClassification : ConstraintClassification;
  isFavored : bool;
  isDisabled : bool;
  getFix : option nat;
  getRestriction : option ConversionRestrictionKind;
  getNestedConstraints : list nat
}.

Record Solution := mkSolution {
  typeBindings : list (TypeVariableType * Ty);
  getFixedScore : Score
}.

Definition setFixedScore (s : Solution) (sc : Score) : Solution :=
  mkSolution (typeBindings s) sc.

(** ** The constraint system *)

(** Modelled from the spec: a [SolverScope] owns a snapshot of the tracked
    type variables, the tracked constraints and the variable bindings. *)
Record SolverScope := mkSolverScope {
  savedTypeVariables : list TypeVariableType;
  savedConstraints : list Constraint;
  savedBindings : list (TypeVariableType * Ty)
}.

Record SolverState := mkSolverState {
  BestScore : option Score;
  depth : Z;
  NumTypeVariablesBound : Z;
  NumTypeVariableBindings : Z;
  PartialSolutionScope : option SolverScope;
  allowsFreeTypeVariables : bool
}.

Record ConstraintSystem := mkCS {
  TypeVariables : list TypeVariableType;
  InactiveConstraints : list Constraint;
  fixedBindings : list (TypeVariableType * Ty);
  CurrentScore : Score;
  OrphanedConstraints : list Constraint;
  solverState : SolverState;
  DisableConstraintSolverPerformanceHacks : bool
}.

Definition withTracked (tvs : list TypeVariableType) (cons : list Constraint)
    (binds : list (TypeVariableType * Ty)) (cs : ConstraintSystem) : ConstraintSystem :=
  mkCS tvs cons binds (CurrentScore cs) (OrphanedConstraints cs)
       (solverState cs) (DisableConstraintSolverPerformanceHacks cs).

Definition withTypeVariables (tvs : list TypeVariableType) (cs : ConstraintSystem) :=
  withTracked tvs (InactiveConstraints cs) (fixedBindings cs) cs.

Definition withInactiveConstraints (cons : list Constraint) (cs : ConstraintSystem) :=
  withTracked (TypeVariables cs) cons (fixedBindings cs) cs.

Definition withOrphaned (orph : list Constraint) (cs : ConstraintSystem) :=
  mkCS (TypeVariables cs) (InactiveConstraints cs) (fixedBindings cs)
       (CurrentScore cs) orph (solverState cs)
       (DisableConstraintSolverPerformanceHacks cs).

Definition withSolverState (st : SolverState) (cs : ConstraintSystem) :=
  mkCS (TypeVariables cs) (InactiveConstraints cs) (fixedBindings cs)
       (CurrentScore cs) (OrphanedConstraints cs) st
       (DisableConstraintSolverPerformanceHacks cs).

Definition withPartialSolutionScope (p : option SolverScope) (st : SolverState) :=
  mkSolverState (BestScore st) (depth st) (NumTypeVariablesBound st)
                (NumTypeVariableBindings st) p (allowsFreeTypeVariables st).

(** The part of the constraint system a scope is responsible for. *)
Definition tracked (cs : ConstraintSystem) :=
  (TypeVariables cs, InactiveConstraints cs, fixedBindings cs).

Definition snapshot (sc : SolverScope) :=
  (savedTypeVariables sc, savedConstraints sc, savedBindings sc).

(** Modelled from the spec: creating a scope records the snapshot,
    releasing it puts exactly that snapshot back. The constructor and the
    destructor of [ConstraintSystem::SolverScope] are in CSSolver.cpp. *)
Definition SolverScope_create (cs : ConstraintSystem) : SolverScope :=
  mkSolverScope (TypeVariables cs) (InactiveConstraints cs) (fixedBindings cs).

Definition SolverScope_release (sc : SolverScope) (cs : ConstraintSystem) : ConstraintSystem :=
  withTracked (savedTypeVariables sc) (savedConstraints sc) (savedBindings sc) cs.

(** ** Bindings, choices and their producers *)

Record TypeVariableBinding := mkTypeVariableBinding {
  bindingTypeVar : TypeVariableType;
  BindingType : Ty;
  isDefaultable : bool;
  hasDefaultedProtocol : bool
}.

Record PotentialBindings := mkPotentialBindings {
  PB_TypeVar : TypeVariableType;
  PB_Bindings : list (TypeVariableBinding * bool);
  InvolvesTypeVariables : bool;
  FullyBound : bool
}.

Record DisjunctionChoice := mkDisjunctionChoice {
  choiceConstraint : Constraint;
  isUnavailable : bool;
  isGenericOperator : bool;
  isSymmetricOperator : bool
}.

Definition choiceIsDisabled (c : DisjunctionChoice) : bool :=
  isDisabled (choiceConstraint c).

(** Modelled from the spec: the binding producer of CSStep.h yields the
    candidate bindings in order, batch after batch; each pending binding
    carries a flag telling whether its batch is used up once it has been
    handed out, which is what [needsToComputeNext] reports. Only finite
    producers are covered. *)
Record TypeVarBindingProducer := mkTVProducer {
  batchUsedUp : bool;
  pendingBindings : list (TypeVariableBinding * bool)
}.

Definition needsToComputeNext (p : TypeVarBindingProducer) : bool := batchUsedUp p.

(** Modelled from the spec: the choices of a disjunction, in order. *)
Definition DisjunctionChoiceProducer := list DisjunctionChoice.

(** ** Operations of the constraint system used by the steps *)

(** The members of [ConstraintSystem], [ConstraintGraph], [TypeBinding]
    and [ScoreKind] that CSStep.cpp calls but that are defined in other
    files. The steps are verified for every implementation of them. *)
Class Collaborators := {
  applySolution : Solution -> ConstraintSystem -> ConstraintSystem;
  worseThanBestSolution : ConstraintSystem -> bool;
  finalize : ConstraintSystem -> Solution * ConstraintSystem;
  selectDisjunction : ConstraintSystem -> option Constraint;
  determineBestBindings : ConstraintSystem -> option PotentialBindings;
  hasFreeTypeVariables : ConstraintSystem -> bool;
  shouldAttemptFixes : ConstraintSystem -> bool;
  attemptBinding : TypeVariableBinding -> ConstraintSystem -> bool * ConstraintSystem;
  attemptChoice : DisjunctionChoice -> ConstraintSystem -> bool * ConstraintSystem;
  optimize : ConstraintSystem -> ConstraintSystem;
  computeConnectedComponents :
    ConstraintSystem -> list TypeVariableType -> nat * list TypeVariableType * list nat;
  getConstraints : ConstraintSystem -> TypeVariableType -> list Constraint;
  bindingProducer : ConstraintSystem -> PotentialBindings -> TypeVarBindingProducer;
  choiceProducer : ConstraintSystem -> Constraint -> DisjunctionChoiceProducer;
  getBestScore : list Solution -> option Score;
  SK_ForceUnchecked : nat;
  SK_Unavailable : nat;
  SK_Fix : nat;
  SK_FunctionConversion : nat
}.

(** ** Results of running the model *)

Inductive Fault :=
| OutOfFuel
| PartialSolutionOutOfBounds
| ComponentOutOfBounds
| NoBestScore
| NoActiveChoice.

Inductive Outcome (A : Type) :=
| Ok (a : A)
| Stop (f : Fault).
Arguments Ok {A} a.
Arguments Stop {A} f.

Definition obind {A B} (m : Outcome A) (k : A -> Outcome B) : Outcome B :=
  match m with
  | Ok a => k a
  | Stop f => Stop f
  end.

Notation "'let*' x := m 'in' k" := (obind m (fun x => k))
  (at level 10, x pattern, m at level 100, k at level 200, only parsing).

(** ** Mixed-radix numbers *)

Definition product (sizes : list nat) : nat := fold_right Nat.mul 1%nat sizes.

(** Digits of [j], least significant first, for the radices [sizes]. *)
Fixpoint digitsLE (sizes : list nat) (j : nat) : list Z :=
  match sizes with
  | [] => []
  | n :: rest => Z.of_nat (j mod n) :: digitsLE rest (j / n)
  end.

(** The index vector number [j]: the last component is the least
    significant digit. *)
Definition radixDigits (sizes : list nat) (j : nat) : list Z :=
  rev (digitsLE (rev sizes) j).

(** Value of an index vector, first component most significant. *)
Definition radixValue (sizes : list nat) (c : list Z) : nat :=
  fold_left (fun v p => (v * fst p + Z.to_nat (snd p))%nat) (zip sizes c) 0%nat.

Definition validCombination (sizes : list nat) (c : list Z) : Prop :=
  Forall2 (fun n x => 0 <= x < Z.of_nat n) sizes c.

Definition combinations (sizes : list nat) : list (list Z) :=
  map (radixDigits sizes) (seq 0 (product sizes)).


(** ** The steps *)

(** A solution vector is addressed by its position in the store. *)
Abbreviation Store := (list (list Solution)).

Definition push_back (a : nat) (s : Solution) (store : Store) : Store :=
  alter (fun sols => sols ++ [s]) a store.

Definition vectorAt (store : Store) (a : nat) : list Solution :=
  nth a store [].

Record SplitterStep := mkSplitterStep {
  SS_Solutions : nat;
  SS_PartialSolutions : list nat;
  SS_OrphanedConstraints : list Constraint
}.

Definition NumComponents (s : SplitterStep) : nat := length (SS_PartialSolutions s).

Record ComponentScope := mkComponentScope {
  scopeTypeVars : list TypeVariableType;
  scopeConstraints : list Constraint;
  scopeSolverScope : SolverScope;
  PrevPartialScope : option SolverScope
}.

Record ComponentStep := mkComponentStep {
  Index : nat;
  IsSingleComponent : bool;
  CS_Solutions : nat;
  OriginalScore : Score;
  CS_ComponentScope : option ComponentScope;
  TypeVars : list TypeVariableType;
  Constraints : list Constraint;
  OrphanedConstraint : option Constraint
}.

Record TypeVariableStep := mkTypeVariableStep {
  TVS_TypeVar : TypeVariableType;
  TVS_Producer : TypeVarBindingProducer;
  AnySolved : bool;
  SawFirstLiteralConstraint : bool;
  TVS_ActiveChoice : option SolverScope;
  TVS_Solutions : nat
}.

Record DisjunctionStep := mkDisjunctionStep {
  DS_Disjunction : Constraint;
  DS_Producer : DisjunctionChoiceProducer;
  BestNonGenericScore : option Score;
  LastSolvedChoice : option (Constraint * Score);
  DS_ActiveChoice : option (SolverScope * DisjunctionChoice);
  DS_Solutions : nat
}.

Inductive SolverStep :=
| Splitter (s : SplitterStep)
| Component (c : ComponentStep)
| TypeVariable (t : TypeVariableStep)
| Disjunction (d : DisjunctionStep).

Inductive StepResult :=
| Done (isSuccess : bool)
| Suspended (followup : list SolverStep).

(** Constructors of the steps (CSStep.h). *)
Definition SplitterStep_create (solutions : nat) : SplitterStep :=
  mkSplitterStep solutions [] [].

(** Modelled from the spec: a component records, when it is created, the
    score baseline that [resume] later subtracts. *)
Definition ComponentStep_create (cs : ConstraintSystem) (index : nat)
    (single : bool) (solutions : nat) : ComponentStep :=
  mkComponentStep index single solutions (CurrentScore cs) None [] [] None.

Definition recordTypeVar (typeVar : TypeVariableType) (step : ComponentStep) : ComponentStep :=
  mkComponentStep (Index step) (IsSingleComponent step) (CS_Solutions step)
    (OriginalScore step) (CS_ComponentScope step)
    (TypeVars step ++ [typeVar]) (Constraints step) (OrphanedConstraint step).

Definition recordConstraint (step : ComponentStep) (constraint : Constraint) : ComponentStep :=
  mkComponentStep (Index step) (IsSingleComponent step) (CS_Solutions step)
    (OriginalScore step) (CS_ComponentScope step)
    (TypeVars step) (Constraints step ++ [constraint]) (OrphanedConstraint step).

Definition recordOrphan (constraint : Constraint) (step : ComponentStep) : ComponentStep :=
  mkComponentStep (Index step) (IsSingleComponent step) (CS_Solutions step)
    (OriginalScore step) (CS_ComponentScope step)
    (TypeVars step) (Constraints step) (Some constraint).

Definition withComponentScope (sc : option ComponentScope) (step : ComponentStep) :=
  mkComponentStep (Index step) (IsSingleComponent step) (CS_Solutions step)
    (OriginalScore step) sc
    (TypeVars step) (Constraints step) (OrphanedConstraint step).

Definition bumpNumTypeVariablesBound (cs : ConstraintSystem) : ConstraintSystem :=
  let st := solverState cs in
  withSolverState
    (mkSolverState (BestScore st) (depth st) (wrap32 (NumTypeVariablesBound st + 1))
       (NumTypeVariableBindings st) (PartialSolutionScope st)
       (allowsFreeTypeVariables st)) cs.

Definition bumpNumTypeVariableBindings (cs : ConstraintSystem) : ConstraintSystem :=
  let st := solverState cs in
  withSolverState
    (mkSolverState (BestScore st) (depth st) (NumTypeVariablesBound st)
       (wrap32 (NumTypeVariableBindings st + 1)) (PartialSolutionScope st)
       (allowsFreeTypeVariables st)) cs.

(** [ComponentStep::Scope::Scope] *)
Definition ComponentScope_create (component : ComponentStep) (cs : ConstraintSystem)
    : ComponentScope * ConstraintSystem :=
  let savedTypeVars := TypeVariables cs in
  let cs1 := withTypeVariables ([] ++ TypeVars component) cs in
  let savedCons := [] ++ InactiveConstraints cs1 in
  let cs2 := withInactiveConstraints ([] ++ Constraints component) cs1 in
  let cs3 := match OrphanedConstraint component with
             | Some c => withOrphaned [c] cs2
             | None => cs2
             end in
  let solverScope := SolverScope_create cs3 in
  let prev := PartialSolutionScope (solverState cs3) in
  let cs4 := withSolverState
               (withPartialSolutionScope (Some solverScope) (solverState cs3)) cs3 in
  (mkComponentScope savedTypeVars savedCons solverScope prev, cs4).

(** Modelled from the spec: the destructor of [ComponentStep::Scope]
    (CSStep.h) releases the solver scope and hands the saved type
    variables and constraints back to the constraint system. *)
Definition ComponentScope_release (sc : ComponentScope) (cs : ConstraintSystem)
    : ConstraintSystem :=
  let cs1 := SolverScope_release (scopeSolverScope sc) cs in
  let cs2 := withSolverState
               (withPartialSolutionScope (PrevPartialScope sc) (solverState cs1)) cs1 in
  let cs3 := withTypeVariables (scopeTypeVars sc) cs2 in
  withInactiveConstraints (scopeConstraints sc) cs3.

(** Modelled from the spec: [filterSolutions] (CSRanking.cpp) keeps the
    minimal-score subset, ties kept, strictly dominated solutions
    discarded. The spec describes the call with [minimize = true] only. *)
Definition filterSolutions (solutions : list Solution) (minimize : bool) : list Solution :=
  if minimize then
    filter (fun s => forallb (fun t => negb (score_ltb (getFixedScore t) (getFixedScore s)))
                             solutions = true) solutions
  else solutions.

(** Comparison of two [Optional<Score>] values: an empty one is below
    every score. *)
Definition optScore_ltb (x y : option Score) : bool :=
  match x, y with
  | Some a, Some b => score_ltb a b
  | None, Some _ => true
  | _, None => false
  end.


Inductive Phase := Setup | Resume.

(** One call of the driver into a step. *)
Record Invocation := mkInvocation {
  inv_step : SolverStep;
  inv_phase : Phase;
  inv_prevFailed : bool;
  inv_store : Store;
  inv_cs : ConstraintSystem
}.

Section Steps.
Context `{!Collaborators}.

(** ** SplitterStep::mergePartialSolutions *)

(** [for (i = 0; i != NumComponents; ++i)
      CS.applySolution(PartialSolutions[i][indices[i]])]: [indices] has
    one entry per component, the two vectors are walked together. *)
Fixpoint applyPartialSolutions (PartialSolutions : list (list Solution))
    (indices : list Z) (cs : ConstraintSystem) : Outcome ConstraintSystem :=
  match PartialSolutions, indices with
  | sols :: PartialSolutions', idx :: indices' =>
      match sols !! Z.to_nat idx with
      | Some s => applyPartialSolutions PartialSolutions' indices' (applySolution s cs)
      | None => Stop PartialSolutionOutOfBounds
      end
  | _, _ => Ok cs
  end.

(** [if (!CS.worseThanBestSolution()) { finalize; push_back; anySolutions = true }] *)
Definition saveComposed (Solutions : list Solution) (anySolutions : bool)
    (cs : ConstraintSystem) : list Solution * bool * ConstraintSystem :=
  if negb (worseThanBestSolution cs) then
    let '(solution, cs') := finalize cs in
    (Solutions ++ [solution], true, cs')
  else (Solutions, anySolutions, cs).

(** [for (i = n - 1; i != NumComponents; ++i) indices[i] = 0] *)
Definition zeroFrom (start NumComponents : nat) (indices : list Z) : list Z :=
  fold_left (fun ind i => <[i := 0]> ind) (seq start (NumComponents - start)) indices.

(** The loop that finds the next combination; the result carries [done]. *)
Fixpoint nextCombination (PartialSolutions : list (list Solution)) (n : nat)
    (indices : list Z) : list Z * bool :=
  match n with
  | O => (indices, false)
  | S n' =>
      let indices1 := <[n' := wrap32 (nth n' indices 0 + 1)]> indices in
      if nth n' indices1 0 <? Z.of_nat (length (nth n' PartialSolutions []))
      then (indices1, false)
      else if Nat.eqb n 1 then (indices1, true)
      else nextCombination PartialSolutions n'
             (zeroFrom n' (length PartialSolutions) indices1)
  end.

(** The [do ... while (!done)] loop; one unit of fuel per iteration. *)
Fixpoint mergeLoop (fuel : nat) (PartialSolutions : list (list Solution))
    (indices : list Z) (Solutions : list Solution) (anySolutions : bool)
    (cs : ConstraintSystem) : Outcome (bool * list Solution * ConstraintSystem) :=
  match fuel with
  | O => Stop OutOfFuel
  | S fuel' =>
      let scope := SolverScope_create cs in
      let* cs1 := applyPartialSolutions PartialSolutions indices cs in
      let '(Solutions1, any1, cs2) := saveComposed Solutions anySolutions cs1 in
      let '(indices', done) :=
        nextCombination PartialSolutions (length PartialSolutions) indices in
      let cs3 := SolverScope_release scope cs2 in
      if done then Ok (any1, Solutions1, cs3)
      else mergeLoop fuel' PartialSolutions indices' Solutions1 any1 cs3
  end.

(** [NumComponents] is the length of the [PartialSolutions] array. *)
Definition mergePartialSolutions (fuel : nat) (PartialSolutions : list (list Solution))
    (Solutions : list Solution) (cs : ConstraintSystem)
    : Outcome (bool * list Solution * ConstraintSystem) :=
  mergeLoop fuel PartialSolutions
            (replicate (length PartialSolutions) 0) Solutions false cs.

(** What one iteration does to the solver for the partial solutions
    [chosen], one per component. *)
Definition composeChosen (st : bool * list Solution * ConstraintSystem)
    (chosen : list Solution) : bool * list Solution * ConstraintSystem :=
  let '(anySolutions, Solutions, cs) := st in
  let scope := SolverScope_create cs in
  let cs1 := fold_left (fun c s => applySolution s c) chosen cs in
  let '(Solutions1, any1, cs2) := saveComposed Solutions anySolutions cs1 in
  (any1, Solutions1, SolverScope_release scope cs2).

(** The partial solutions a combination selects. *)
Definition choose (PartialSolutions : list (list Solution)) (c : list Z) : list Solution :=
  zip_with (fun sols idx => nth (Z.to_nat idx) sols (mkSolution [] (mkScore [])))
           PartialSolutions c.


(** ** SplitterStep *)

(** [step.record(typeVar)] followed by [step.record(constraint)] for each
    constraint of the node of [typeVar] in the constraint graph. *)
Definition recordNode (cs : ConstraintSystem) (typeVar : TypeVariableType)
    (step : ComponentStep) : ComponentStep :=
  fold_left recordConstraint (getConstraints cs typeVar) (recordTypeVar typeVar step).

(** "Map type variables and constraints into appropriate steps." *)
Fixpoint mapIntoSteps (cs : ConstraintSystem) (typeVars : list TypeVariableType)
    (i : nat) (components : list nat) (componentSteps : list ComponentStep)
    : Outcome (list ComponentStep) :=
  match typeVars with
  | [] => Ok componentSteps
  | typeVar :: rest =>
      match components !! i with
      | None => Stop ComponentOutOfBounds
      | Some comp =>
          match componentSteps !! comp with
          | None => Stop ComponentOutOfBounds
          | Some step =>
              mapIntoSteps cs rest (S i) components
                (<[comp := recordNode cs typeVar step]> componentSteps)
          end
      end
  end.

(** "Add the orphaned components to the mapping." *)
Fixpoint recordOrphans (orphans : list Constraint) (component : nat)
    (componentSteps : list ComponentStep) : Outcome (list ComponentStep) :=
  match orphans with
  | [] => Ok componentSteps
  | constraint :: rest =>
      match componentSteps !! component with
      | None => Stop ComponentOutOfBounds
      | Some step =>
          recordOrphans rest (S component)
            (<[component := recordOrphan constraint step]> componentSteps)
      end
  end.

(** [SplitterStep::computeFollowupSteps]: the [NumComponents] vectors of
    [PartialSolutions] are allocated, empty, at the end of the store;
    [computeConnectedComponents] receives [typeVars] by reference and
    hands it back together with [components]. *)
Definition computeFollowupSteps (s : SplitterStep) (store : Store)
    (cs : ConstraintSystem)
    : Outcome (list SolverStep * SplitterStep * Store * ConstraintSystem) :=
  let cs1 := optimize cs in
  let '(numComponents, typeVars, components) :=
    computeConnectedComponents cs1 (TypeVariables cs1) in
  let base := length store in
  let store1 := store ++ replicate numComponents [] in
  let partialSolutions := seq base numComponents in
  let componentSteps :=
    map (fun i => ComponentStep_create cs1 i (Nat.eqb numComponents 1) (base + i)%nat)
        (seq 0 numComponents) in
  let* componentSteps1 := mapIntoSteps cs1 typeVars 0 components componentSteps in
  let firstOrphanedConstraint :=
    Z.to_nat (wrap32 (Z.of_nat numComponents
                      - Z.of_nat (length (OrphanedConstraints cs1)))) in
  let* componentSteps2 :=
    recordOrphans (OrphanedConstraints cs1) firstOrphanedConstraint componentSteps1 in
  let s1 := mkSplitterStep (SS_Solutions s) partialSolutions (OrphanedConstraints cs1) in
  Ok (map Component componentSteps2, s1, store1, withOrphaned [] cs1).

Definition SplitterStep_take (s : SplitterStep) (prevFailed : bool) (store : Store)
    (cs : ConstraintSystem)
    : Outcome (StepResult * SplitterStep * Store * ConstraintSystem) :=
  let* (components, s1, store1, cs1) := computeFollowupSteps s store cs in
  Ok (Suspended components, s1, store1, cs1).

(** [SplitterStep::resume]; the vector [Solutions] belongs to an
    ancestor and is none of the vectors of [PartialSolutions]. *)
Definition SplitterStep_resume (fuel : nat) (s : SplitterStep) (prevFailed : bool)
    (store : Store) (cs : ConstraintSystem)
    : Outcome (StepResult * SplitterStep * Store * ConstraintSystem) :=
  if prevFailed then Ok (Done false, s, store, cs)
  else
    let* (anySolutions, solutions, cs1) :=
      mergePartialSolutions fuel (map (vectorAt store) (SS_PartialSolutions s))
                            (vectorAt store (SS_Solutions s)) cs in
    Ok (Done anySolutions, s, <[SS_Solutions s := solutions]> store, cs1).

(** ** TypeVariableStep *)

Definition TypeVariableStep_create (cs : ConstraintSystem) (bindings : PotentialBindings)
    (solutions : nat) : TypeVariableStep :=
  mkTypeVariableStep (PB_TypeVar bindings) (bindingProducer cs bindings)
                     false false None solutions.

Definition TypeVariableStep_setup (t : TypeVariableStep) (cs : ConstraintSystem)
    : ConstraintSystem :=
  bumpNumTypeVariablesBound cs.

Definition TVS_update (t : TypeVariableStep) (producer : TypeVarBindingProducer)
    (saw : bool) (active : option SolverScope) : TypeVariableStep :=
  mkTypeVariableStep (TVS_TypeVar t) producer (AnySolved t) saw active (TVS_Solutions t).

(** The [while (auto binding = Producer())] loop of [TypeVariableStep::take];
    [used] is the state of the producer after the last binding handed out. *)
Fixpoint TypeVariableStep_takeLoop (t : TypeVariableStep)
    (pending : list (TypeVariableBinding * bool)) (used : bool) (saw : bool)
    (cs : ConstraintSystem) : StepResult * TypeVariableStep * ConstraintSystem :=
  match pending with
  | [] => (Done (AnySolved t), TVS_update t (mkTVProducer used []) saw None, cs)
  | (binding, last) :: rest =>
      let cs1 := bumpNumTypeVariableBindings cs in
      if AnySolved t && isDefaultable binding then
        TypeVariableStep_takeLoop t rest last saw cs1
      else if AnySolved t && (hasDefaultedProtocol binding && negb saw) then
        (Done (AnySolved t), TVS_update t (mkTVProducer last rest) saw None, cs1)
      else
        let saw1 := if hasDefaultedProtocol binding then true else saw in
        let scope := SolverScope_create cs1 in
        let '(ok, cs2) := attemptBinding binding cs1 in
        if ok then
          (Suspended [Splitter (SplitterStep_create (TVS_Solutions t))],
           TVS_update t (mkTVProducer last rest) saw1 (Some scope), cs2)
        else
          TypeVariableStep_takeLoop t rest last saw1 (SolverScope_release scope cs2)
  end.

Definition TypeVariableStep_take (t : TypeVariableStep) (prevFailed : bool)
    (cs : ConstraintSystem) : StepResult * TypeVariableStep * ConstraintSystem :=
  TypeVariableStep_takeLoop t (pendingBindings (TVS_Producer t))
    (batchUsedUp (TVS_Producer t)) (SawFirstLiteralConstraint t) cs.

(** The state of the step and of the constraint system right after
    [ActiveChoice.reset()] and [AnySolved |= !prevFailed]. *)
Definition TypeVariableStep_rewind (t : TypeVariableStep) (scope : SolverScope)
    (prevFailed : bool) (cs : ConstraintSystem) : TypeVariableStep * ConstraintSystem :=
  (mkTypeVariableStep (TVS_TypeVar t) (TVS_Producer t)
     (AnySolved t || negb prevFailed) (SawFirstLiteralConstraint t) None
     (TVS_Solutions t),
   SolverScope_release scope cs).

Definition TypeVariableStep_resume (t : TypeVariableStep) (prevFailed : bool)
    (cs : ConstraintSystem)
    : Outcome (StepResult * TypeVariableStep * ConstraintSystem) :=
  match TVS_ActiveChoice t with
  | None => Stop NoActiveChoice
  | Some scope =>
      let '(t1, cs1) := TypeVariableStep_rewind t scope prevFailed cs in
      if AnySolved t1 && needsToComputeNext (TVS_Producer t1) then
        Ok (Done true, t1, cs1)
      else Ok (TypeVariableStep_take t1 prevFailed cs1)
  end.

(** ** DisjunctionStep *)

Definition DisjunctionStep_create (cs : ConstraintSystem) (disjunction : Constraint)
    (solutions : nat) : DisjunctionStep :=
  mkDisjunctionStep disjunction (choiceProducer cs disjunction) None None None solutions.

Definition getCurrentScore (cs : ConstraintSystem) : Score := CurrentScore cs.

Definition shouldSkipChoice (d : DisjunctionStep) (cs : ConstraintSystem)
    (choice : DisjunctionChoice) : bool :=
  if choiceIsDisabled choice then true
  else if negb (shouldAttemptFixes cs) && isUnavailable choice then true
  else if DisableConstraintSolverPerformanceHacks cs then false
  else
    match BestNonGenericScore d with
    | Some score =>
        if isGenericOperator choice then
          if (counter score SK_ForceUnchecked =? 0)
             && (counter score SK_Unavailable =? 0)
             && (counter score SK_Fix =? 0)
             && (counter score SK_FunctionConversion =? 0)
          then true else false
        else false
    | None => false
    end.

Definition isSome {A} (o : option A) : bool :=
  match o with Some _ => true | None => false end.

Definition restrictionKind_eqb (a b : ConversionRestrictionKind) : bool :=
  match a, b with
  | OptionalToOptional, OptionalToOptional => true
  | ArrayToPointer, ArrayToPointer => true
  | InoutToPointer, InoutToPointer => true
  | CRK_Other n, CRK_Other m => Nat.eqb n m
  | _, _ => false
  end.

Definition isCheckedCast (k : ConstraintKind) : bool :=
  match k with CK_CheckedCast => true | _ => false end.

(** The block guarded by [if (auto restriction = currentChoice->getRestriction())]. *)
Definition restrictionShortCircuits (currentChoice lastSuccessfulChoice : Constraint) : bool :=
  match getRestriction currentChoice with
  | Some restriction =>
      if restrictionKind_eqb restriction OptionalToOptional then true
      else
        match getRestriction lastSuccessfulChoice with
        | Some successfulRestriction =>
            restrictionKind_eqb successfulRestriction ArrayToPointer
            && restrictionKind_eqb restriction InoutToPointer
        | None => false
        end
  | None => false
  end.

Definition shortCircuitDisjunctionAt (cs : ConstraintSystem)
    (currentChoice lastSuccessfulChoice : Constraint) : bool :=
  if DisableConstraintSolverPerformanceHacks cs then false
  else if isFavored lastSuccessfulChoice && negb (isFavored currentChoice) then true
  else if isSome (getFix currentChoice) && negb (isSome (getFix lastSuccessfulChoice))
  then true
  else if restrictionShortCircuits currentChoice lastSuccessfulChoice then true
  else if isCheckedCast (getKind currentChoice) then true
  else false.

Definition shouldShortCircuitAt (d : DisjunctionStep) (cs : ConstraintSystem)
    (choice : DisjunctionChoice) : bool :=
  match LastSolvedChoice d with
  | None => false
  | Some (lastChoice, lastScore) =>
      let delta := score_sub lastScore (getCurrentScore cs) in
      let hasUnavailableOverloads := 0 <? counter delta SK_Unavailable in
      let hasFixes := 0 <? counter delta SK_Fix in
      negb hasUnavailableOverloads && negb hasFixes
      && shortCircuitDisjunctionAt cs (choiceConstraint choice) lastChoice
  end.

Definition DS_update (d : DisjunctionStep) (producer : DisjunctionChoiceProducer)
    (active : option (SolverScope * DisjunctionChoice)) : DisjunctionStep :=
  mkDisjunctionStep (DS_Disjunction d) producer (BestNonGenericScore d)
                    (LastSolvedChoice d) active (DS_Solutions d).

Fixpoint DisjunctionStep_takeLoop (d : DisjunctionStep)
    (pending : list DisjunctionChoice) (cs : ConstraintSystem)
    : StepResult * DisjunctionStep * ConstraintSystem :=
  match pending with
  | [] => (Done (isSome (LastSolvedChoice d)), DS_update d [] None, cs)
  | currentChoice :: rest =>
      if shouldSkipChoice d cs currentChoice then
        DisjunctionStep_takeLoop d rest cs
      else if shouldShortCircuitAt d cs currentChoice then
        (Done (isSome (LastSolvedChoice d)), DS_update d rest None, cs)
      else
        let scope := SolverScope_create cs in
        let '(ok, cs1) := attemptChoice currentChoice cs in
        if negb ok then
          DisjunctionStep_takeLoop d rest (SolverScope_release scope cs1)
        else
          (Suspended [Splitter (SplitterStep_create (DS_Solutions d))],
           DS_update d rest (Some (scope, currentChoice)), cs1)
  end.

Definition DisjunctionStep_take (d : DisjunctionStep) (prevFailed : bool)
    (cs : ConstraintSystem) : StepResult * DisjunctionStep * ConstraintSystem :=
  DisjunctionStep_takeLoop d (DS_Producer d) cs.

(** The bookkeeping of [DisjunctionStep::resume] for a solved choice. *)
Definition recordSolvedChoice (d : DisjunctionStep) (choice : DisjunctionChoice)
    (score : Score) : DisjunctionStep :=
  let best :=
    if negb (isGenericOperator choice) && isSymmetricOperator choice then
      if negb (isSome (BestNonGenericScore d))
         || optScore_ltb (Some score) (BestNonGenericScore d)
      then Some score else BestNonGenericScore d
    else BestNonGenericScore d in
  mkDisjunctionStep (DS_Disjunction d) (DS_Producer d) best
                    (Some (choiceConstraint choice, score))
                    (DS_ActiveChoice d) (DS_Solutions d).

(** The state right after [ActiveChoice.reset()]. *)
Definition DisjunctionStep_rewind (d : DisjunctionStep) (scope : SolverScope)
    (cs : ConstraintSystem) : DisjunctionStep * ConstraintSystem :=
  (DS_update d (DS_Producer d) None, SolverScope_release scope cs).

Definition DisjunctionStep_resume (d : DisjunctionStep) (prevFailed : bool)
    (store : Store) (cs : ConstraintSystem)
    : Outcome (StepResult * DisjunctionStep * ConstraintSystem) :=
  match DS_ActiveChoice d with
  | None => Stop NoActiveChoice
  | Some (scope, choice) =>
      let* d1 :=
        if negb prevFailed then
          match getBestScore (vectorAt store (DS_Solutions d)) with
          | Some score => Ok (recordSolvedChoice d choice score)
          | None => Stop NoBestScore
          end
        else Ok d in
      let '(d2, cs1) := DisjunctionStep_rewind d1 scope cs in
      Ok (DisjunctionStep_take d2 prevFailed cs1)
  end.

(** ** ComponentStep *)

Definition ComponentStep_setup (c : ComponentStep) (cs : ConstraintSystem)
    : ComponentStep * ConstraintSystem :=
  if negb (IsSingleComponent c) then
    let '(scope, cs1) := ComponentScope_create c cs in
    (withComponentScope (Some scope) c, cs1)
  else (c, cs).

Definition ignorableWithFreeVariables (constraint : Constraint) : bool :=
  match getClassification constraint with
  | Relational | Member => true
  | _ => false
  end.

(** The first test of [ComponentStep::take]: the bindings to attempt
    when a type variable step is to be produced. *)
Definition bindingsToAttempt (bestBindings : option PotentialBindings)
    (disjunction : option Constraint) : option PotentialBindings :=
  match bestBindings with
  | Some bindings =>
      if negb (isSome disjunction)
         || (negb (InvolvesTypeVariables bindings) && negb (FullyBound bindings))
      then Some bindings else None
  | None => None
  end.

Definition ComponentStep_take (c : ComponentStep) (prevFailed : bool) (store : Store)
    (cs : ConstraintSystem) : StepResult * Store * ConstraintSystem :=
  if prevFailed then (Done false, store, cs)
  else
    let disjunction := selectDisjunction cs in
    let bestBindings := determineBestBindings cs in
    match bindingsToAttempt bestBindings disjunction, disjunction with
    | Some bindings, _ =>
        (Suspended [TypeVariable (TypeVariableStep_create cs bindings (CS_Solutions c))],
         store, cs)
    | None, Some dis =>
        (Suspended [Disjunction (DisjunctionStep_create cs dis (CS_Solutions c))],
         store, cs)
    | None, None =>
        if negb (allowsFreeTypeVariables (solverState cs)) || negb (hasFreeTypeVariables cs)
        then (Done false, store, cs)
        else if worseThanBestSolution cs then (Done false, store, cs)
        else if forallb ignorableWithFreeVariables (InactiveConstraints cs) then
          let '(solution, cs1) := finalize cs in
          (Done true, push_back (CS_Solutions c) solution store, cs1)
        else (Done false, store, cs)
    end.

Definition normalizeScore (c : ComponentStep) (solution : Solution) : Solution :=
  setFixedScore solution (score_sub (getFixedScore solution) (OriginalScore c)).

Definition ComponentStep_resume (c : ComponentStep) (prevFailed : bool) (store : Store)
    : StepResult * Store :=
  if prevFailed then (Done false, store)
  else
    let solutions := map (normalizeScore c) (vectorAt store (CS_Solutions c)) in
    (Done true, <[CS_Solutions c := filterSolutions solutions true]> store).

(** ** The driver *)

Definition setup (step : SolverStep) (cs : ConstraintSystem)
    : SolverStep * ConstraintSystem :=
  match step with
  | Component c =>
      let '(c1, cs1) := ComponentStep_setup c cs in (Component c1, cs1)
  | TypeVariable t => (step, TypeVariableStep_setup t cs)
  | _ => (step, cs)
  end.

Definition take (step : SolverStep) (prevFailed : bool) (store : Store)
    (cs : ConstraintSystem)
    : Outcome (StepResult * SolverStep * Store * ConstraintSystem) :=
  match step with
  | Splitter s =>
      let* (r, s1, store1, cs1) := SplitterStep_take s prevFailed store cs in
      Ok (r, Splitter s1, store1, cs1)
  | Component c =>
      let '(r, store1, cs1) := ComponentStep_take c prevFailed store cs in
      Ok (r, Component c, store1, cs1)
  | TypeVariable t =>
      let '(r, t1, cs1) := TypeVariableStep_take t prevFailed cs in
      Ok (r, TypeVariable t1, store, cs1)
  | Disjunction d =>
      let '(r, d1, cs1) := DisjunctionStep_take d prevFailed cs in
      Ok (r, Disjunction d1, store, cs1)
  end.

Definition resume (fuel : nat) (step : SolverStep) (prevFailed : bool) (store : Store)
    (cs : ConstraintSystem)
    : Outcome (StepResult * SolverStep * Store * ConstraintSystem) :=
  match step with
  | Splitter s =>
      let* (r, s1, store1, cs1) := SplitterStep_resume fuel s prevFailed store cs in
      Ok (r, Splitter s1, store1, cs1)
  | Component c =>
      let '(r, store1) := ComponentStep_resume c prevFailed store in
      Ok (r, Component c, store1, cs)
  | TypeVariable t =>
      let* (r, t1, cs1) := TypeVariableStep_resume t prevFailed cs in
      Ok (r, TypeVariable t1, store, cs1)
  | Disjunction d =>
      let* (r, d1, cs1) := DisjunctionStep_resume d prevFailed store cs in
      Ok (r, Disjunction d1, store, cs1)
  end.

(** Modelled from the spec: [setup] runs once before the first [take];
    a step that was suspended is resumed. *)
Definition advance (fuel : nat) (step : SolverStep) (phase : Phase) (prevFailed : bool)
    (store : Store) (cs : ConstraintSystem)
    : Outcome (StepResult * SolverStep * Store * ConstraintSystem) :=
  match phase with
  | Setup => let '(step1, cs1) := setup step cs in take step1 prevFailed store cs1
  | Resume => resume fuel step prevFailed store cs
  end.

(** Modelled from the spec: a scope opened by a step is released when the
    step completes. *)
Definition finish (step : SolverStep) (cs : ConstraintSystem) : ConstraintSystem :=
  match step with
  | Component c =>
      match CS_ComponentScope c with
      | Some scope => ComponentScope_release scope cs
      | None => cs
      end
  | _ => cs
  end.

Definition Run : Type := list Invocation * Outcome (bool * Store * ConstraintSystem).

(** Modelled from the spec: the followups of a suspended step are taken in
    order; each one is told whether the step completed just before it
    failed. *)
Fixpoint runFollowups
    (runStep : SolverStep -> bool -> Store -> ConstraintSystem -> Run)
    (steps : list SolverStep) (prevFailed : bool) (store : Store)
    (cs : ConstraintSystem) : Run :=
  match steps with
  | [] => ([], Ok (prevFailed, store, cs))
  | step :: rest =>
      let '(tr, r) := runStep step prevFailed store cs in
      match r with
      | Stop f => (tr, Stop f)
      | Ok (isSuccess, store1, cs1) =>
          let '(tr1, r1) := runFollowups runStep rest (negb isSuccess) store1 cs1 in
          (tr ++ tr1, r1)
      end
  end.

(** Modelled from the spec: the driver loop (CSSolver.cpp). A step is
    advanced; when it is done its result is handed to whoever comes next;
    when it suspends, its followups run to completion and the step is
    resumed with [prevFailed] telling whether the last of them failed.
    The result lists every call made into a step, with the state it was
    made in. *)
Fixpoint run (fuel : nat) (step : SolverStep) (phase : Phase) (prevFailed : bool)
    (store : Store) (cs : ConstraintSystem) : Run :=
  match fuel with
  | O => ([], Stop OutOfFuel)
  | S fuel' =>
      let here := mkInvocation step phase prevFailed store cs in
      match advance fuel' step phase prevFailed store cs with
      | Stop f => ([here], Stop f)
      | Ok (Done isSuccess, step1, store1, cs1) =>
          ([here], Ok (isSuccess, store1, finish step1 cs1))
      | Ok (Suspended followup, step1, store1, cs1) =>
          let '(tr1, r1) :=
            runFollowups (fun s pf st c => run fuel' s Setup pf st c)
                         followup false store1 cs1 in
          match r1 with
          | Stop f => (here :: tr1, Stop f)
          | Ok (lastFailed, store2, cs2) =>
              let '(tr2, r2) := run fuel' step1 Resume lastFailed store2 cs2 in
              (here :: tr1 ++ tr2, r2)
          end
      end
  end.

(** Solving starts with a splitter step over the caller's vector. *)
Definition solve (fuel : nat) (solutions : list Solution) (cs : ConstraintSystem) : Run :=
  run fuel (Splitter (SplitterStep_create 0)) Setup false [solutions] cs.

End Steps.


(** ** A small solver to run the steps on *)

Definition score_add (x y : Score) : Score :=
  mkScore (zip_with (fun a b => wrap32 (a + b)) (Data x) (Data y)).

Definition withScore (sc : Score) (binds : list (TypeVariableType * Ty))
    (cs : ConstraintSystem) : ConstraintSystem :=
  mkCS (TypeVariables cs) (InactiveConstraints cs) binds sc
       (OrphanedConstraints cs) (solverState cs)
       (DisableConstraintSolverPerformanceHacks cs).

Definition withBestScore (sc : Score) (st : SolverState) : SolverState :=
  mkSolverState
    (match BestScore st with
     | Some best => if score_ltb sc best then Some sc else Some best
     | None => Some sc
     end)
    (depth st) (NumTypeVariablesBound st) (NumTypeVariableBindings st)
    (PartialSolutionScope st) (allowsFreeTypeVariables st).

Definition isDisjunctionConstraint (c : Constraint) : bool :=
  match getClassification c with DisjunctionClass => true | _ => false end.

(** Every unbound type variable and every orphaned constraint is a
    component of its own; type variables with an odd number have one
    candidate binding, the others stay free; a binding always applies; a
    solution adds its bindings and its score; the best score is the least
    score finalized so far. *)
Definition exampleSolver : Collaborators := {|
  applySolution := fun s cs =>
    withScore (score_add (CurrentScore cs) (getFixedScore s))
              (fixedBindings cs ++ typeBindings s) cs;
  worseThanBestSolution := fun cs =>
    match BestScore (solverState cs) with
    | Some best => score_ltb best (CurrentScore cs)
    | None => false
    end;
  finalize := fun cs =>
    (mkSolution (fixedBindings cs) (CurrentScore cs),
     withSolverState (withBestScore (CurrentScore cs) (solverState cs)) cs);
  selectDisjunction := fun cs => List.find isDisjunctionConstraint (InactiveConstraints cs);
  determineBestBindings := fun cs =>
    match TypeVariables cs with
    | tv :: _ =>
        if existsb (fun p => Nat.eqb (fst p) tv) (fixedBindings cs) then None
        else if Nat.even tv then None
        else Some (mkPotentialBindings tv
                     [(mkTypeVariableBinding tv 0%nat false false, true)] false false)
    | [] => None
    end;
  hasFreeTypeVariables := fun cs =>
    negb (forallb (fun tv => existsb (fun p => Nat.eqb (fst p) tv) (fixedBindings cs))
                  (TypeVariables cs));
  shouldAttemptFixes := fun _ => false;
  attemptBinding := fun b cs =>
    (true, withScore (CurrentScore cs)
             (fixedBindings cs ++ [(bindingTypeVar b, BindingType b)]) cs);
  attemptChoice := fun c cs => (negb (isFavored (choiceConstraint c)), cs);
  optimize := fun cs => cs;
  computeConnectedComponents := fun cs tvs =>
    let unbound :=
      List.filter (fun tv => negb (existsb (fun p => Nat.eqb (fst p) tv) (fixedBindings cs)))
                  tvs in
    ((length unbound + length (OrphanedConstraints cs))%nat, unbound,
     seq 0 (length unbound));
  getConstraints := fun _ _ => [];
  bindingProducer := fun _ pb =>
    mkTVProducer (match PB_Bindings pb with [] => true | _ => false end) (PB_Bindings pb);
  choiceProducer := fun _ _ => [];
  getBestScore := fun sols =>
    match sols with s :: _ => Some (getFixedScore s) | [] => None end;
  SK_ForceUnchecked := 2;
  SK_Unavailable := 0;
  SK_Fix := 1;
  SK_FunctionConversion := 4
|}.

Definition zeroScore : Score := mkScore [0; 0; 0; 0; 0].

Definition exampleState (allowFree : bool) : SolverState :=
  mkSolverState None 0 0 0 None allowFree.

Definition exampleSystem (tvs : list TypeVariableType) (cons : list Constraint)
    (allowFree : bool) : ConstraintSystem :=
  mkCS tvs cons [] zeroScore [] (exampleState allowFree) false.

(** A vector of partial solutions the merge can index with [unsigned]
    counters: between 1 and 2^32 - 1 entries. *)
Definition sizeOK (s : nat) : Prop := (0 < s)%nat /\ Z.of_nat s < 2 ^ 32.


(** ** Sample inputs *)

Definition sampleSolution (n : nat) : Solution := mkSolution [(n, n)] zeroScore.

Definition samplePartialSolutions : list (list Solution) :=
  [[sampleSolution 1; sampleSolution 2]; [sampleSolution 3]].

Definition sampleComponent : ComponentStep :=
  mkComponentStep 0 true 0 zeroScore None [1%nat] [] None.

Definition costlySolution : Solution :=
  mkSolution [(1, 2)]%nat (mkScore [0; 1; 0; 0; 0]).


Definition disjunctionConstraint : Constraint :=
  mkConstraint CK_Disjunction DisjunctionClass false false None None [0%nat; 1%nat].

Definition relationalConstraint : Constraint :=
  mkConstraint CK_Subtype Relational false false None None [].

Definition overloadConstraint (favored disabled : bool) : Constraint :=
  mkConstraint CK_BindOverload Relational favored disabled None None [].

Definition sampleDisjunctionStep (best : option Score)
    (last : option (Constraint * Score)) : DisjunctionStep :=
  mkDisjunctionStep disjunctionConstraint [] best last None 0.

Definition genericChoice : DisjunctionChoice :=
  mkDisjunctionChoice (overloadConstraint false false) false true true.

Definition disabledGenericChoice : DisjunctionChoice :=
  mkDisjunctionChoice (overloadConstraint false true) false true true.


Definition plainChoice : DisjunctionChoice :=
  mkDisjunctionChoice (overloadConstraint false false) false false false.

Definition sampleScope : SolverScope :=
  SolverScope_create (exampleSystem [1%nat] [relationalConstraint] true).

Definition plainBinding : TypeVariableBinding :=
  mkTypeVariableBinding 1%nat 7%nat false false.

Definition defaultableBinding : TypeVariableBinding :=
  mkTypeVariableBinding 1%nat 8%nat true false.

Definition literalBinding : TypeVariableBinding :=
  mkTypeVariableBinding 1%nat 9%nat false true.

Definition sampleTypeVariableStep (anySolved : bool)
    (pending : list (TypeVariableBinding * bool)) (active : option SolverScope)
    : TypeVariableStep :=
  mkTypeVariableStep 1%nat (mkTVProducer false pending) anySolved false active 0.


(** ** Invariants of a run *)

Definition solutionsOf (step : SolverStep) : nat :=
  match step with
  | Splitter s => SS_Solutions s
  | Component c => CS_Solutions c
  | TypeVariable t => TVS_Solutions t
  | Disjunction d => DS_Solutions d
  end.

Definition nonEmptyAt (store : Store) (a : nat) : Prop := vectorAt store a <> [].

(** What holds when the driver resumes a step after a followup that
    reported [prevFailed]; a step that has not been taken yet is in the
    state of one resumed after a failure. *)
Definition resumable (step : SolverStep) (prevFailed : bool) (store : Store) : Prop :=
  match step with
  | Splitter s =>
      prevFailed = false -> Forall (nonEmptyAt store) (SS_PartialSolutions s)
  | Component c =>
      prevFailed = false -> nonEmptyAt store (CS_Solutions c)
  | TypeVariable t =>
      AnySolved t = true \/ prevFailed = false -> nonEmptyAt store (TVS_Solutions t)
  | Disjunction d =>
      LastSolvedChoice d <> None \/ prevFailed = false ->
      nonEmptyAt store (DS_Solutions d)
  end.

Definition stepOK (step : SolverStep) (phase : Phase) (prevFailed : bool)
    (store : Store) : Prop :=
  (solutionsOf step < length store)%nat
  /\ resumable step (match phase with Setup => true | Resume => prevFailed end) store.

(** The store [store'] comes from [store] by work on the vector at [a]
    and on vectors allocated since. *)
Definition extends (a : nat) (store store' : Store) : Prop :=
  (length store <= length store')%nat
  /\ (forall p, (p < length store)%nat -> p <> a -> vectorAt store' p = vectorAt store p)
  /\ (nonEmptyAt store a -> nonEmptyAt store' a).

Definition isComponent (step : SolverStep) : bool :=
  match step with Component _ => true | _ => false end.

Definition outcomeOK (step : SolverStep) (phase : Phase) (prevFailed : bool)
    (store : Store) (r : Outcome (bool * Store * ConstraintSystem)) : Prop :=
  match r with
  | Stop f => f <> PartialSolutionOutOfBounds
  | Ok (isSuccess, store', _) =>
      extends (solutionsOf step) store store'
      /\ (isSuccess = true -> nonEmptyAt store' (solutionsOf step))
      /\ (isComponent step = true -> phase = Setup -> prevFailed = true ->
          isSuccess = false)
  end.

(** The driver is about to let a splitter step merge: the step is
    resumed with [prevFailed = false]. *)
Definition reachesMerge (inv : Invocation) (s : SplitterStep) : Prop :=
  inv_step inv = Splitter s /\ inv_phase inv = Resume /\ inv_prevFailed inv = false.

Definition mergeReady (inv : Invocation) : Prop :=
  forall s, reachesMerge inv s ->
    Forall (nonEmptyAt (inv_store inv)) (SS_PartialSolutions s).

(** What a suspended step has handed to the driver: a splitter step its
    components, each on a vector of its own allocated after [before]; a
    component step one step that works on the component's vector and has
    found nothing yet; a type variable or disjunction step one splitter
    step on the same vector. *)
Definition suspendedOK (step : SolverStep) (followup : list SolverStep)
    (before after : Store) : Prop :=
  match step with
  | Splitter s =>
      exists comps k,
        followup = map Component comps
        /\ map CS_Solutions comps = seq (length before) k
        /\ SS_PartialSolutions s = seq (length before) k
        /\ after = before ++ replicate k []
  | Component c =>
      (exists t, followup = [TypeVariable t]
                 /\ TVS_Solutions t = CS_Solutions c /\ AnySolved t = false)
      \/ (exists d, followup = [Disjunction d]
                    /\ DS_Solutions d = CS_Solutions c /\ LastSolvedChoice d = None)
  | TypeVariable t =>
      followup = [Splitter (SplitterStep_create (TVS_Solutions t))]
      /\ (AnySolved t = true -> nonEmptyAt after (TVS_Solutions t))
  | Disjunction d =>
      followup = [Splitter (SplitterStep_create (DS_Solutions d))]
      /\ (LastSolvedChoice d <> None -> nonEmptyAt after (DS_Solutions d))
  end.

Definition advanceOK (step : SolverStep) (phase : Phase) (prevFailed : bool)
    (store : Store)
    (r : Outcome (StepResult * SolverStep * Store * ConstraintSystem)) : Prop :=
  match r with
  | Stop f => f <> PartialSolutionOutOfBounds
  | Ok (result, step1, store1, _) =>
      extends (solutionsOf step) store store1
      /\ solutionsOf step1 = solutionsOf step
      /\ match result with
         | Done isSuccess =>
             (isSuccess = true -> nonEmptyAt store1 (solutionsOf step))
             /\ (isComponent step = true -> phase = Setup -> prevFailed = true ->
                 isSuccess = false)
         | Suspended followup =>
             suspendedOK step1 followup store store1
             /\ ~ (isComponent step = true /\ phase = Setup /\ prevFailed = true)
         end
  end.

Definition runOK `{!Collaborators} (fuel : nat) : Prop :=
  forall step phase prevFailed store cs,
    stepOK step phase prevFailed store ->
    Forall mergeReady (fst (run fuel step phase prevFailed store cs))
    /\ outcomeOK step phase prevFailed store
                 (snd (run fuel step phase prevFailed store cs)).

Definition defaultableLiteralBinding : TypeVariableBinding :=
  mkTypeVariableBinding 1%nat 6%nat true true.

(** A system in which a solution of score zero has been finalized. *)
Definition solvedSystem : ConstraintSystem :=
  withSolverState (withBestScore zeroScore (exampleState true))
                  (exampleSystem [] [] true).

(** What [computeFollowupSteps] hands to component [j]: the type variables
    whose entry of [components] is [j], in the order of [typeVars], and the
    orphaned constraint at position [j - first] when [j] is not below
    [first]. *)
Definition assignedTo (j : nat) (typeVars : list TypeVariableType)
    (components : list nat) : list TypeVariableType :=
  map fst (filter (fun p : TypeVariableType * nat => snd p = j) (zip typeVars components)).

Definition orphanOf (first : nat) (orphans : list Constraint) (j : nat)
    : option Constraint :=
  if (first <=? j)%nat then orphans !! (j - first)%nat else None.

(** Component steps that differ at most in what has been recorded into
    them. *)
Definition sameComponent (c c' : ComponentStep) : Prop :=
  Index c' = Index c
  /\ IsSingleComponent c' = IsSingleComponent c
  /\ CS_Solutions c' = CS_Solutions c
  /\ CS_ComponentScope c' = CS_ComponentScope c.

(** A system with an orphaned constraint beside its type variables. *)
Definition orphanedSystem : ConstraintSystem :=
  withOrphaned [relationalConstraint] (exampleSystem [1%nat; 2%nat] [] true).

(** The counters of a score are [unsigned]. *)
Definition scoreInRange (score : Score) : Prop :=
  Forall (fun v => 0 <= v < 2 ^ 32) (Data score).

(** The split of [orphanedSystem] by [exampleSolver], with one vector in
    the store: one component per type variable and one for the orphaned
    constraint. *)
Definition sampleSplit : list ComponentStep :=
  [mkComponentStep 0 false 1 zeroScore None [1%nat] [] None;
   mkComponentStep 1 false 2 zeroScore None [2%nat] [] None;
   mkComponentStep 2 false 3 zeroScore None [] [] (Some relationalConstraint)].

Definition symmetricChoice : DisjunctionChoice :=
  mkDisjunctionChoice (overloadConstraint false false) false false true.

(** A disjunction step suspended on [symmetricChoice], with a best score
    recorded. *)
Definition sampleSymmetricStep : DisjunctionStep :=
  mkDisjunctionStep disjunctionConstraint [] (Some (mkScore [0; 2; 0; 0; 0])) None
                    (Some (sampleScope, symmetricChoice)) 0.

(** A disjunction step that has three choices left. *)
Definition sampleChoicesStep : DisjunctionStep :=
  mkDisjunctionStep disjunctionConstraint
                    [disabledGenericChoice; plainChoice; genericChoice]
                    None None None 0.

(** * Properties *)

(** ** The model at work *)

Example wrap32_at_the_top : wrap32 (2 ^ 32 - 1 + 1) = 0.
Proof. reflexivity. Qed.

Example combinations_2_3 :
  combinations [2; 3]%nat = [[0; 0]; [0; 1]; [0; 2]; [1; 0]; [1; 1]; [1; 2]].
Proof. reflexivity. Qed.

Example nextCombination_carries :
  nextCombination [[sampleSolution 1; sampleSolution 2];
                   [sampleSolution 3; sampleSolution 4; sampleSolution 5]]
                  2 [0; 2]
  = ([1; 0], false).
Proof. reflexivity. Qed.

Example nextCombination_is_done :
  snd (nextCombination [[sampleSolution 1; sampleSolution 2];
                        [sampleSolution 3; sampleSolution 4; sampleSolution 5]]
                       2 [1; 2])
  = true.
Proof. reflexivity. Qed.

Example merge_of_sample :
  option_map (fun r => map typeBindings (snd (fst r)))
    (match @mergePartialSolutions exampleSolver 5 samplePartialSolutions []
             (exampleSystem [] [] true) with
     | Ok r => Some r
     | Stop _ => None
     end)
  = Some [[(1, 1); (3, 3)]; [(2, 2); (3, 3)]]%nat.
Proof. reflexivity. Qed.

Example solve_two_free_variables :
  snd (@solve exampleSolver 20 [] (exampleSystem [2%nat; 4%nat] [] true))
  = Ok (true, [[mkSolution [] zeroScore]; [mkSolution [] zeroScore];
               [mkSolution [] zeroScore]],
        withSolverState (withBestScore zeroScore (exampleState true))
                        (exampleSystem [2%nat; 4%nat] [] true)).
Proof. reflexivity. Qed.

Example solve_free_variables_not_allowed :
  match snd (@solve exampleSolver 20 [] (exampleSystem [2%nat; 4%nat] [] false)) with
  | Ok (isSuccess, store, _) => Some (isSuccess, store)
  | Stop _ => None
  end
  = Some (false, [[]; []; []]).
Proof. reflexivity. Qed.

(** ** Machine integers and mixed-radix numbers *)

Lemma wrap32_small z : 0 <= z < 2 ^ 32 -> wrap32 z = z.
Proof. intros H. unfold wrap32. apply Z.mod_small. exact H. Qed.

Lemma wrap32_range z : 0 <= wrap32 z < 2 ^ 32.
Proof. unfold wrap32. apply Z.mod_pos_bound. lia. Qed.

Lemma product_cons n sizes : product (n :: sizes) = (n * product sizes)%nat.
Proof. reflexivity. Qed.

Lemma product_snoc sizes s : product (sizes ++ [s]) = (product sizes * s)%nat.
Proof.
  induction sizes as [|n sizes IH].
  - simpl. lia.
  - rewrite <- app_comm_cons, !product_cons, IH. lia.
Qed.

Lemma product_pos sizes : Forall (fun n => (0 < n)%nat) sizes -> (0 < product sizes)%nat.
Proof.
  induction 1 as [|n sizes Hn _ IH]; [simpl; lia|].
  rewrite product_cons. nia.
Qed.

Lemma radixDigits_snoc sizes s j :
  radixDigits (sizes ++ [s]) j
  = radixDigits sizes (j / s) ++ [Z.of_nat (j mod s)].
Proof. unfold radixDigits. rewrite rev_app_distr. reflexivity. Qed.

Lemma digitsLE_length sizes j : length (digitsLE sizes j) = length sizes.
Proof. revert j. induction sizes as [|n sizes IH]; intros j; simpl; [|rewrite IH]; reflexivity. Qed.

Lemma radixDigits_length sizes j : length (radixDigits sizes j) = length sizes.
Proof. unfold radixDigits. rewrite length_rev, digitsLE_length, length_rev. reflexivity. Qed.

Lemma digitsLE_zero sizes : digitsLE sizes 0 = replicate (length sizes) 0.
Proof.
  induction sizes as [|n sizes IH]; simpl; [reflexivity|].
  rewrite Nat.Div0.mod_0_l, Nat.Div0.div_0_l, IH. reflexivity.
Qed.

Lemma rev_replicate {A} n (x : A) : rev (replicate n x) = replicate n x.
Proof.
  induction n as [|n IH]; simpl; [reflexivity|].
  rewrite IH. clear IH. induction n as [|n IH]; simpl; [reflexivity|].
  rewrite <- IH. reflexivity.
Qed.

Lemma radixDigits_zero sizes : radixDigits sizes 0 = replicate (length sizes) 0.
Proof.
  unfold radixDigits. rewrite digitsLE_zero, rev_replicate, length_rev. reflexivity.
Qed.

Lemma succ_no_carry j s :
  (j mod s + 1 < s)%nat ->
  (S j / s = j / s)%nat /\ (S j mod s = j mod s + 1)%nat.
Proof.
  intros H.
  assert (Hj : (S j = s * (j / s) + (j mod s + 1))%nat).
  { pose proof (Nat.div_mod_eq j s). lia. }
  split.
  - symmetry. apply (Nat.div_unique _ _ _ (j mod s + 1)); assumption.
  - symmetry. apply (Nat.mod_unique _ _ (j / s)); assumption.
Qed.

Lemma succ_carry j s :
  (j mod s + 1 = s)%nat ->
  (S j / s = S (j / s))%nat /\ (S j mod s = 0)%nat.
Proof.
  intros H.
  assert (Hj : (S j = s * S (j / s) + 0)%nat).
  { pose proof (Nat.div_mod_eq j s). lia. }
  split.
  - symmetry. apply (Nat.div_unique _ _ _ 0); [lia|assumption].
  - symmetry. apply (Nat.mod_unique _ _ (S (j / s))); [lia|assumption].
Qed.

Lemma radixValue_snoc sizes c s x :
  length sizes = length c ->
  radixValue (sizes ++ [s]) (c ++ [x])
  = (radixValue sizes c * s + Z.to_nat x)%nat.
Proof.
  intros Hlen. unfold radixValue.
  rewrite zip_with_app by assumption.
  rewrite fold_left_app. reflexivity.
Qed.

Lemma radixValue_digits sizes : forall j,
  (j < product sizes)%nat -> radixValue sizes (radixDigits sizes j) = j.
Proof.
  induction sizes as [|s sizes IH] using rev_ind; intros j Hj.
  - simpl in Hj. assert (j = 0%nat) by lia. subst. reflexivity.
  - rewrite product_snoc in Hj.
    rewrite radixDigits_snoc, radixValue_snoc
      by (rewrite radixDigits_length; reflexivity).
    assert (Hs : (0 < s)%nat) by nia.
    rewrite IH.
    + rewrite Nat2Z.id. pose proof (Nat.div_mod_eq j s). lia.
    + apply Nat.Div0.div_lt_upper_bound. lia.
Qed.

Lemma validCombination_digits sizes : forall j,
  Forall (fun n => (0 < n)%nat) sizes ->
  validCombination sizes (radixDigits sizes j).
Proof.
  unfold validCombination.
  induction sizes as [|s sizes IH] using rev_ind; intros j Hpos.
  - constructor.
  - apply Forall_app in Hpos as [Hpos Hs].
    rewrite radixDigits_snoc. apply Forall2_app; [apply IH; assumption|].
    constructor; [|constructor].
    inversion Hs; subst.
    pose proof (Nat.mod_upper_bound j s). lia.
Qed.

Lemma validCombination_value sizes : forall c,
  validCombination sizes c ->
  (radixValue sizes c < product sizes)%nat
  /\ radixDigits sizes (radixValue sizes c) = c.
Proof.
  unfold validCombination.
  induction sizes as [|s sizes IH] using rev_ind; intros c Hc.
  - inversion Hc; subst. split; [cbv; lia | reflexivity].
  - apply Forall2_app_inv_l in Hc as (c' & cx & Hc' & Hx & ->).
    inversion Hx as [|? x ? ? Hr Hnil]; subst. inversion Hnil; subst.
    destruct (IH _ Hc') as [Hlt Heq].
    pose proof (Forall2_length _ _ _ Hc') as Hlen.
    rewrite radixValue_snoc, product_snoc by assumption.
    assert (Hx' : (Z.to_nat x < s)%nat) by lia.
    split; [nia|].
    rewrite radixDigits_snoc.
    assert (Hdiv : ((radixValue sizes c' * s + Z.to_nat x) / s = radixValue sizes c')%nat).
    { symmetry. apply (Nat.div_unique _ _ _ (Z.to_nat x)); [assumption | lia]. }
    assert (Hmod : ((radixValue sizes c' * s + Z.to_nat x) mod s = Z.to_nat x)%nat).
    { symmetry. apply (Nat.mod_unique _ _ (radixValue sizes c')); [assumption | lia]. }
    rewrite Hdiv, Hmod, Heq, Z2Nat.id by lia. reflexivity.
Qed.

(** ** The merge of partial solutions *)

Lemma zeroFrom_app (post pre : list Z) :
  zeroFrom (length pre) (length pre + length post) (pre ++ post)
  = pre ++ replicate (length post) 0.
Proof.
  unfold zeroFrom.
  replace (length pre + length post - length pre)%nat with (length post) by lia.
  revert pre. induction post as [|x post IH]; intros pre; simpl.
  - reflexivity.
  - rewrite insert_app_r_alt by lia.
    replace (length pre - length pre)%nat with 0%nat by lia. simpl.
    specialize (IH (pre ++ [0])).
    rewrite length_app in IH. simpl in IH.
    replace (length pre + 1)%nat with (S (length pre)) in IH by lia.
    rewrite <- !app_assoc in IH. simpl in IH. exact IH.
Qed.

Lemma length_nth_map (PS : list (list Solution)) n :
  length (nth n PS []) = nth n (map length PS) 0%nat.
Proof. exact (eq_sym (map_nth (@length Solution) PS [] n)). Qed.

Lemma nextCombination_step (PS : list (list Solution)) pre x post :
  nextCombination PS (S (length pre)) (pre ++ x :: post)
  = if wrap32 (x + 1) <? Z.of_nat (length (nth (length pre) PS []))
    then (pre ++ wrap32 (x + 1) :: post, false)
    else if Nat.eqb (S (length pre)) 1 then (pre ++ wrap32 (x + 1) :: post, true)
    else nextCombination PS (length pre)
           (zeroFrom (length pre) (length PS) (pre ++ wrap32 (x + 1) :: post)).
Proof.
  cbn [nextCombination].
  rewrite nth_middle.
  rewrite insert_app_r_alt by lia.
  replace (length pre - length pre)%nat with 0%nat by lia. cbn [insert list_insert].
  rewrite nth_middle. reflexivity.
Qed.

Lemma nextCombination_digits (PS : list (list Solution)) : forall spre spost j,
  map length PS = spre ++ spost ->
  Forall sizeOK spre ->
  spre <> [] ->
  (j < product spre)%nat ->
  ((S j < product spre)%nat ->
     nextCombination PS (length spre)
       (radixDigits spre j ++ replicate (length spost) 0)
     = (radixDigits spre (S j) ++ replicate (length spost) 0, false))
  /\ ((S j = product spre)%nat ->
     snd (nextCombination PS (length spre)
            (radixDigits spre j ++ replicate (length spost) 0)) = true).
Proof.
  induction spre as [|s spre IH] using rev_ind; intros spost j Hsizes Hpos Hne Hj.
  - congruence.
  - clear Hne.
    apply Forall_app in Hpos as [Hpos Hs].
    inversion Hs as [|? ? [Hs0 Hs32] _]; subst. clear Hs.
    rewrite product_snoc in *.
    rewrite !radixDigits_snoc, <- !app_assoc. simpl app.
    rewrite length_app. simpl length.
    replace (length spre + 1)%nat with (S (length spre)) by lia.
    set (pre := radixDigits spre (j / s)).
    assert (Hpre : length pre = length spre) by apply radixDigits_length.
    assert (Hjs : (j / s < product spre)%nat)
      by (apply Nat.Div0.div_lt_upper_bound; lia).
    pose proof (Nat.mod_upper_bound j s ltac:(lia)) as Hx.
    assert (Hsize : length (nth (length pre) PS []) = s).
    { rewrite length_nth_map, Hsizes, <- app_assoc, Hpre. simpl app.
      apply nth_middle. }
    rewrite <- Hpre.
    rewrite nextCombination_step, Hsize.
    rewrite wrap32_small by lia.
    destruct (Z.ltb_spec (Z.of_nat (j mod s) + 1) (Z.of_nat s)) as [Hlt|Hge].
    + destruct (succ_no_carry j s ltac:(lia)) as [Hq Hr].
      split; [|intros Hlast; exfalso].
      * intros _. rewrite Hq, Hr. fold pre.
        replace (Z.of_nat (j mod s + 1)) with (Z.of_nat (j mod s) + 1) by lia.
        reflexivity.
      * pose proof (Nat.div_mod_eq j s).
        assert ((S j) mod s = 0)%nat.
        { rewrite Hlast. apply Nat.Div0.mod_mul. }
        lia.
    + destruct (succ_carry j s ltac:(lia)) as [Hq Hr].
      destruct (Nat.eqb_spec (S (length pre)) 1) as [Hone|Hmore].
      * simpl. split; [|reflexivity].
        assert (Hnil : spre = []) by (apply length_zero_iff_nil; lia).
        intros Hlt. rewrite Hnil in Hlt, Hj. simpl in Hlt, Hj.
        pose proof (Nat.div_mod_eq j s).
        assert (j / s = 0)%nat by (apply Nat.div_small; lia). nia.
      * assert (Hne : spre <> []).
        { intros Hnil. rewrite Hnil in Hpre. simpl in Hpre. lia. }
        set (post := Z.of_nat (j mod s) + 1 :: replicate (length spost) 0).
        assert (Hlen : length PS = (length pre + length post)%nat).
        { rewrite <- (length_map length PS), Hsizes, !length_app. unfold post. simpl.
          rewrite length_replicate. lia. }
        rewrite Hlen, (zeroFrom_app post pre).
        unfold post. simpl length. rewrite length_replicate.
        specialize (IH (s :: spost) (j / s)%nat).
        rewrite <- app_assoc in Hsizes. simpl in Hsizes.
        specialize (IH Hsizes Hpos Hne Hjs).
        simpl length in IH. rewrite <- Hpre in IH. unfold pre in *.
        destruct IH as [IH1 IH2].
        assert (Hsj : S j = (S (j / s) * s)%nat).
        { pose proof (Nat.div_mod_eq j s). nia. }
        split.
        -- intros Hlt.
           rewrite Hq, Hr. rewrite IH1.
           ++ cbn [replicate]. reflexivity.
           ++ rewrite Hsj in Hlt.
              apply Nat.mul_lt_mono_pos_r in Hlt; [exact Hlt | exact Hs0].
        -- intros Hlast. apply IH2.
           rewrite Hsj in Hlast.
           apply Nat.mul_cancel_r in Hlast; [exact Hlast | lia].
Qed.

Section MergeProperties.
Context `{!Collaborators}.

Lemma applyPartialSolutions_valid (PS : list (list Solution)) : forall c cs,
  validCombination (map length PS) c ->
  applyPartialSolutions PS c cs
  = Ok (fold_left (fun c s => applySolution s c) (choose PS c) cs).
Proof.
  unfold validCombination.
  induction PS as [|sols PS IH]; intros c cs Hc; simpl in Hc.
  - inversion Hc; subst. reflexivity.
  - inversion Hc as [|? x ? c' Hx Hc']; subst. simpl.
    destruct (sols !! Z.to_nat x) as [s|] eqn:E.
    + rewrite IH by assumption. unfold choose. simpl.
      rewrite nth_lookup, E. reflexivity.
    + apply lookup_ge_None in E. lia.
Qed.

Lemma mergeLoop_iteration fuel PS indices Solutions anySolutions cs cs1 :
  applyPartialSolutions PS indices cs = Ok cs1 ->
  mergeLoop (S fuel) PS indices Solutions anySolutions cs
  = let scope := SolverScope_create cs in
    let next := nextCombination PS (length PS) indices in
    if worseThanBestSolution cs1 then
      if snd next then Ok (anySolutions, Solutions, SolverScope_release scope cs1)
      else mergeLoop fuel PS (fst next) Solutions anySolutions
                     (SolverScope_release scope cs1)
    else
      let saved := Solutions ++ [fst (finalize cs1)] in
      let cs2 := SolverScope_release scope (snd (finalize cs1)) in
      if snd next then Ok (true, saved, cs2)
      else mergeLoop fuel PS (fst next) saved true cs2.
Proof.
  intros Happly. cbn [mergeLoop]. rewrite Happly. cbn [obind].
  unfold saveComposed.
  destruct (nextCombination PS (length PS) indices) as [indices' done].
  destruct (worseThanBestSolution cs1); cbn [negb fst snd].
  - reflexivity.
  - destruct (finalize cs1) as [solution cs2]. reflexivity.
Qed.

Lemma mergeLoop_enumerates (PS : list (list Solution)) :
  Forall sizeOK (map length PS) ->
  PS <> [] ->
  forall d j Solutions anySolutions cs,
    (j + S d = product (map length PS))%nat ->
    mergeLoop (S d) PS (radixDigits (map length PS) j) Solutions anySolutions cs
    = Ok (fold_left composeChosen
            (map (choose PS) (map (radixDigits (map length PS)) (seq j (S d))))
            (anySolutions, Solutions, cs)).
Proof.
  intros Hsizes Hne.
  assert (Hpos : Forall (fun n => (0 < n)%nat) (map length PS)).
  { eapply Forall_impl; [exact Hsizes|]. intros n [Hn _]. exact Hn. }
  assert (Hne' : map length PS <> []) by (destruct PS; [congruence|discriminate]).
  induction d as [|d IH]; intros j Solutions anySolutions cs Hj.
  - pose proof (nextCombination_digits PS (map length PS) [] j
                  (eq_sym (app_nil_r _)) Hsizes Hne' ltac:(lia)) as [_ Hdone].
    simpl length in Hdone. cbn [replicate] in Hdone. rewrite app_nil_r in Hdone.
    rewrite length_map in Hdone. specialize (Hdone ltac:(lia)).
    cbn [mergeLoop].
    rewrite applyPartialSolutions_valid by (apply validCombination_digits; exact Hpos).
    cbn [obind seq map fold_left composeChosen].
    destruct (saveComposed _ _ _) as [[Solutions1 any1] cs2].
    destruct (nextCombination _ _ _) as [indices' done]. simpl in Hdone. subst done.
    reflexivity.
  - pose proof (nextCombination_digits PS (map length PS) [] j
                  (eq_sym (app_nil_r _)) Hsizes Hne' ltac:(lia)) as [Hnext _].
    simpl length in Hnext. cbn [replicate] in Hnext. rewrite !app_nil_r in Hnext.
    rewrite length_map in Hnext. specialize (Hnext ltac:(lia)).
    change (seq j (S (S d))) with (j :: seq (S j) (S d)).
    cbn [map fold_left].
    cbn [mergeLoop].
    rewrite applyPartialSolutions_valid by (apply validCombination_digits; exact Hpos).
    cbn [obind]. unfold composeChosen at 2.
    destruct (saveComposed _ _ _) as [[Solutions1 any1] cs2].
    rewrite Hnext. apply IH. lia.
Qed.

Lemma NoDup_combinations sizes : NoDup (combinations sizes).
Proof.
  unfold combinations.
  assert (Hgen : forall l, NoDup l -> Forall (fun j => (j < product sizes)%nat) l ->
                           NoDup (map (radixDigits sizes) l)).
  { induction l as [|j l IH]; intros Hnd Hall; simpl; [constructor|].
    inversion Hnd as [|? ? Hnotin Hnd']; subst.
    inversion Hall as [|? ? Hj Hall']; subst.
    constructor; [|apply IH; assumption].
    intros Hin. apply list_elem_of_In, in_map_iff in Hin as (j' & Heq & Hin').
    assert (j' = j).
    { rewrite <- (radixValue_digits sizes j'), <- (radixValue_digits sizes j), Heq;
        [reflexivity | assumption |].
      rewrite Forall_forall in Hall'. apply Hall'. apply list_elem_of_In. exact Hin'. }
    subst. apply Hnotin. apply list_elem_of_In. exact Hin'. }
  apply Hgen.
  - apply NoDup_ListNoDup, List.seq_NoDup.
  - apply Forall_forall. intros j Hin. apply list_elem_of_In, in_seq in Hin. lia.
Qed.

Lemma in_combinations sizes c :
  Forall (fun n => (0 < n)%nat) sizes ->
  In c (combinations sizes) <-> validCombination sizes c.
Proof.
  intros Hpos. unfold combinations. rewrite in_map_iff. split.
  - intros (j & <- & _). apply validCombination_digits. exact Hpos.
  - intros Hc. destruct (validCombination_value sizes c Hc) as [Hlt Heq].
    exists (radixValue sizes c). split; [exact Heq|]. apply in_seq. lia.
Qed.

Lemma lookup_combinations sizes j c :
  combinations sizes !! j = Some c -> radixValue sizes c = j.
Proof.
  unfold combinations. intros Hl.
  change (map (radixDigits sizes) (seq 0 (product sizes)))
    with (radixDigits sizes <$> seq 0 (product sizes)) in Hl.
  rewrite list_lookup_fmap in Hl.
  destruct (seq 0 (product sizes) !! j) as [j'|] eqn:E; [|discriminate].
  apply lookup_seq in E as [-> Hlt]. simpl in Hl. inversion Hl; subst.
  apply radixValue_digits. exact Hlt.
Qed.

End MergeProperties.

Section MergeTheorems.
Context `{!Collaborators}.

Lemma mergeLoop_more_fuel PS : forall d e indices Solutions anySolutions cs r,
  mergeLoop d PS indices Solutions anySolutions cs = Ok r ->
  mergeLoop (d + e) PS indices Solutions anySolutions cs = Ok r.
Proof.
  induction d as [|d IH]; intros e indices Solutions anySolutions cs r Hr.
  - discriminate.
  - cbn [mergeLoop Nat.add] in *.
    destruct (applyPartialSolutions PS indices cs) as [cs1|f]; [|discriminate].
    cbn [obind] in *.
    destruct (saveComposed _ _ _) as [[Solutions1 any1] cs2].
    destruct (nextCombination _ _ _) as [indices' done].
    destruct done; [exact Hr|]. apply IH. exact Hr.
Qed.

Lemma mergeLoop_no_components : forall fuel Solutions anySolutions cs,
  mergeLoop fuel [] [] Solutions anySolutions cs = Stop OutOfFuel.
Proof.
  induction fuel as [|fuel IH]; intros Solutions anySolutions cs.
  - reflexivity.
  - cbn [mergeLoop applyPartialSolutions obind length nextCombination].
    destruct (saveComposed _ _ _) as [[Solutions1 any1] cs2]. apply IH.
Qed.

Lemma mergeLoop_wraps (sol : Solution) (n : nat) :
  Z.of_nat n = 2 ^ 32 ->
  forall fuel idx Solutions anySolutions cs,
    0 <= idx < 2 ^ 32 ->
    mergeLoop fuel [replicate n sol] [idx] Solutions anySolutions cs = Stop OutOfFuel.
Proof.
  intros Hn. induction fuel as [|fuel IH]; intros idx Solutions anySolutions cs Hidx.
  - reflexivity.
  - cbn [mergeLoop applyPartialSolutions].
    rewrite lookup_replicate_2 by lia. cbn [obind].
    destruct (saveComposed _ _ _) as [[Solutions1 any1] cs2].
    cbn [length nextCombination nth insert list_insert].
    rewrite length_replicate, Hn.
    pose proof (wrap32_range (idx + 1)) as Hw.
    destruct (Z.ltb_spec (wrap32 (idx + 1)) (2 ^ 32)) as [_ | Hge]; [|lia].
    apply IH. exact Hw.
Qed.

(** X16. For a split with at least one component, whose
    vectors of partial solutions hold between 1 and 2^32 - 1 entries each,
    [mergePartialSolutions] returns after at most as many iterations as
    there are combinations, and what it does is what one iteration does
    ([composeChosen]) for each entry of [combinations], in that order. That
    list has one entry per combination: it has no duplicates, it holds
    exactly the index vectors that pick one partial solution per
    component, and its entry number [j] is the mixed-radix numeral of [j]
    in which the last component is the least significant digit. *)
Theorem merge_enumerates_combinations (PS : list (list Solution))
    (Solutions : list Solution) (cs : ConstraintSystem) :
  PS <> [] ->
  Forall (fun sols => (1 <= length sols)%nat /\ Z.of_nat (length sols) < 2 ^ 32) PS ->
  let sizes := map length PS in
  (forall extra,
     mergePartialSolutions (product sizes + extra) PS Solutions cs
     = Ok (fold_left composeChosen (map (choose PS) (combinations sizes))
                     (false, Solutions, cs)))
  /\ length (combinations sizes) = product sizes
  /\ NoDup (combinations sizes)
  /\ (forall c, In c (combinations sizes) <-> validCombination sizes c)
  /\ (forall j c, combinations sizes !! j = Some c -> radixValue sizes c = j).
Proof.
  intros Hne Hall sizes.
  assert (Hsizes : Forall sizeOK sizes).
  { unfold sizes. apply Forall_forall. intros n Hin.
    apply list_elem_of_In, in_map_iff in Hin as (sols & <- & Hin).
    rewrite Forall_forall in Hall. apply list_elem_of_In, Hall in Hin.
    unfold sizeOK. lia. }
  assert (Hpos : Forall (fun n => (0 < n)%nat) sizes).
  { eapply Forall_impl; [exact Hsizes|]. intros n [Hn _]. exact Hn. }
  pose proof (product_pos sizes Hpos) as HP.
  split; [|split; [|split; [|split]]].
  - intros extra. unfold mergePartialSolutions.
    apply mergeLoop_more_fuel.
    destruct (product sizes) as [|d] eqn:Ed; [lia|].
    rewrite <- (length_map length PS), <- radixDigits_zero.
    unfold combinations. fold sizes. rewrite Ed.
    apply mergeLoop_enumerates; [exact Hsizes | exact Hne | ].
    fold sizes. lia.
  - unfold combinations. rewrite length_map, length_seq. reflexivity.
  - apply NoDup_combinations.
  - intros c. apply in_combinations. exact Hpos.
  - apply lookup_combinations.
Qed.

(** C2. In every iteration of the merge loop in which the selected partial
    solutions have been applied, giving the constraint system [cs1]: when
    [cs1] is worse than the best solution, the loop goes on, or ends, with
    the vector [Solutions] and the flag [anySolutions] as they were; when
    it is not, the solution finalized from [cs1], and nothing else, is
    pushed at the back of [Solutions] and [anySolutions] is set. *)
Theorem merge_skips_worse_combinations (fuel : nat) (PS : list (list Solution))
    (indices : list Z) (Solutions : list Solution) (anySolutions : bool)
    (cs cs1 : ConstraintSystem) :
  applyPartialSolutions PS indices cs = Ok cs1 ->
  let scope := SolverScope_create cs in
  let next := nextCombination PS (length PS) indices in
  (worseThanBestSolution cs1 = true ->
     mergeLoop (S fuel) PS indices Solutions anySolutions cs
     = if snd next then Ok (anySolutions, Solutions, SolverScope_release scope cs1)
       else mergeLoop fuel PS (fst next) Solutions anySolutions
                      (SolverScope_release scope cs1))
  /\ (worseThanBestSolution cs1 = false ->
     mergeLoop (S fuel) PS indices Solutions anySolutions cs
     = if snd next
       then Ok (true, Solutions ++ [fst (finalize cs1)],
                SolverScope_release scope (snd (finalize cs1)))
       else mergeLoop fuel PS (fst next) (Solutions ++ [fst (finalize cs1)]) true
                      (SolverScope_release scope (snd (finalize cs1)))).
Proof.
  intros Happly scope next.
  pose proof (mergeLoop_iteration fuel PS indices Solutions anySolutions cs cs1 Happly)
    as Hiter.
  cbv zeta in Hiter. fold scope next in Hiter.
  split; intros Hworse; rewrite Hworse in Hiter; exact Hiter.
Qed.

End MergeTheorems.

Lemma merge_enumerates_combinations_witness :
  samplePartialSolutions <> []
  /\ Forall (fun sols => (1 <= length sols)%nat /\ Z.of_nat (length sols) < 2 ^ 32)
            samplePartialSolutions
  /\ (forall extra,
        @mergePartialSolutions exampleSolver
          (product (map length samplePartialSolutions) + extra)
          samplePartialSolutions [] (exampleSystem [] [] true)
        = Ok (fold_left (@composeChosen exampleSolver)
                (map (choose samplePartialSolutions)
                     (combinations (map length samplePartialSolutions)))
                (false, [], exampleSystem [] [] true))).
Proof.
  assert (Hne : samplePartialSolutions <> []) by discriminate.
  assert (Hall : Forall (fun sols => (1 <= length sols)%nat
                                     /\ Z.of_nat (length sols) < 2 ^ 32)
                        samplePartialSolutions).
  { repeat constructor; simpl; lia. }
  split; [exact Hne|]. split; [exact Hall|].
  exact (proj1 (@merge_enumerates_combinations exampleSolver samplePartialSolutions []
                  (exampleSystem [] [] true) Hne Hall)).
Defined.

(** C1, the defect. A split without components ([NumComponents] = 0) has
    one combination, the empty one. The loop of the merge composes it and
    pushes its solution, finds no next combination and does not set [done],
    which is only assigned inside the loop over the components; so it
    composes the same combination again. For every solver the merge never
    returns; on the sample solver two iterations have pushed the solution of
    the empty combination twice, and the loop goes on. *)
Theorem merge_without_components_never_returns :
  (forall (solver : Collaborators) fuel Solutions cs,
      @mergePartialSolutions solver fuel [] Solutions cs = Stop OutOfFuel)
  /\ ~ (exists fuel r,
          @mergePartialSolutions exampleSolver fuel [] [] (exampleSystem [] [] true)
          = Ok r)
  /\ nextCombination [] 0 [] = ([], false)
  /\ (forall fuel,
        @mergeLoop exampleSolver (S (S fuel)) [] [] [] false (exampleSystem [] [] true)
        = @mergeLoop exampleSolver fuel [] []
            [mkSolution [] zeroScore; mkSolution [] zeroScore] true solvedSystem).
Proof.
  assert (Hnever : forall (solver : Collaborators) fuel Solutions cs,
             @mergePartialSolutions solver fuel [] Solutions cs = Stop OutOfFuel).
  { intros solver fuel Solutions cs. unfold mergePartialSolutions.
    cbn [length replicate]. apply mergeLoop_no_components. }
  split; [exact Hnever|]. split; [|split].
  - intros (fuel & r & Hr). rewrite Hnever in Hr. discriminate.
  - reflexivity.
  - intros fuel. reflexivity.
Qed.

Lemma merge_skips_worse_combinations_witness :
  @applyPartialSolutions exampleSolver samplePartialSolutions [0; 0]
     (exampleSystem [] [] true)
  = Ok (@applySolution exampleSolver (sampleSolution 3)
          (@applySolution exampleSolver (sampleSolution 1) (exampleSystem [] [] true)))
  /\ @mergeLoop exampleSolver 3 samplePartialSolutions [0; 0] [] false
        (exampleSystem [] [] true)
     = @mergeLoop exampleSolver 2 samplePartialSolutions [1; 0]
         [mkSolution [(1, 1); (3, 3)]%nat zeroScore] true solvedSystem
  /\ @worseThanBestSolution exampleSolver
       (@applySolution exampleSolver costlySolution solvedSystem) = true
  /\ @mergeLoop exampleSolver 1 [[costlySolution]] [0] [] false solvedSystem
     = Ok (false, [],
           SolverScope_release (SolverScope_create solvedSystem)
             (@applySolution exampleSolver costlySolution solvedSystem)).
Proof.
  split; [reflexivity|]. split; [|split; [reflexivity|]].
  - exact (proj2 (@merge_skips_worse_combinations exampleSolver 2 samplePartialSolutions
                    [0; 0] [] false (exampleSystem [] [] true) _ eq_refl) eq_refl).
  - exact (proj1 (@merge_skips_worse_combinations exampleSolver 0 [[costlySolution]]
                    [0] [] false solvedSystem _ eq_refl) eq_refl).
Defined.

(** ** ComponentStep *)

Lemma filterSolutions_minimal (solutions : list Solution) (s : Solution) :
  In s (filterSolutions solutions true)
  <-> In s solutions
      /\ forall t, In t solutions -> score_ltb (getFixedScore t) (getFixedScore s) = false.
Proof.
  unfold filterSolutions.
  rewrite <- !list_elem_of_In, list_elem_of_filter, forallb_forall.
  split; intros [Hmin Hin].
  - split; [exact Hin|]. intros t Ht. apply Hmin in Ht. apply negb_true_iff. exact Ht.
  - split; [|exact Hmin]. intros t Ht. apply negb_true_iff. apply Hin. exact Ht.
Qed.

Section ComponentTheorems.
Context `{!Collaborators}.

(** C3 (as amended). When [ComponentStep::resume] is called with
    [prevFailed = false], the vector of the component becomes the
    minimal-score subset of its solutions after [OriginalScore] has been
    subtracted from the score of each, and the result is Done(true); when
    it is called with [prevFailed = true] the result is Done(false) and the
    vector is left as it is. *)
Theorem ComponentStep_resume_normalizes_and_filters (c : ComponentStep) (store : Store) :
  let normalized := map (normalizeScore c) (vectorAt store (CS_Solutions c)) in
  ComponentStep_resume c false store
  = (Done true, <[CS_Solutions c := filterSolutions normalized true]> store)
  /\ (forall s,
        getFixedScore (normalizeScore c s)
        = score_sub (getFixedScore s) (OriginalScore c)
        /\ typeBindings (normalizeScore c s) = typeBindings s)
  /\ (forall s,
        In s (filterSolutions normalized true)
        <-> In s normalized
            /\ forall t, In t normalized ->
                         score_ltb (getFixedScore t) (getFixedScore s) = false)
  /\ ComponentStep_resume c true store = (Done false, store).
Proof.
  intros normalized. split; [reflexivity|]. split; [|split].
  - intros s. split; reflexivity.
  - intros s. apply filterSolutions_minimal.
  - reflexivity.
Qed.

End ComponentTheorems.

(** C3, counterexample: resumed after a failure, the step is not
    Done(true), and the dominated solution is still in its vector. *)
Lemma ComponentStep_resume_after_failure :
  ComponentStep_resume sampleComponent true [[sampleSolution 1; costlySolution]]
  = (Done false, [[sampleSolution 1; costlySolution]])
  /\ ComponentStep_resume sampleComponent false [[sampleSolution 1; costlySolution]]
     = (Done true, [[sampleSolution 1]]).
Proof. split; reflexivity. Qed.

Section ComponentTakeTheorems.
Context `{!Collaborators}.

Lemma ignorable_all (constraints : list Constraint) :
  forallb ignorableWithFreeVariables constraints = true
  <-> forall k, In k constraints ->
        getClassification k = Relational \/ getClassification k = Member.
Proof.
  rewrite forallb_forall. unfold ignorableWithFreeVariables.
  split; intros Hall k Hk; specialize (Hall k Hk).
  - destruct (getClassification k); auto; discriminate.
  - destruct Hall as [-> | ->]; reflexivity.
Qed.


(** C5 (as amended). For a component with no bindings to attempt and no
    disjunction: [ComponentStep::take] returns Done(false), and records
    nothing, if free type variables are not allowed, or there is no free
    type variable, or the current score is worse than the best solution,
    or some remaining constraint is neither relational nor a member
    constraint; otherwise, when it is called with [prevFailed = false], it
    finalizes a solution, pushes it on its vector and returns Done(true).
    Called with [prevFailed = true] it returns Done(false). *)
Theorem ComponentStep_take_free_type_variables (c : ComponentStep) (store : Store)
    (cs : ConstraintSystem) :
  determineBestBindings cs = None ->
  selectDisjunction cs = None ->
  (allowsFreeTypeVariables (solverState cs) = false
   \/ hasFreeTypeVariables cs = false
   \/ worseThanBestSolution cs = true
   \/ (exists k, In k (InactiveConstraints cs)
                 /\ getClassification k <> Relational
                 /\ getClassification k <> Member) ->
   forall prevFailed,
     ComponentStep_take c prevFailed store cs = (Done false, store, cs))
  /\ (allowsFreeTypeVariables (solverState cs) = true ->
      hasFreeTypeVariables cs = true ->
      worseThanBestSolution cs = false ->
      (forall k, In k (InactiveConstraints cs) ->
                 getClassification k = Relational \/ getClassification k = Member) ->
      ComponentStep_take c false store cs
      = (Done true, push_back (CS_Solutions c) (fst (finalize cs)) store,
         snd (finalize cs)))
  /\ ComponentStep_take c true store cs = (Done false, store, cs).
Proof.
  intros Hbest Hdis. unfold ComponentStep_take. rewrite Hbest, Hdis.
  cbn [bindingsToAttempt]. split; [|split].
  - intros Hfail [|]; [reflexivity|].
    destruct (allowsFreeTypeVariables (solverState cs)) eqn:Hallow; [|reflexivity].
    destruct (hasFreeTypeVariables cs) eqn:Hfree; [|reflexivity].
    cbn [negb orb].
    destruct (worseThanBestSolution cs) eqn:Hworse; [reflexivity|].
    destruct (forallb ignorableWithFreeVariables (InactiveConstraints cs)) eqn:Hign;
      [|reflexivity].
    exfalso. destruct Hfail as [Hf | [Hf | [Hf | (k & Hk & Hr & Hm)]]];
      try discriminate.
    pose proof (proj1 (ignorable_all _) Hign k Hk) as [Hc | Hc]; contradiction.
  - intros Hallow Hfree Hworse Hign.
    rewrite Hallow, Hfree, Hworse. cbn [negb orb].
    rewrite (proj2 (ignorable_all _) Hign).
    destruct (finalize cs) as [solution cs1]. reflexivity.
  - reflexivity.
Qed.

End ComponentTakeTheorems.



Lemma ComponentStep_take_free_type_variables_witness :
  @ComponentStep_take exampleSolver sampleComponent false [[]]
     (exampleSystem [2%nat] [relationalConstraint] false)
  = (Done false, [[]], exampleSystem [2%nat] [relationalConstraint] false)
  /\ @ComponentStep_take exampleSolver sampleComponent false [[]]
       (exampleSystem [2%nat] [relationalConstraint] true)
     = (Done true, [[mkSolution [] zeroScore]],
        withSolverState (withBestScore zeroScore (exampleState true))
                        (exampleSystem [2%nat] [relationalConstraint] true)).
Proof.
  split.
  - apply (proj1 (@ComponentStep_take_free_type_variables exampleSolver sampleComponent
                    [[]] (exampleSystem [2%nat] [relationalConstraint] false)
                    eq_refl eq_refl)).
    left. reflexivity.
  - apply (proj1 (proj2 (@ComponentStep_take_free_type_variables exampleSolver
                           sampleComponent [[]]
                           (exampleSystem [2%nat] [relationalConstraint] true)
                           eq_refl eq_refl))).
    + reflexivity.
    + reflexivity.
    + reflexivity.
    + intros k [<- | []]. left. reflexivity.
Defined.

(** C5, counterexample: a component with a free type variable, free type
    variables allowed, no score to beat and one relational constraint left
    is Done(true) with one solution when taken after a success, but
    Done(false) with nothing recorded when taken after a failure. *)
Lemma ComponentStep_take_after_failure :
  @determineBestBindings exampleSolver (exampleSystem [2%nat] [relationalConstraint] true)
  = None
  /\ @selectDisjunction exampleSolver (exampleSystem [2%nat] [relationalConstraint] true)
     = None
  /\ @ComponentStep_take exampleSolver sampleComponent true [[]]
       (exampleSystem [2%nat] [relationalConstraint] true)
     = (Done false, [[]], exampleSystem [2%nat] [relationalConstraint] true)
  /\ fst (fst (@ComponentStep_take exampleSolver sampleComponent false [[]]
                 (exampleSystem [2%nat] [relationalConstraint] true)))
     = Done true.
Proof. repeat split. Qed.

(** ** DisjunctionStep *)

Lemma counter_score_sub_nonneg (x y : Score) (kind : nat) :
  0 <= counter (score_sub x y) kind.
Proof.
  unfold counter, score_sub. cbn [Data].
  rewrite nth_lookup, lookup_zip_with.
  destruct (Data x !! kind) as [a|]; cbn; [|lia].
  destruct (Data y !! kind) as [b|]; cbn; [|lia].
  apply wrap32_range.
Qed.

Lemma isSome_true {A} (o : option A) : isSome o = true <-> o <> None.
Proof. destruct o; simpl; split; congruence. Qed.

Lemma isSome_false {A} (o : option A) : isSome o = false <-> o = None.
Proof. destruct o; simpl; split; congruence. Qed.

Lemma restrictionKind_eqb_eq a b : restrictionKind_eqb a b = true <-> a = b.
Proof.
  destruct a, b; simpl; split; intros Heq; try congruence; try discriminate.
  - apply Nat.eqb_eq in Heq. congruence.
  - inversion Heq; subst. apply Nat.eqb_refl.
Qed.

Lemma isCheckedCast_eq k : isCheckedCast k = true <-> k = CK_CheckedCast.
Proof. destruct k; simpl; split; congruence. Qed.

Lemma restrictionShortCircuits_spec (current last : Constraint) :
  restrictionShortCircuits current last = true
  <-> getRestriction current = Some OptionalToOptional
      \/ (getRestriction current = Some InoutToPointer
          /\ getRestriction last = Some ArrayToPointer).
Proof.
  unfold restrictionShortCircuits.
  destruct (getRestriction current) as [r|]; [|split; [discriminate|]].
  - destruct (restrictionKind_eqb r OptionalToOptional) eqn:Ho.
    + apply restrictionKind_eqb_eq in Ho. subst. split; auto.
    + destruct (getRestriction last) as [r'|].
      * rewrite andb_true_iff, !restrictionKind_eqb_eq. split.
        -- intros [-> ->]. right. split; reflexivity.
        -- intros [Heq | [Heq Heq']].
           ++ inversion Heq; subst. discriminate.
           ++ inversion Heq; inversion Heq'; subst. split; reflexivity.
      * split; [discriminate|].
        intros [Heq | [_ Heq]]; [|discriminate].
        inversion Heq; subst. discriminate.
  - intros [Heq | [Heq _]]; discriminate.
Qed.

Lemma shortCircuitDisjunctionAt_spec (cs : ConstraintSystem) (current last : Constraint) :
  shortCircuitDisjunctionAt cs current last = true
  <-> DisableConstraintSolverPerformanceHacks cs = false
      /\ ((isFavored last = true /\ isFavored current = false)
          \/ (getFix current <> None /\ getFix last = None)
          \/ getRestriction current = Some OptionalToOptional
          \/ (getRestriction current = Some InoutToPointer
              /\ getRestriction last = Some ArrayToPointer)
          \/ getKind current = CK_CheckedCast).
Proof.
  unfold shortCircuitDisjunctionAt.
  destruct (DisableConstraintSolverPerformanceHacks cs);
    [split; [discriminate | intros [? _]; discriminate]|].
  destruct (isFavored last && negb (isFavored current)) eqn:Hfav.
  { apply andb_true_iff in Hfav as [Hl Hc]. apply negb_true_iff in Hc.
    split; auto. }
  destruct (isSome (getFix current) && negb (isSome (getFix last))) eqn:Hfix.
  { apply andb_true_iff in Hfix as [Hc Hl]. apply negb_true_iff in Hl.
    apply isSome_true in Hc. apply isSome_false in Hl. split; auto. }
  destruct (restrictionShortCircuits current last) eqn:Hres.
  { apply restrictionShortCircuits_spec in Hres. split; [|reflexivity].
    intros _. split; [reflexivity|]. destruct Hres; auto. }
  destruct (isCheckedCast (getKind current)) eqn:Hcast.
  { apply isCheckedCast_eq in Hcast. split; auto 10. }
  split; [discriminate|]. intros [_ Hrule]. exfalso.
  destruct Hrule as [[Hl Hc] | [[Hc Hl] | [Ho | [Hio | Hk]]]].
  - rewrite Hl, Hc in Hfav. discriminate.
  - apply isSome_true in Hc. apply isSome_false in Hl.
    rewrite Hc, Hl in Hfix. discriminate.
  - assert (restrictionShortCircuits current last = true)
      by (apply restrictionShortCircuits_spec; auto).
    congruence.
  - assert (restrictionShortCircuits current last = true)
      by (apply restrictionShortCircuits_spec; auto).
    congruence.
  - apply isCheckedCast_eq in Hk. congruence.
Qed.

Section DisjunctionTheorems.
Context `{!Collaborators}.



(** C7. [shouldShortCircuitAt] holds for a choice if and only if a last
    solved choice is recorded, the difference between its score and the
    current score has no unavailable-overload and no fix counter, the
    performance hacks are not disabled, and one of the dominance rules
    holds: the last solved choice is favored and the current one is not;
    the current one carries a fix and the last solved one does not; the
    current one is an optional-to-optional conversion; the current one is
    an inout-to-pointer conversion and the last solved one an
    array-to-pointer conversion; the current one is a checked cast. *)
Theorem shouldShortCircuitAt_rules (d : DisjunctionStep) (cs : ConstraintSystem)
    (choice : DisjunctionChoice) :
  shouldShortCircuitAt d cs choice = true
  <-> exists lastChoice lastScore,
        LastSolvedChoice d = Some (lastChoice, lastScore)
        /\ counter (score_sub lastScore (getCurrentScore cs)) SK_Unavailable = 0
        /\ counter (score_sub lastScore (getCurrentScore cs)) SK_Fix = 0
        /\ DisableConstraintSolverPerformanceHacks cs = false
        /\ ((isFavored lastChoice = true /\ isFavored (choiceConstraint choice) = false)
            \/ (getFix (choiceConstraint choice) <> None /\ getFix lastChoice = None)
            \/ getRestriction (choiceConstraint choice) = Some OptionalToOptional
            \/ (getRestriction (choiceConstraint choice) = Some InoutToPointer
                /\ getRestriction lastChoice = Some ArrayToPointer)
            \/ getKind (choiceConstraint choice) = CK_CheckedCast).
Proof.
  unfold shouldShortCircuitAt.
  destruct (LastSolvedChoice d) as [[lastChoice lastScore]|].
  - cbv zeta.
    pose proof (counter_score_sub_nonneg lastScore (getCurrentScore cs) SK_Unavailable)
      as Hu.
    pose proof (counter_score_sub_nonneg lastScore (getCurrentScore cs) SK_Fix) as Hf.
    rewrite !andb_true_iff, !negb_true_iff, !Z.ltb_ge, shortCircuitDisjunctionAt_spec.
    split.
    + intros [[Hu' Hf'] [Hd Hrule]]. exists lastChoice, lastScore.
      repeat split; [lia | lia | exact Hd | exact Hrule].
    + intros (lc & ls & Heq & Hu' & Hf' & Hd & Hrule). inversion Heq; subst.
      repeat split; [lia | lia | exact Hd | exact Hrule].
  - split; [discriminate|]. intros (lc & ls & Heq & _). discriminate.
Qed.

End DisjunctionTheorems.



Lemma shouldShortCircuitAt_rules_witness :
  @shouldShortCircuitAt exampleSolver
     (sampleDisjunctionStep None (Some (overloadConstraint true false, zeroScore)))
     (exampleSystem [] [] true) plainChoice = true.
Proof.
  apply (proj2 (@shouldShortCircuitAt_rules exampleSolver
                  (sampleDisjunctionStep None
                     (Some (overloadConstraint true false, zeroScore)))
                  (exampleSystem [] [] true) plainChoice)).
  exists (overloadConstraint true false), zeroScore.
  split; [reflexivity|]. split; [reflexivity|]. split; [reflexivity|].
  split; [reflexivity|]. left. split; reflexivity.
Defined.

(** ** Scopes *)

Lemma tracked_release (scope : SolverScope) (cs : ConstraintSystem) :
  tracked (SolverScope_release scope cs) = snapshot scope.
Proof. reflexivity. Qed.

Lemma snapshot_create (cs : ConstraintSystem) :
  snapshot (SolverScope_create cs) = tracked cs.
Proof. reflexivity. Qed.

Lemma tracked_bumpBindings (cs : ConstraintSystem) :
  tracked (bumpNumTypeVariableBindings cs) = tracked cs.
Proof. reflexivity. Qed.

Section StepScopes.
Context `{!Collaborators}.



End StepScopes.

Section ScopeTheorems.
Context `{!Collaborators}.


End ScopeTheorems.


(** ** TypeVariableStep *)

Section TypeVariableTheorems.
Context `{!Collaborators}.

Lemma TypeVariableStep_takeLoop_result : forall pending t used saw cs,
  let '(r, t', cs') := TypeVariableStep_takeLoop t pending used saw cs in
  AnySolved t' = AnySolved t
  /\ (forall b, r = Done b -> b = AnySolved t)
  /\ (r = Done false -> pendingBindings (TVS_Producer t') = []).
Proof.
  induction pending as [|[binding last] rest IH]; intros t used saw cs.
  - simpl. split; [reflexivity|]. split; [|reflexivity].
    intros b Hb. inversion Hb. reflexivity.
  - cbn [TypeVariableStep_takeLoop].
    destruct (AnySolved t) eqn:Hany; cbn [andb].
    + destruct (isDefaultable binding).
      { specialize (IH t last saw (bumpNumTypeVariableBindings cs)).
        rewrite Hany in IH. exact IH. }
      destruct (hasDefaultedProtocol binding && negb saw).
      { simpl. rewrite Hany. split; [reflexivity|]. split; [|discriminate].
        intros b Hb. inversion Hb. reflexivity. }
      destruct (attemptBinding binding _) as [ok cs2]. destruct ok.
      * simpl. rewrite Hany. split; [reflexivity|]. split; discriminate.
      * match goal with
        | |- context [TypeVariableStep_takeLoop t rest last ?s ?c] =>
            specialize (IH t last s c)
        end.
        rewrite Hany in IH. exact IH.
    + destruct (attemptBinding binding _) as [ok cs2]. destruct ok.
      * simpl. rewrite Hany. split; [reflexivity|]. split; discriminate.
      * match goal with
        | |- context [TypeVariableStep_takeLoop t rest last ?s ?c] =>
            specialize (IH t last s c)
        end.
        rewrite Hany in IH. exact IH.
Qed.

(** C8 (as amended). In the loop of [TypeVariableStep::take], once a
    solution has been found ([AnySolved]): a defaultable binding is passed
    over without being attempted, and at a binding with a defaulted
    protocol that is not defaultable, when no binding with a defaulted
    protocol has been attempted yet ([SawFirstLiteralConstraint] is not
    set), the loop stops with Done(true) and leaves the remaining bindings
    in the producer. [take] and [resume] keep [AnySolved] as the record of
    whether any attempted binding led to a solution, and each returns
    Done(false) exactly when it is done with no solution found; the
    producer is then exhausted. With an exhausted producer and no solution
    found, [take] is Done(false). *)
Theorem TypeVariableStep_bindings_and_result :
  (forall t binding last rest used saw cs,
      AnySolved t = true ->
      isDefaultable binding = true ->
      TypeVariableStep_takeLoop t ((binding, last) :: rest) used saw cs
      = TypeVariableStep_takeLoop t rest last saw (bumpNumTypeVariableBindings cs))
  /\ (forall t binding last rest used cs,
      AnySolved t = true ->
      isDefaultable binding = false ->
      hasDefaultedProtocol binding = true ->
      TypeVariableStep_takeLoop t ((binding, last) :: rest) used false cs
      = (Done true, TVS_update t (mkTVProducer last rest) false None,
         bumpNumTypeVariableBindings cs))
  /\ (forall t prevFailed cs r t' cs',
      TypeVariableStep_take t prevFailed cs = (r, t', cs') ->
      AnySolved t' = AnySolved t
      /\ (r = Done false <-> (exists b, r = Done b) /\ AnySolved t = false)
      /\ (r = Done false -> pendingBindings (TVS_Producer t') = []))
  /\ (forall t prevFailed cs r t' cs',
      TypeVariableStep_resume t prevFailed cs = Ok (r, t', cs') ->
      AnySolved t' = AnySolved t || negb prevFailed
      /\ (r = Done false
          <-> (exists b, r = Done b) /\ AnySolved t = false /\ prevFailed = true)
      /\ (r = Done false -> pendingBindings (TVS_Producer t') = []))
  /\ (forall t prevFailed cs,
      pendingBindings (TVS_Producer t) = [] ->
      AnySolved t = false ->
      fst (fst (TypeVariableStep_take t prevFailed cs)) = Done false).
Proof.
  split; [|split; [|split; [|split]]].
  - intros t binding last rest used saw cs Hany Hdef.
    cbn [TypeVariableStep_takeLoop]. rewrite Hany, Hdef. reflexivity.
  - intros t binding last rest used cs Hany Hdef Hproto.
    cbn [TypeVariableStep_takeLoop]. rewrite Hany, Hdef, Hproto. reflexivity.
  - intros t prevFailed cs r t' cs' Htake.
    pose proof (TypeVariableStep_takeLoop_result
                  (pendingBindings (TVS_Producer t)) t
                  (batchUsedUp (TVS_Producer t)) (SawFirstLiteralConstraint t) cs)
      as Hres.
    unfold TypeVariableStep_take in Htake. rewrite Htake in Hres.
    destruct Hres as (Hany & Hdone & Hexh).
    split; [exact Hany|]. split; [|exact Hexh].
    split.
    + intros ->. split; [eauto|]. symmetry. apply Hdone. reflexivity.
    + intros [[b ->] Hfalse]. rewrite (Hdone b eq_refl), Hfalse. reflexivity.
  - intros t prevFailed cs r t' cs' Hres.
    unfold TypeVariableStep_resume in Hres.
    destruct (TVS_ActiveChoice t) as [scope|]; [|discriminate].
    cbn [TypeVariableStep_rewind AnySolved TVS_Producer] in Hres.
    destruct ((AnySolved t || negb prevFailed) && needsToComputeNext (TVS_Producer t))
      eqn:Hstop.
    + inversion Hres; subst. cbn [AnySolved].
      apply andb_true_iff in Hstop as [Hany _].
      split; [reflexivity|]. split; [|discriminate].
      split; [discriminate|]. intros (_ & Hf & Hp). rewrite Hf, Hp in Hany. discriminate.
    + inversion Hres as [Htake]. clear Hres.
      match type of Htake with
      | TypeVariableStep_take ?t1 ?pf ?cs1 = _ =>
          pose proof (TypeVariableStep_takeLoop_result
                        (pendingBindings (TVS_Producer t1)) t1
                        (batchUsedUp (TVS_Producer t1))
                        (SawFirstLiteralConstraint t1) cs1) as Hloop;
          unfold TypeVariableStep_take in Htake; rewrite Htake in Hloop
      end.
      cbn [AnySolved] in Hloop. destruct Hloop as (Hany & Hdone & Hexh).
      split; [exact Hany|]. split; [|exact Hexh].
      split.
      * intros ->. specialize (Hdone false eq_refl).
        symmetry in Hdone. apply orb_false_iff in Hdone as [Hf Hp].
        apply negb_false_iff in Hp. eauto.
      * intros ([b ->] & Hf & Hp). rewrite (Hdone b eq_refl), Hf, Hp. reflexivity.
  - intros t prevFailed cs Hpending Hany.
    unfold TypeVariableStep_take. rewrite Hpending. simpl. rewrite Hany. reflexivity.
Qed.

End TypeVariableTheorems.

Lemma TypeVariableStep_bindings_and_result_witness :
  @TypeVariableStep_takeLoop exampleSolver (sampleTypeVariableStep true [] None)
     [(defaultableBinding, false); (literalBinding, true); (plainBinding, true)]
     false false (exampleSystem [1%nat] [] true)
  = (Done true,
     TVS_update (sampleTypeVariableStep true [] None)
                (mkTVProducer true [(plainBinding, true)]) false None,
     bumpNumTypeVariableBindings
       (bumpNumTypeVariableBindings (exampleSystem [1%nat] [] true)))
  /\ @TypeVariableStep_resume exampleSolver
       (sampleTypeVariableStep false [] (Some sampleScope)) true
       (exampleSystem [1%nat; 5%nat] [] true)
     = Ok (Done false,
           mkTypeVariableStep 1%nat (mkTVProducer false []) false false None 0,
           SolverScope_release sampleScope (exampleSystem [1%nat; 5%nat] [] true))
  /\ fst (fst (@TypeVariableStep_take exampleSolver
                 (sampleTypeVariableStep false [] None) false
                 (exampleSystem [1%nat] [] true)))
     = Done false
  /\ fst (fst (@TypeVariableStep_take exampleSolver
                 (sampleTypeVariableStep false [] None) true
                 (exampleSystem [1%nat] [] true)))
     = Done false.
Proof.
  pose proof (@TypeVariableStep_bindings_and_result exampleSolver)
    as (Hskip & Hstop & Htake & Hresume & Hexhausted).
  split; [|split; [|split]].
  - rewrite (Hskip (sampleTypeVariableStep true [] None) defaultableBinding false
               [(literalBinding, true); (plainBinding, true)] false false
               (exampleSystem [1%nat] [] true) eq_refl eq_refl).
    exact (Hstop (sampleTypeVariableStep true [] None) literalBinding true
             [(plainBinding, true)] false _ eq_refl eq_refl eq_refl).
  - assert (Hrun : @TypeVariableStep_resume exampleSolver
                     (sampleTypeVariableStep false [] (Some sampleScope)) true
                     (exampleSystem [1%nat; 5%nat] [] true)
                   = Ok (Done false,
                         mkTypeVariableStep 1%nat (mkTVProducer false []) false false
                                            None 0,
                         SolverScope_release sampleScope
                           (exampleSystem [1%nat; 5%nat] [] true)))
      by reflexivity.
    destruct (Hresume _ _ _ _ _ _ Hrun) as (_ & _ & _). exact Hrun.
  - apply Hexhausted; reflexivity.
  - destruct (Htake (sampleTypeVariableStep false [] None) true
                (exampleSystem [1%nat] [] true) _ _ _ eq_refl) as (_ & Hfalse & _).
    apply (proj2 Hfalse). split; [eexists; reflexivity | reflexivity].
Defined.

(** ** Ranking *)

Lemma data_ltb_irrefl x : data_ltb x x = false.
Proof.
  induction x as [|a x IH]; simpl; [reflexivity|].
  rewrite Z.ltb_irrefl, Z.eqb_refl. exact IH.
Qed.

Lemma data_ltb_trans : forall x y z,
  data_ltb x y = true -> data_ltb y z = true -> data_ltb x z = true.
Proof.
  induction x as [|a x IH]; intros [|b y] [|c z]; simpl; try discriminate.
  destruct (Z.ltb_spec a b), (Z.eqb_spec a b), (Z.ltb_spec b c), (Z.eqb_spec b c),
    (Z.ltb_spec a c), (Z.eqb_spec a c); simpl; try discriminate; try lia; auto.
  apply IH.
Qed.

Lemma minimal_solution_exists (solutions : list Solution) :
  solutions <> [] ->
  exists m, In m solutions
            /\ forall t, In t solutions ->
                         score_ltb (getFixedScore t) (getFixedScore m) = false.
Proof.
  induction solutions as [|a l IH]; [congruence|]. intros _.
  destruct l as [|b l'].
  - exists a. split; [left; reflexivity|].
    intros t [<- | []]. apply data_ltb_irrefl.
  - destruct (IH ltac:(discriminate)) as (m & Hm & Hmin).
    destruct (score_ltb (getFixedScore a) (getFixedScore m)) eqn:Ham.
    + exists a. split; [left; reflexivity|].
      intros t [<- | Ht]; [apply data_ltb_irrefl|].
      destruct (score_ltb (getFixedScore t) (getFixedScore a)) eqn:Hta; [|reflexivity].
      rewrite <- (Hmin t Ht). symmetry.
      exact (data_ltb_trans _ _ _ Hta Ham).
    + exists m. split; [right; exact Hm|].
      intros t [<- | Ht]; [exact Ham | exact (Hmin t Ht)].
Qed.

Lemma filterSolutions_nonempty (solutions : list Solution) :
  solutions <> [] -> filterSolutions solutions true <> [].
Proof.
  intros Hne. destruct (minimal_solution_exists solutions Hne) as (m & Hm & Hmin).
  assert (Hin : In m (filterSolutions solutions true))
    by (apply filterSolutions_minimal; split; assumption).
  intros Hnil. rewrite Hnil in Hin. exact Hin.
Qed.

(** ** The merge stays within bounds *)

Lemma valid_insert : forall sizes c i v,
  validCombination sizes c ->
  (forall n, sizes !! i = Some n -> 0 <= v < Z.of_nat n) ->
  validCombination sizes (<[i := v]> c).
Proof.
  unfold validCombination. intros sizes c i v Hvalid. revert i.
  induction Hvalid as [|n x sizes c Hx Hvalid IH]; intros i Hv.
  - constructor.
  - destruct i as [|i]; simpl.
    + constructor; [apply Hv; reflexivity | exact Hvalid].
    + constructor; [exact Hx|]. apply IH. intros m Hm. apply Hv. exact Hm.
Qed.

Lemma valid_zero_fold sizes : forall (l : list nat) c,
  Forall (fun n => (0 < n)%nat) sizes ->
  validCombination sizes c ->
  validCombination sizes (fold_left (fun ind i => <[i := 0]> ind) l c).
Proof.
  intros l c Hpos. revert c.
  induction l as [|i l IH]; intros c Hvalid; simpl; [exact Hvalid|].
  apply IH. apply valid_insert; [exact Hvalid|].
  intros n Hn. apply list_elem_of_lookup_2 in Hn.
  rewrite Forall_forall in Hpos. apply Hpos in Hn. lia.
Qed.

Lemma valid_zeroFrom_insert sizes : forall n k c v,
  Forall (fun n => (0 < n)%nat) sizes ->
  validCombination sizes c ->
  (length c <= k)%nat ->
  validCombination sizes (zeroFrom n k (<[n := v]> c)).
Proof.
  intros n k c v Hpos Hvalid Hk. unfold zeroFrom.
  destruct (k - n)%nat as [|d] eqn:Hd.
  - simpl. rewrite list_insert_ge by lia. exact Hvalid.
  - simpl. rewrite list_insert_insert_eq.
    apply valid_zero_fold; [exact Hpos|].
    apply valid_insert; [exact Hvalid|].
    intros m Hm. apply list_elem_of_lookup_2 in Hm.
    rewrite Forall_forall in Hpos. apply Hpos in Hm. lia.
Qed.

Lemma nextCombination_valid (PS : list (list Solution)) : forall n indices,
  Forall (fun n => (0 < n)%nat) (map length PS) ->
  validCombination (map length PS) indices ->
  snd (nextCombination PS n indices) = true
  \/ validCombination (map length PS) (fst (nextCombination PS n indices)).
Proof.
  induction n as [|n IH]; intros indices Hpos Hvalid.
  - right. exact Hvalid.
  - cbn [nextCombination].
    set (v := wrap32 (nth n indices 0 + 1)).
    destruct (Z.ltb_spec (nth n (<[n := v]> indices) 0)
                (Z.of_nat (length (nth n PS [])))) as [Hlt | Hge].
    + right. cbn [fst]. apply valid_insert; [exact Hvalid|].
      intros m Hm.
      assert (Hn : (n < length indices)%nat).
      { apply lookup_lt_Some in Hm.
        rewrite <- (Forall2_length _ _ _ Hvalid). exact Hm. }
      rewrite length_nth_map in Hlt.
      rewrite (nth_lookup_Some _ _ _ _ Hm) in Hlt.
      rewrite nth_lookup, list_lookup_insert_eq in Hlt by exact Hn. cbn in Hlt.
      pose proof (wrap32_range (nth n indices 0 + 1)) as Hv. fold v in Hv. lia.
    + destruct (Nat.eqb (S n) 1); [left; reflexivity|].
      apply IH; [exact Hpos|].
      apply valid_zeroFrom_insert; [exact Hpos | exact Hvalid |].
      rewrite <- (Forall2_length _ _ _ Hvalid), length_map. lia.
Qed.

Lemma nonempty_sizes (PS : list (list Solution)) :
  Forall (fun sols => sols <> []) PS ->
  Forall (fun n => (0 < n)%nat) (map length PS).
Proof.
  induction 1 as [|sols PS Hsols _ IH]; simpl; constructor; [|exact IH].
  destruct sols; [congruence | simpl; lia].
Qed.

Lemma valid_zeros (PS : list (list Solution)) :
  Forall (fun sols => sols <> []) PS ->
  validCombination (map length PS) (replicate (length PS) 0).
Proof.
  unfold validCombination.
  induction 1 as [|sols PS Hsols _ IH]; simpl; constructor; [|exact IH].
  destruct sols; [congruence | simpl; lia].
Qed.

Section MergeBounds.
Context `{!Collaborators}.

Lemma mergeLoop_in_bounds (PS : list (list Solution)) :
  Forall (fun sols => sols <> []) PS ->
  forall fuel indices Solutions anySolutions cs,
    validCombination (map length PS) indices ->
    (anySolutions = true -> Solutions <> []) ->
    match mergeLoop fuel PS indices Solutions anySolutions cs with
    | Stop f => f = OutOfFuel
    | Ok (anySolutions', Solutions', _) =>
        (anySolutions' = true -> Solutions' <> [])
        /\ (Solutions <> [] -> Solutions' <> [])
    end.
Proof.
  intros Hne. pose proof (nonempty_sizes PS Hne) as Hpos.
  induction fuel as [|fuel IH]; intros indices Solutions anySolutions cs Hvalid Hany.
  - reflexivity.
  - cbn [mergeLoop]. rewrite applyPartialSolutions_valid by exact Hvalid. cbn [obind].
    unfold saveComposed.
    pose proof (nextCombination_valid PS (length PS) indices Hpos Hvalid) as Hnext.
    destruct (nextCombination PS (length PS) indices) as [indices' done].
    cbn [fst snd] in Hnext.
    destruct (worseThanBestSolution _); cbn [negb].
    + destruct done.
      * split; [exact Hany | auto].
      * destruct Hnext as [Hd | Hvalid']; [discriminate|].
        apply IH; assumption.
    + destruct (finalize _) as [solution cs2].
      assert (Hpushed : Solutions ++ [solution] <> [])
        by (destruct Solutions; discriminate).
      destruct done.
      * split; auto.
      * destruct Hnext as [Hd | Hvalid']; [discriminate|].
        specialize (IH indices' (Solutions ++ [solution]) true
                       (SolverScope_release (SolverScope_create cs) cs2)
                       Hvalid' (fun _ => Hpushed)).
        destruct (mergeLoop _ _ _ _ _ _) as [[[any' sols'] cs']|f]; [|exact IH].
        destruct IH as [IH1 IH2]. split; auto.
Qed.

Lemma mergePartialSolutions_in_bounds (PS : list (list Solution)) fuel Solutions cs :
  Forall (fun sols => sols <> []) PS ->
  match mergePartialSolutions fuel PS Solutions cs with
  | Stop f => f = OutOfFuel
  | Ok (anySolutions, Solutions', _) =>
      (anySolutions = true -> Solutions' <> [])
      /\ (Solutions <> [] -> Solutions' <> [])
  end.
Proof.
  intros Hne. unfold mergePartialSolutions.
  apply mergeLoop_in_bounds; [exact Hne | apply valid_zeros; exact Hne | discriminate].
Qed.

End MergeBounds.

(** ** Stores *)

Lemma extends_refl a store : extends a store store.
Proof. unfold extends. auto. Qed.

Lemma extends_trans a s1 s2 s3 :
  extends a s1 s2 -> extends a s2 s3 -> extends a s1 s3.
Proof.
  intros (Hl1 & Hf1 & Hn1) (Hl2 & Hf2 & Hn2). split; [lia|]. split; [|auto].
  intros p Hp Hpa. rewrite Hf2 by (try lia; exact Hpa). apply Hf1; assumption.
Qed.

Lemma vectorAt_app_l (store extra : Store) p :
  (p < length store)%nat -> vectorAt (store ++ extra) p = vectorAt store p.
Proof. intros Hp. unfold vectorAt. apply app_nth1. exact Hp. Qed.

Lemma vectorAt_insert_eq (store : Store) a sols :
  (a < length store)%nat -> vectorAt (<[a := sols]> store) a = sols.
Proof.
  intros Ha. unfold vectorAt. rewrite nth_lookup, list_lookup_insert_eq by exact Ha.
  reflexivity.
Qed.

Lemma vectorAt_insert_ne (store : Store) a p sols :
  p <> a -> vectorAt (<[a := sols]> store) p = vectorAt store p.
Proof.
  intros Hp. unfold vectorAt. rewrite !nth_lookup, list_lookup_insert_ne by congruence.
  reflexivity.
Qed.

Lemma vectorAt_push_back_eq (store : Store) a s :
  (a < length store)%nat ->
  vectorAt (push_back a s store) a = vectorAt store a ++ [s].
Proof.
  intros Ha. unfold vectorAt, push_back.
  rewrite !nth_lookup, list_lookup_alter_eq.
  destruct (lookup_lt_is_Some_2 store a Ha) as [sols Hsols].
  rewrite Hsols. reflexivity.
Qed.

Lemma vectorAt_push_back_ne (store : Store) a p s :
  p <> a -> vectorAt (push_back a s store) p = vectorAt store p.
Proof.
  intros Hp. unfold vectorAt, push_back.
  rewrite !nth_lookup, list_lookup_alter_ne by congruence. reflexivity.
Qed.

Lemma extends_insert (store : Store) a sols :
  (nonEmptyAt store a -> sols <> []) ->
  extends a store (<[a := sols]> store).
Proof.
  intros Hne. split; [rewrite length_insert; lia|]. split.
  - intros p _ Hp. apply vectorAt_insert_ne. exact Hp.
  - intros Hnon. unfold nonEmptyAt in *.
    destruct (Nat.lt_ge_cases a (length store)) as [Ha | Ha].
    + rewrite vectorAt_insert_eq by exact Ha. auto.
    + rewrite list_insert_ge by lia. exact Hnon.
Qed.

Lemma extends_push_back (store : Store) a s : extends a store (push_back a s store).
Proof.
  split; [unfold push_back; rewrite length_alter; lia|]. split.
  - intros p _ Hp. apply vectorAt_push_back_ne. exact Hp.
  - intros Hnon. unfold nonEmptyAt in *.
    assert (Ha : (a < length store)%nat).
    { destruct (Nat.lt_ge_cases a (length store)) as [Ha | Ha]; [exact Ha|].
      exfalso. apply Hnon. unfold vectorAt. apply nth_overflow. exact Ha. }
    rewrite vectorAt_push_back_eq by exact Ha.
    destruct (vectorAt store a); discriminate.
Qed.

Lemma extends_alloc (store : Store) a k :
  (a < length store)%nat -> extends a store (store ++ replicate k []).
Proof.
  intros Ha. split; [rewrite length_app; lia|]. split.
  - intros p Hp _. apply vectorAt_app_l. exact Hp.
  - unfold nonEmptyAt. rewrite vectorAt_app_l by exact Ha. auto.
Qed.

(** Work on a vector allocated after [s0] leaves the vectors of [s0]
    alone. *)
Lemma extends_child (a p : nat) (s0 s1 s2 : Store) :
  (a < length s0)%nat -> (length s0 <= p)%nat ->
  extends a s0 s1 -> extends p s1 s2 -> extends a s0 s2.
Proof.
  intros Ha Hp (Hl1 & Hf1 & Hn1) (Hl2 & Hf2 & _). split; [lia|]. split.
  - intros q Hq Hqa. rewrite Hf2 by lia. apply Hf1; assumption.
  - intros Hnon. unfold nonEmptyAt in *. rewrite Hf2 by lia. auto.
Qed.

(** ** What the steps hand to the driver *)

Lemma map_insert_same {A B} (f : A -> B) : forall (l : list A) i x y,
  l !! i = Some x -> f y = f x -> map f (<[i := y]> l) = map f l.
Proof.
  induction l as [|a l IH]; intros [|i] x y Hl Hf; simpl in *; try discriminate.
  - inversion Hl; subst. rewrite Hf. reflexivity.
  - rewrite (IH i x y Hl Hf). reflexivity.
Qed.

Lemma map_add_seq base : forall k start,
  map (fun i => (base + i)%nat) (seq start k) = seq (base + start) k.
Proof.
  induction k as [|k IH]; intros start; simpl; [reflexivity|].
  rewrite IH. replace (base + S start)%nat with (S (base + start)) by lia. reflexivity.
Qed.

Section StepShapes.
Context `{!Collaborators}.

Lemma recordNode_solutions cs typeVar step :
  CS_Solutions (recordNode cs typeVar step) = CS_Solutions step.
Proof.
  unfold recordNode.
  assert (Hfold : forall l s, CS_Solutions (fold_left recordConstraint l s) = CS_Solutions s).
  { induction l as [|k l IH]; intros s; simpl; [reflexivity|]. rewrite IH. reflexivity. }
  rewrite Hfold. reflexivity.
Qed.

Lemma mapIntoSteps_solutions cs : forall typeVars i components steps,
  match mapIntoSteps cs typeVars i components steps with
  | Ok steps' => map CS_Solutions steps' = map CS_Solutions steps
  | Stop f => f = ComponentOutOfBounds
  end.
Proof.
  induction typeVars as [|typeVar rest IH]; intros i components steps; simpl.
  - reflexivity.
  - destruct (components !! i) as [comp|]; [|reflexivity].
    destruct (steps !! comp) as [step|] eqn:Hstep; [|reflexivity].
    specialize (IH (S i) components (<[comp := recordNode cs typeVar step]> steps)).
    destruct (mapIntoSteps _ _ _ _ _) as [steps'|f]; [|exact IH].
    rewrite IH. apply (map_insert_same _ _ _ step); [exact Hstep|].
    apply recordNode_solutions.
Qed.

Lemma recordOrphans_solutions : forall orphans component steps,
  match recordOrphans orphans component steps with
  | Ok steps' => map CS_Solutions steps' = map CS_Solutions steps
  | Stop f => f = ComponentOutOfBounds
  end.
Proof.
  induction orphans as [|constraint rest IH]; intros component steps; simpl.
  - reflexivity.
  - destruct (steps !! component) as [step|] eqn:Hstep; [|reflexivity].
    specialize (IH (S component) (<[component := recordOrphan constraint step]> steps)).
    destruct (recordOrphans _ _ _) as [steps'|f]; [|exact IH].
    rewrite IH. apply (map_insert_same _ _ _ step); [exact Hstep | reflexivity].
Qed.

Lemma computeFollowupSteps_shape (s : SplitterStep) (store : Store) cs :
  match computeFollowupSteps s store cs with
  | Stop f => f = ComponentOutOfBounds
  | Ok (followup, s1, store1, _) =>
      SS_Solutions s1 = SS_Solutions s
      /\ suspendedOK (Splitter s1) followup store store1
  end.
Proof.
  unfold computeFollowupSteps.
  destruct (computeConnectedComponents _ _) as [[k typeVars] components].
  match goal with
  | |- context [mapIntoSteps ?c ?tvs ?i ?comps ?steps] =>
      pose proof (mapIntoSteps_solutions c tvs i comps steps) as Hmap;
      destruct (mapIntoSteps c tvs i comps steps) as [steps1|f]; [|exact Hmap]
  end.
  cbn [obind].
  match goal with
  | |- context [recordOrphans ?o ?c ?steps] =>
      pose proof (recordOrphans_solutions o c steps) as Horph;
      destruct (recordOrphans o c steps) as [steps2|f]; [|exact Horph]
  end.
  cbn [obind]. split; [reflexivity|].
  exists steps2, k. split; [reflexivity|]. split; [|split; reflexivity].
  rewrite Horph, Hmap, map_map. cbn [CS_Solutions ComponentStep_create].
  rewrite map_add_seq. rewrite Nat.add_0_r. reflexivity.
Qed.

Lemma TypeVariableStep_takeLoop_shape : forall pending t used saw cs,
  let '(r, t', _) := TypeVariableStep_takeLoop t pending used saw cs in
  TVS_Solutions t' = TVS_Solutions t
  /\ AnySolved t' = AnySolved t
  /\ match r with
     | Done b => b = AnySolved t
     | Suspended followup =>
         followup = [Splitter (SplitterStep_create (TVS_Solutions t))]
     end.
Proof.
  induction pending as [|[binding last] rest IH]; intros t used saw cs.
  - simpl. auto.
  - cbn [TypeVariableStep_takeLoop].
    destruct (AnySolved t && isDefaultable binding); [apply IH|].
    destruct (AnySolved t && (hasDefaultedProtocol binding && negb saw)).
    { simpl. auto. }
    destruct (attemptBinding binding _) as [ok cs2]. destruct ok.
    + simpl. auto.
    + apply IH.
Qed.

Lemma DisjunctionStep_takeLoop_shape : forall pending d cs,
  let '(r, d', _) := DisjunctionStep_takeLoop d pending cs in
  DS_Solutions d' = DS_Solutions d
  /\ LastSolvedChoice d' = LastSolvedChoice d
  /\ match r with
     | Done b => b = isSome (LastSolvedChoice d)
     | Suspended followup =>
         followup = [Splitter (SplitterStep_create (DS_Solutions d))]
     end.
Proof.
  induction pending as [|choice rest IH]; intros d cs.
  - simpl. auto.
  - cbn [DisjunctionStep_takeLoop].
    destruct (shouldSkipChoice d cs choice); [apply IH|].
    destruct (shouldShortCircuitAt d cs choice).
    { simpl. auto. }
    destruct (attemptChoice choice cs) as [ok cs1]. destruct ok; cbn [negb].
    + simpl. auto.
    + apply IH.
Qed.

End StepShapes.

(** A step that is done without success and has not touched the store. *)
Ltac done_without_solution :=
  cbn [advanceOK solutionsOf];
  split; [apply extends_refl|]; split; [reflexivity|];
  split; [discriminate | reflexivity].

Section AdvanceProperties.
Context `{!Collaborators}.

Lemma nonEmptyAt_lt (store : Store) a : nonEmptyAt store a -> (a < length store)%nat.
Proof.
  intros Hnon. destruct (Nat.lt_ge_cases a (length store)) as [Ha | Ha]; [exact Ha|].
  exfalso. apply Hnon. unfold vectorAt. apply nth_overflow. exact Ha.
Qed.

Lemma take_ok (step : SolverStep) prevFailed (store : Store) cs :
  stepOK step Setup prevFailed store ->
  advanceOK step Setup prevFailed store (take step prevFailed store cs).
Proof.
  intros [Ha Hres]. destruct step as [s | c | t | d]; cbn [take solutionsOf] in *.
  - unfold SplitterStep_take.
    pose proof (computeFollowupSteps_shape s store cs) as Hshape.
    destruct (computeFollowupSteps s store cs) as [[[[followup s1] store1] cs1]|f];
      cbn [obind advanceOK].
    + destruct Hshape as [Hsol Hsusp]. cbn [solutionsOf].
      pose proof Hsusp as (comps & k & _ & _ & _ & ->).
      split; [apply extends_alloc; exact Ha|]. split; [exact Hsol|].
      split; [exact Hsusp|]. intros [Hc _]. discriminate.
    + subst f. discriminate.
  - unfold ComponentStep_take. destruct prevFailed.
    { done_without_solution. }
    destruct (bindingsToAttempt _ _) as [bindings|].
    { cbn [advanceOK solutionsOf]. split; [apply extends_refl|]. split; [reflexivity|].
      split; [|intros (_ & _ & Hp); discriminate].
      left. eexists. split; [reflexivity|]. split; reflexivity. }
    destruct (selectDisjunction cs) as [dis|].
    { cbn [advanceOK solutionsOf]. split; [apply extends_refl|]. split; [reflexivity|].
      split; [|intros (_ & _ & Hp); discriminate].
      right. eexists. split; [reflexivity|]. split; reflexivity. }
    destruct (negb _ || negb _).
    { done_without_solution. }
    destruct (worseThanBestSolution cs).
    { done_without_solution. }
    destruct (forallb _ _).
    + destruct (finalize cs) as [solution cs1]. cbn [advanceOK solutionsOf].
      split; [apply extends_push_back|]. split; [reflexivity|]. split.
      * intros _. unfold nonEmptyAt. rewrite vectorAt_push_back_eq by exact Ha.
        destruct (vectorAt store (CS_Solutions c)); discriminate.
      * intros _ _ Hp. discriminate.
    + done_without_solution.
  - unfold TypeVariableStep_take.
    pose proof (TypeVariableStep_takeLoop_shape (pendingBindings (TVS_Producer t)) t
                  (batchUsedUp (TVS_Producer t)) (SawFirstLiteralConstraint t) cs)
      as Hshape.
    destruct (TypeVariableStep_takeLoop _ _ _ _ _) as [[r t1] cs1].
    destruct Hshape as (Hsol & Hany & Hr).
    cbn [advanceOK solutionsOf]. split; [apply extends_refl|]. split; [exact Hsol|].
    destruct r as [b | followup].
    + split; [|discriminate]. intros ->. apply Hres. left. congruence.
    + cbn [suspendedOK]. rewrite Hsol, Hany. split; [|intros [Hc _]; discriminate].
      split; [exact Hr|]. intros Hsolved. apply Hres. left. exact Hsolved.
  - unfold DisjunctionStep_take.
    pose proof (DisjunctionStep_takeLoop_shape (DS_Producer d) d cs) as Hshape.
    destruct (DisjunctionStep_takeLoop _ _ _) as [[r d1] cs1].
    destruct Hshape as (Hsol & Hlast & Hr).
    cbn [advanceOK solutionsOf]. split; [apply extends_refl|]. split; [exact Hsol|].
    destruct r as [b | followup].
    + split; [|discriminate]. intros ->. apply Hres. left.
      apply isSome_true. congruence.
    + cbn [suspendedOK]. rewrite Hsol, Hlast. split; [|intros [Hc _]; discriminate].
      split; [exact Hr|]. intros Hsolved. apply Hres. left. exact Hsolved.
Qed.

Lemma resume_ok fuel (step : SolverStep) prevFailed (store : Store) cs :
  stepOK step Resume prevFailed store ->
  advanceOK step Resume prevFailed store (resume fuel step prevFailed store cs).
Proof.
  intros [Ha Hres]. destruct step as [s | c | t | d]; cbn [resume solutionsOf] in *.
  - unfold SplitterStep_resume. destruct prevFailed.
    { cbn [obind advanceOK solutionsOf]. split; [apply extends_refl|].
      split; [reflexivity|]. split; [discriminate | discriminate]. }
    assert (Hne : Forall (fun sols => sols <> [])
                         (map (vectorAt store) (SS_PartialSolutions s))).
    { apply Forall_forall. intros sols Hin.
      apply list_elem_of_In, in_map_iff in Hin as (p & <- & Hp).
      specialize (Hres eq_refl). rewrite Forall_forall in Hres.
      apply Hres. apply list_elem_of_In. exact Hp. }
    pose proof (mergePartialSolutions_in_bounds _ fuel
                  (vectorAt store (SS_Solutions s)) cs Hne) as Hmerge.
    destruct (mergePartialSolutions _ _ _ _) as [[[any sols'] cs1]|f];
      cbn [obind advanceOK solutionsOf].
    + destruct Hmerge as [Hany Hmono].
      split; [apply extends_insert; exact Hmono|]. split; [reflexivity|].
      split; [|discriminate].
      intros ->. unfold nonEmptyAt. rewrite vectorAt_insert_eq by exact Ha. auto.
    + subst f. discriminate.
  - unfold ComponentStep_resume. destruct prevFailed.
    { cbn [advanceOK solutionsOf]. split; [apply extends_refl|].
      split; [reflexivity|]. split; [discriminate | discriminate]. }
    cbn [advanceOK solutionsOf].
    assert (Hkeep : nonEmptyAt store (CS_Solutions c) ->
                    filterSolutions
                      (map (normalizeScore c) (vectorAt store (CS_Solutions c))) true
                    <> []).
    { intros Hnon. apply filterSolutions_nonempty.
      unfold nonEmptyAt in Hnon. destruct (vectorAt store (CS_Solutions c));
        [congruence | discriminate]. }
    split; [apply extends_insert; exact Hkeep|]. split; [reflexivity|].
    split; [|discriminate].
    intros _. unfold nonEmptyAt. rewrite vectorAt_insert_eq by exact Ha.
    apply Hkeep. apply Hres. reflexivity.
  - unfold TypeVariableStep_resume.
    destruct (TVS_ActiveChoice t) as [scope|]; [|cbn; discriminate].
    cbn [TypeVariableStep_rewind AnySolved TVS_Producer].
    destruct ((AnySolved t || negb prevFailed) && needsToComputeNext (TVS_Producer t))
      eqn:Hstop.
    + cbn [obind advanceOK solutionsOf TVS_Solutions].
      split; [apply extends_refl|]. split; [reflexivity|]. split; [|discriminate].
      intros _. apply Hres.
      apply andb_true_iff in Hstop as [Hany _]. apply orb_true_iff in Hany.
      destruct Hany as [Hany | Hp]; [left; exact Hany|].
      right. apply negb_true_iff in Hp. exact Hp.
    + match goal with
      | |- context [TypeVariableStep_take ?t1 ?pf ?cs1] =>
          pose proof (TypeVariableStep_takeLoop_shape
                        (pendingBindings (TVS_Producer t1)) t1
                        (batchUsedUp (TVS_Producer t1))
                        (SawFirstLiteralConstraint t1) cs1) as Hshape;
          unfold TypeVariableStep_take;
          destruct (TypeVariableStep_takeLoop t1 (pendingBindings (TVS_Producer t1))
                      (batchUsedUp (TVS_Producer t1))
                      (SawFirstLiteralConstraint t1) cs1) as [[r t2] cs2]
      end.
      cbn [TVS_Solutions AnySolved] in Hshape. destruct Hshape as (Hsol & Hany & Hr).
      cbn [obind advanceOK solutionsOf].
      split; [apply extends_refl|]. split; [exact Hsol|].
      assert (Hsolved : AnySolved t || negb prevFailed = true ->
                        nonEmptyAt store (TVS_Solutions t)).
      { intros Hor. apply Hres. apply orb_true_iff in Hor.
        destruct Hor as [Hor | Hp]; [left; exact Hor|].
        right. apply negb_true_iff in Hp. exact Hp. }
      destruct r as [b | followup].
      * split; [|discriminate]. intros ->. apply Hsolved. congruence.
      * cbn [suspendedOK]. rewrite Hsol, Hany. split; [|intros [Hc _]; discriminate].
        split; [exact Hr | exact Hsolved].
  - unfold DisjunctionStep_resume.
    destruct (DS_ActiveChoice d) as [[scope choice]|]; [|cbn; discriminate].
    assert (Hd1 : match (if negb prevFailed
                         then match getBestScore (vectorAt store (DS_Solutions d)) with
                              | Some score => Ok (recordSolvedChoice d choice score)
                              | None => Stop NoBestScore
                              end
                         else Ok d) with
                  | Ok d1 => DS_Solutions d1 = DS_Solutions d
                             /\ (LastSolvedChoice d1 <> None ->
                                 nonEmptyAt store (DS_Solutions d))
                  | Stop f => f <> PartialSolutionOutOfBounds
                  end).
    { destruct prevFailed; cbn [negb].
      - split; [reflexivity|]. intros Hlast. apply Hres. left. exact Hlast.
      - destruct (getBestScore _); [|discriminate].
        split; [reflexivity|]. intros _. apply Hres. right. reflexivity. }
    destruct (if negb prevFailed then _ else _) as [d1|f];
      [|cbn [obind advanceOK]; exact Hd1].
    destruct Hd1 as [Hsol1 Hlast1].
    cbn [obind DisjunctionStep_rewind].
    match goal with
    | |- context [DisjunctionStep_take ?d2 ?pf ?cs1] =>
        pose proof (DisjunctionStep_takeLoop_shape (DS_Producer d2) d2 cs1) as Hshape;
        unfold DisjunctionStep_take;
        destruct (DisjunctionStep_takeLoop d2 (DS_Producer d2) cs1) as [[r d3] cs3]
    end.
    cbn [DS_Solutions LastSolvedChoice DS_update] in Hshape.
    destruct Hshape as (Hsol & Hlast & Hr).
    cbn [advanceOK solutionsOf].
    split; [apply extends_refl|]. split; [congruence|].
    destruct r as [b | followup].
    + split; [|discriminate]. intros ->. apply Hlast1.
      apply isSome_true. congruence.
    + cbn [suspendedOK]. rewrite Hsol, Hlast, Hsol1.
      split; [|intros [Hc _]; discriminate].
      split; [rewrite <- Hsol1; exact Hr | exact Hlast1].
Qed.

Lemma advance_ok fuel (step : SolverStep) phase prevFailed (store : Store) cs :
  stepOK step phase prevFailed store ->
  advanceOK step phase prevFailed store (advance fuel step phase prevFailed store cs).
Proof.
  intros Hok. destruct phase; cbn [advance].
  - destruct step as [s | c | t | d]; cbn [setup]; try (apply take_ok; exact Hok).
    unfold ComponentStep_setup.
    destruct (negb (IsSingleComponent c)); [|apply take_ok; exact Hok].
    destruct (ComponentScope_create c cs) as [scope cs1].
    exact (take_ok (Component (withComponentScope (Some scope) c)) prevFailed store cs1 Hok).
  - apply resume_ok. exact Hok.
Qed.

End AdvanceProperties.

(** ** Runs of the driver *)

Section RunProperties.
Context `{!Collaborators}.

Lemma run_unfold fuel step phase prevFailed (store : Store) cs :
  run (S fuel) step phase prevFailed store cs
  = let here := mkInvocation step phase prevFailed store cs in
    match advance fuel step phase prevFailed store cs with
    | Stop f => ([here], Stop f)
    | Ok (Done isSuccess, step1, store1, cs1) =>
        ([here], Ok (isSuccess, store1, finish step1 cs1))
    | Ok (Suspended followup, step1, store1, cs1) =>
        let '(tr1, r1) :=
          runFollowups (fun s pf st c => run fuel s Setup pf st c)
                       followup false store1 cs1 in
        match r1 with
        | Stop f => (here :: tr1, Stop f)
        | Ok (lastFailed, store2, cs2) =>
            let '(tr2, r2) := run fuel step1 Resume lastFailed store2 cs2 in
            (here :: tr1 ++ tr2, r2)
        end
    end.
Proof. reflexivity. Qed.

(** The followups of a splitter step: components on vectors of their own. *)
Lemma runFollowups_components fuel :
  runOK fuel ->
  forall comps finished prevFailed (store : Store) cs,
    Forall (fun c => (CS_Solutions c < length store)%nat) comps ->
    NoDup (finished ++ map CS_Solutions comps) ->
    (prevFailed = false -> Forall (nonEmptyAt store) finished) ->
    let run1 := runFollowups (fun s pf st c => run fuel s Setup pf st c)
                             (map Component comps) prevFailed store cs in
    Forall mergeReady (fst run1)
    /\ match snd run1 with
       | Stop f => f <> PartialSolutionOutOfBounds
       | Ok (lastFailed, store', _) =>
           (length store <= length store')%nat
           /\ (forall q, (q < length store)%nat ->
                         ~ In q (map CS_Solutions comps) ->
                         vectorAt store' q = vectorAt store q)
           /\ (lastFailed = false ->
               Forall (nonEmptyAt store') (finished ++ map CS_Solutions comps))
       end.
Proof.
  intros IH. induction comps as [|c comps IHc];
    intros finished prevFailed store cs Hlt Hnd Hfin.
  - cbn. split; [constructor|]. split; [lia|]. split; [reflexivity|].
    rewrite app_nil_r. exact Hfin.
  - cbn [map runFollowups].
    inversion Hlt as [|? ? Hc Hlt']; subst.
    destruct (IH (Component c) Setup prevFailed store cs) as [Htr Hout].
    { split; [exact Hc | cbn; discriminate]. }
    destruct (run fuel (Component c) Setup prevFailed store cs) as [tr r].
    cbn [fst snd] in Htr, Hout.
    destruct r as [[[isSuccess store1] cs1]|f]; [|cbn; split; assumption].
    cbn [outcomeOK solutionsOf isComponent] in Hout.
    destruct Hout as ((Hlen & Hframe & _) & Hsucc & Hfail).
    specialize (IHc (finished ++ [CS_Solutions c]) (negb isSuccess) store1 cs1).
    cbn [map] in Hnd.
    assert (Hnd' : NoDup ((finished ++ [CS_Solutions c]) ++ map CS_Solutions comps))
      by (rewrite <- app_assoc; exact Hnd).
    assert (Hfin' : negb isSuccess = false ->
                    Forall (nonEmptyAt store1) (finished ++ [CS_Solutions c])).
    { intros Hs. apply negb_false_iff in Hs.
      assert (Hpf : prevFailed = false).
      { destruct prevFailed; [|reflexivity].
        rewrite (Hfail eq_refl eq_refl eq_refl) in Hs. discriminate. }
      apply Forall_app. split; [|constructor; [exact (Hsucc Hs) | constructor]].
      specialize (Hfin Hpf). rewrite Forall_forall in Hfin |- *.
      intros q Hq. pose proof (Hfin q Hq) as Hnon.
      unfold nonEmptyAt. rewrite Hframe; [exact Hnon | exact (nonEmptyAt_lt _ _ Hnon) |].
      intros ->. apply NoDup_app in Hnd as (_ & Hdisj & _).
      apply (Hdisj _ Hq). left. }
    specialize (IHc ltac:(eapply Forall_impl; [exact Hlt'|]; cbn; intros; lia) Hnd' Hfin').
    cbv zeta in IHc.
    destruct (runFollowups _ (map Component comps) _ _ _) as [tr1 r1].
    cbn [fst snd] in IHc |- *. destruct IHc as [Htr1 Hout1].
    split; [apply Forall_app; split; assumption|].
    destruct r1 as [[[lastFailed store2] cs2]|f]; [|exact Hout1].
    destruct Hout1 as (Hlen1 & Hframe1 & Hall). split; [lia|]. split.
    + intros q Hq Hnotin. rewrite Hframe1; [apply Hframe; [exact Hq|] | lia |].
      * intros ->. apply Hnotin. left. reflexivity.
      * intros Hin. apply Hnotin. right. exact Hin.
    + intros Hlf. specialize (Hall Hlf). rewrite <- app_assoc in Hall. exact Hall.
Qed.

Lemma runFollowups_single fuel :
  runOK fuel ->
  forall child (store : Store) cs,
    stepOK child Setup false store ->
    let run1 := runFollowups (fun s pf st c => run fuel s Setup pf st c)
                             [child] false store cs in
    Forall mergeReady (fst run1)
    /\ match snd run1 with
       | Stop f => f <> PartialSolutionOutOfBounds
       | Ok (lastFailed, store', _) =>
           extends (solutionsOf child) store store'
           /\ (lastFailed = false -> nonEmptyAt store' (solutionsOf child))
       end.
Proof.
  intros IH child store cs Hok. cbn [runFollowups].
  destruct (IH child Setup false store cs Hok) as [Htr Hout].
  destruct (run fuel child Setup false store cs) as [tr r]. cbn [fst snd] in *.
  destruct r as [[[isSuccess store1] cs1]|f]; cbn [fst snd].
  - rewrite app_nil_r. split; [exact Htr|].
    destruct Hout as (Hext & Hsucc & _). split; [exact Hext|].
    intros Hs. apply negb_false_iff in Hs. exact (Hsucc Hs).
  - split; assumption.
Qed.

Lemma mergeReady_here step phase prevFailed (store : Store) cs :
  stepOK step phase prevFailed store ->
  mergeReady (mkInvocation step phase prevFailed store cs).
Proof.
  intros [_ Hres] s (Hs & Hp & Hf). cbn in Hs, Hp, Hf. subst.
  apply Hres. reflexivity.
Qed.

Lemma outcomeOK_resumed step step1 phase prevFailed lastFailed (store store2 : Store) r :
  extends (solutionsOf step) store store2 ->
  solutionsOf step1 = solutionsOf step ->
  ~ (isComponent step = true /\ phase = Setup /\ prevFailed = true) ->
  outcomeOK step1 Resume lastFailed store2 r ->
  outcomeOK step phase prevFailed store r.
Proof.
  intros Hext Hsol Hnot Hout. destruct r as [[[isSuccess store'] cs']|f]; [|exact Hout].
  cbn [outcomeOK] in *. rewrite Hsol in Hout. destruct Hout as (Hext' & Hsucc & _).
  split; [exact (extends_trans _ _ _ _ Hext Hext')|]. split; [exact Hsucc|].
  intros Hc Hp Hf. exfalso. apply Hnot. auto.
Qed.

Lemma extends_lt a (store store' : Store) :
  extends a store store' -> (a < length store)%nat -> (a < length store')%nat.
Proof. intros (Hl & _) Ha. lia. Qed.

(** Every call the driver makes into a step finds the step in the state
    [stepOK] describes, and every result is as [outcomeOK] describes. *)
Lemma run_ok : forall fuel, runOK fuel.
Proof.
  induction fuel as [|fuel IH]; intros step phase prevFailed store cs Hok.
  - cbn. split; [constructor | discriminate].
  - rewrite run_unfold. cbv zeta.
    pose proof (mergeReady_here _ _ _ _ cs Hok) as Hhere.
    pose proof (advance_ok fuel step phase prevFailed store cs Hok) as Hadv.
    destruct Hok as [Ha Hres].
    destruct (advance fuel step phase prevFailed store cs)
      as [[[[result step1] store1] cs1]|f]; cbn [advanceOK] in Hadv.
    2:{ cbn. split; [constructor; [exact Hhere | constructor] | exact Hadv]. }
    destruct Hadv as (Hext & Hsol & Hresult).
    destruct result as [isSuccess | followup].
    { cbn. split; [constructor; [exact Hhere | constructor]|].
      destruct Hresult as [Hsucc Hfail]. auto. }
    destruct Hresult as [Hsusp Hnot].
    pose proof (extends_lt _ _ _ Hext Ha) as Ha1.
    assert (Hfollow :
      let run1 := runFollowups (fun s pf st c => run fuel s Setup pf st c)
                               followup false store1 cs1 in
      Forall mergeReady (fst run1)
      /\ match snd run1 with
         | Stop f => f <> PartialSolutionOutOfBounds
         | Ok (lastFailed, store2, _) =>
             extends (solutionsOf step) store store2
             /\ stepOK step1 Resume lastFailed store2
         end).
    { destruct step1 as [s1 | c1 | t1 | d1]; cbn [suspendedOK solutionsOf] in Hsusp, Hsol.
      - destruct Hsusp as (comps & k & -> & Haddr & Hpart & ->).
        assert (Hlt : Forall (fun c => (CS_Solutions c < length (store ++ replicate k []))%nat)
                             comps).
        { apply Forall_forall. intros c Hc.
          assert (Hin : In (CS_Solutions c) (map CS_Solutions comps))
            by (apply in_map, list_elem_of_In; exact Hc).
          rewrite Haddr in Hin. apply in_seq in Hin.
          rewrite length_app, length_replicate. lia. }
        assert (Hnd : NoDup ([] ++ map CS_Solutions comps)).
        { cbn. rewrite Haddr. apply NoDup_ListNoDup, List.seq_NoDup. }
        pose proof (runFollowups_components fuel IH comps [] false
                      (store ++ replicate k []) cs1 Hlt Hnd (fun _ => List.Forall_nil _))
          as Hrun.
        cbv zeta in Hrun |- *.
        destruct (runFollowups _ (map Component comps) false _ cs1) as [tr1 r1].
        cbn [fst snd] in *. destruct Hrun as [Htr1 Hout1]. split; [exact Htr1|].
        destruct r1 as [[[lastFailed store2] cs2]|f]; [|exact Hout1].
        destruct Hout1 as (Hlen & Hframe & Hall).
        rewrite length_app, length_replicate in Hlen.
        assert (Habove : forall q, (q < length store)%nat ->
                                   vectorAt store2 q = vectorAt store q).
        { intros q Hq. rewrite Hframe.
          - apply vectorAt_app_l. exact Hq.
          - rewrite length_app. lia.
          - rewrite Haddr. intros Hin. apply in_seq in Hin. lia. }
        split.
        + split; [lia|]. split; [intros q Hq _; apply Habove; exact Hq|].
          unfold nonEmptyAt. rewrite Habove by exact Ha. auto.
        + split; [cbn [solutionsOf]; rewrite Hsol; lia|].
          cbn [resumable]. intros Hlf. specialize (Hall Hlf).
          cbn [app] in Hall. rewrite Hpart, <- Haddr. exact Hall.
      - assert (Hchild : exists child,
                   followup = [child] /\ solutionsOf child = CS_Solutions c1
                   /\ stepOK child Setup false store1).
        { destruct Hsusp as [(t & -> & Ht & Hany) | (d & -> & Hd & Hlast)].
          - exists (TypeVariable t). split; [reflexivity|]. split; [exact Ht|].
            split; [cbn [solutionsOf]; rewrite Ht, Hsol; exact Ha1|].
            cbn [resumable]. rewrite Hany. intros [Hc | Hc]; discriminate.
          - exists (Disjunction d). split; [reflexivity|]. split; [exact Hd|].
            split; [cbn [solutionsOf]; rewrite Hd, Hsol; exact Ha1|].
            cbn [resumable]. rewrite Hlast. intros [Hc | Hc]; [congruence | discriminate]. }
        destruct Hchild as (child & -> & Hcsol & Hcok).
        pose proof (runFollowups_single fuel IH child store1 cs1 Hcok) as Hrun.
        cbv zeta in Hrun |- *.
        destruct (runFollowups _ [child] false store1 cs1) as [tr1 r1].
        cbn [fst snd] in *. destruct Hrun as [Htr1 Hout1]. split; [exact Htr1|].
        destruct r1 as [[[lastFailed store2] cs2]|f]; [|exact Hout1].
        rewrite Hcsol, Hsol in Hout1. destruct Hout1 as [Hext2 Hnon].
        split; [exact (extends_trans _ _ _ _ Hext Hext2)|].
        split; [cbn [solutionsOf]; rewrite Hsol; exact (extends_lt _ _ _ Hext2 Ha1)|].
        cbn [resumable]. rewrite Hsol. exact Hnon.
      - destruct Hsusp as [-> Hany].
        assert (Hcok : stepOK (Splitter (SplitterStep_create (TVS_Solutions t1)))
                              Setup false store1).
        { split; [cbn; rewrite Hsol; exact Ha1 | cbn; discriminate]. }
        pose proof (runFollowups_single fuel IH _ store1 cs1 Hcok) as Hrun.
        cbv zeta in Hrun |- *.
        destruct (runFollowups _ [_] false store1 cs1) as [tr1 r1].
        cbn [fst snd] in *. destruct Hrun as [Htr1 Hout1]. split; [exact Htr1|].
        destruct r1 as [[[lastFailed store2] cs2]|f]; [|exact Hout1].
        cbn [solutionsOf SplitterStep_create SS_Solutions] in Hout1.
        rewrite Hsol in Hout1, Hany. destruct Hout1 as [Hext2 Hnon].
        split; [exact (extends_trans _ _ _ _ Hext Hext2)|].
        split; [cbn [solutionsOf]; rewrite Hsol; exact (extends_lt _ _ _ Hext2 Ha1)|].
        cbn [resumable]. rewrite Hsol. intros [Hs | Hlf]; [|exact (Hnon Hlf)].
        destruct Hext2 as (_ & _ & Hmono). exact (Hmono (Hany Hs)).
      - destruct Hsusp as [-> Hlast].
        assert (Hcok : stepOK (Splitter (SplitterStep_create (DS_Solutions d1)))
                              Setup false store1).
        { split; [cbn; rewrite Hsol; exact Ha1 | cbn; discriminate]. }
        pose proof (runFollowups_single fuel IH _ store1 cs1 Hcok) as Hrun.
        cbv zeta in Hrun |- *.
        destruct (runFollowups _ [_] false store1 cs1) as [tr1 r1].
        cbn [fst snd] in *. destruct Hrun as [Htr1 Hout1]. split; [exact Htr1|].
        destruct r1 as [[[lastFailed store2] cs2]|f]; [|exact Hout1].
        cbn [solutionsOf SplitterStep_create SS_Solutions] in Hout1.
        rewrite Hsol in Hout1, Hlast. destruct Hout1 as [Hext2 Hnon].
        split; [exact (extends_trans _ _ _ _ Hext Hext2)|].
        split; [cbn [solutionsOf]; rewrite Hsol; exact (extends_lt _ _ _ Hext2 Ha1)|].
        cbn [resumable]. rewrite Hsol. intros [Hs | Hlf]; [|exact (Hnon Hlf)].
        destruct Hext2 as (_ & _ & Hmono). exact (Hmono (Hlast Hs)). }
    cbv zeta in Hfollow.
    destruct (runFollowups _ followup false store1 cs1) as [tr1 r1].
    cbn [fst snd] in Hfollow. destruct Hfollow as [Htr1 Hout1].
    destruct r1 as [[[lastFailed store2] cs2]|f].
    2:{ cbn. split; [constructor; assumption | exact Hout1]. }
    destruct Hout1 as [Hext2 Hok2].
    destruct (IH step1 Resume lastFailed store2 cs2 Hok2) as [Htr2 Hout2].
    destruct (run fuel step1 Resume lastFailed store2 cs2) as [tr2 r2].
    cbn [fst snd] in *. split.
    + constructor; [exact Hhere|]. apply Forall_app. split; assumption.
    + exact (outcomeOK_resumed _ _ _ _ _ _ _ _ Hext2 Hsol Hnot Hout2).
Qed.

End RunProperties.

Section RunTheorems.
Context `{!Collaborators}.

(** C10. In every run of the solver, from a splitter step over the
    caller's vector: whenever the driver resumes a splitter step with
    [prevFailed = false], so that the step goes on to merge, the vector of
    partial solutions of each of its components is non-empty, and the
    merge, however long it is allowed to run, reads no partial solution out
    of bounds; the run as a whole never stops on such a read. *)
Theorem merge_reads_partial_solutions_in_bounds (fuel : nat)
    (solutions : list Solution) (cs : ConstraintSystem) :
  (forall inv s,
      In inv (fst (solve fuel solutions cs)) ->
      reachesMerge inv s ->
      Forall (nonEmptyAt (inv_store inv)) (SS_PartialSolutions s)
      /\ forall fuel',
           mergePartialSolutions fuel'
             (map (vectorAt (inv_store inv)) (SS_PartialSolutions s))
             (vectorAt (inv_store inv) (SS_Solutions s)) (inv_cs inv)
           <> Stop PartialSolutionOutOfBounds)
  /\ snd (solve fuel solutions cs) <> Stop PartialSolutionOutOfBounds.
Proof.
  unfold solve.
  assert (Hok : stepOK (Splitter (SplitterStep_create 0)) Setup false [solutions]).
  { split; [cbn; lia | cbn; discriminate]. }
  destruct (run_ok fuel _ _ _ _ cs Hok) as [Htr Hout].
  split.
  - intros inv s Hin Hreach.
    rewrite Forall_forall in Htr.
    pose proof (Htr inv (proj2 (list_elem_of_In _ _) Hin) s Hreach) as Hready.
    split; [exact Hready|].
    intros fuel' Hstop.
    assert (Hne : Forall (fun sols => sols <> [])
                         (map (vectorAt (inv_store inv)) (SS_PartialSolutions s))).
    { apply Forall_forall. intros sols Hsols.
      apply list_elem_of_In, in_map_iff in Hsols as (p & <- & Hp).
      rewrite Forall_forall in Hready. apply Hready. apply list_elem_of_In. exact Hp. }
    pose proof (mergePartialSolutions_in_bounds _ fuel'
                  (vectorAt (inv_store inv) (SS_Solutions s)) (inv_cs inv) Hne) as Hm.
    rewrite Hstop in Hm. discriminate.
  - destruct (snd (run fuel _ Setup false [solutions] cs)) as [[[b store'] cs']|f];
      [discriminate|].
    cbn [outcomeOK] in Hout. congruence.
Qed.

End RunTheorems.

Lemma merge_reads_partial_solutions_in_bounds_witness :
  exists inv s,
    In inv (fst (@solve exampleSolver 20 [] (exampleSystem [2%nat; 4%nat] [] true)))
    /\ reachesMerge inv s
    /\ SS_PartialSolutions s = [1%nat; 2%nat]
    /\ Forall (nonEmptyAt (inv_store inv)) (SS_PartialSolutions s).
Proof.
  pose proof (proj1 (@merge_reads_partial_solutions_in_bounds exampleSolver 20 []
                       (exampleSystem [2%nat; 4%nat] [] true))) as Hthm.
  assert (Hlast : exists inv,
             last (fst (@solve exampleSolver 20 []
                          (exampleSystem [2%nat; 4%nat] [] true))) = Some inv).
  { vm_compute. eexists. reflexivity. }
  destruct Hlast as [inv Hlast].
  assert (Hin : In inv (fst (@solve exampleSolver 20 []
                               (exampleSystem [2%nat; 4%nat] [] true)))).
  { apply list_elem_of_In. apply last_Some_elem_of. exact Hlast. }
  vm_compute in Hlast. inversion Hlast as [Hinv]. clear Hlast.
  eexists inv, _.
  split; [exact Hin|].
  assert (Hreach : reachesMerge inv (mkSplitterStep 0 [1%nat; 2%nat] [])).
  { rewrite <- Hinv. repeat split. }
  split; [exact Hreach|]. split; [reflexivity|].
  exact (proj1 (Hthm inv _ Hin Hreach)).
Defined.

(** C8, counterexample: after a solution has been found and before any
    binding with a defaulted protocol has been attempted, a binding that is
    defaultable and has a defaulted protocol does not stop the loop: it is
    passed over and the binding after it is attempted. *)
Lemma defaultable_literal_binding_is_passed_over :
  hasDefaultedProtocol defaultableLiteralBinding = true
  /\ AnySolved (sampleTypeVariableStep true
                  [(defaultableLiteralBinding, false); (plainBinding, true)] None)
     = true
  /\ SawFirstLiteralConstraint
       (sampleTypeVariableStep true
          [(defaultableLiteralBinding, false); (plainBinding, true)] None)
     = false
  /\ @TypeVariableStep_take exampleSolver
       (sampleTypeVariableStep true
          [(defaultableLiteralBinding, false); (plainBinding, true)] None)
       false (exampleSystem [1%nat] [] true)
     = (Suspended [Splitter (SplitterStep_create 0)],
        mkTypeVariableStep 1%nat (mkTVProducer true []) true false
          (Some (SolverScope_create (exampleSystem [1%nat] [] true))) 0,
        snd (@attemptBinding exampleSolver plainBinding
               (bumpNumTypeVariableBindings
                  (bumpNumTypeVariableBindings (exampleSystem [1%nat] [] true))))).
Proof. repeat split. Qed.

(** * Further properties of the steps *)

(** ** The merge: what it pushes, when it faults, how long it runs *)

Section MergeExtras.
Context `{!Collaborators}.

Lemma mergeLoop_pushes (PS : list (list Solution)) :
  forall fuel indices Solutions anySolutions cs anySolutions' Solutions' cs',
    mergeLoop fuel PS indices Solutions anySolutions cs
    = Ok (anySolutions', Solutions', cs') ->
    exists pushed,
      Solutions' = Solutions ++ pushed
      /\ (anySolutions' = true <-> anySolutions = true \/ pushed <> [])
      /\ (length pushed <= fuel)%nat.
Proof.
  induction fuel as [|fuel IH];
    intros indices Solutions anySolutions cs any' Solutions' cs' Hrun.
  - discriminate.
  - cbn [mergeLoop] in Hrun.
    destruct (applyPartialSolutions PS indices cs) as [cs1|f]; [|discriminate].
    cbn [obind] in Hrun. unfold saveComposed in Hrun.
    destruct (nextCombination PS (length PS) indices) as [indices' done].
    destruct (worseThanBestSolution cs1); cbn [negb] in Hrun.
    + destruct done.
      * inversion Hrun; subst. exists []. rewrite app_nil_r.
        split; [reflexivity|]. split; [|cbn; lia].
        split; [auto | intros [Ha | Hp]; [exact Ha | congruence]].
      * destruct (IH _ _ _ _ _ _ _ Hrun) as (pushed & Heq & Hany & Hlen).
        exists pushed. split; [exact Heq|]. split; [exact Hany | lia].
    + destruct (finalize cs1) as [solution cs2]. destruct done.
      * inversion Hrun; subst. exists [solution].
        split; [reflexivity|]. split; [|cbn; lia].
        split; [intros _; right; discriminate | reflexivity].
      * destruct (IH _ _ _ _ _ _ _ Hrun) as (pushed & Heq & Hany & Hlen).
        exists (solution :: pushed). rewrite Heq, <- app_assoc.
        split; [reflexivity|]. split; [|cbn; lia].
        split; [intros _; right; discriminate|].
        intros _. apply Hany. left. reflexivity.
Qed.

(** X1. When [mergePartialSolutions] returns, the vector [Solutions] has
    only grown at its back, and the result is [true] exactly when at least
    one solution was pushed. *)
Theorem merge_reports_pushed_solutions (fuel : nat) (PS : list (list Solution))
    (Solutions : list Solution) (cs : ConstraintSystem)
    (anySolutions : bool) (Solutions' : list Solution) (cs' : ConstraintSystem) :
  mergePartialSolutions fuel PS Solutions cs = Ok (anySolutions, Solutions', cs') ->
  exists pushed,
    Solutions' = Solutions ++ pushed
    /\ (anySolutions = true <-> pushed <> [])
    /\ (anySolutions = false <-> Solutions' = Solutions).
Proof.
  intros Hrun. unfold mergePartialSolutions in Hrun.
  destruct (mergeLoop_pushes _ _ _ _ _ _ _ _ _ Hrun) as (pushed & Heq & Hany & _).
  exists pushed. split; [exact Heq|].
  assert (Hiff : anySolutions = true <-> pushed <> []).
  { rewrite Hany. split; [intros [Hf | Hp]; [discriminate | exact Hp] | auto]. }
  split; [exact Hiff|].
  split.
  - intros Hfalse. destruct pushed as [|s pushed].
    + rewrite Heq, app_nil_r. reflexivity.
    + assert (anySolutions = true) by (apply Hiff; discriminate). congruence.
  - intros Hsame. destruct anySolutions; [|reflexivity].
    assert (Hp : pushed <> []) by (apply Hiff; reflexivity).
    exfalso. apply Hp. rewrite Heq in Hsame.
    apply (f_equal (@length Solution)) in Hsame. rewrite length_app in Hsame.
    destruct pushed; [reflexivity | cbn in Hsame; lia].
Qed.

Lemma applyPartialSolutions_empty : forall (PS : list (list Solution)) cs,
  In [] PS ->
  applyPartialSolutions PS (replicate (length PS) 0) cs
  = Stop PartialSolutionOutOfBounds.
Proof.
  induction PS as [|sols PS IH]; intros cs Hin; [destruct Hin|].
  cbn [length replicate applyPartialSolutions].
  destruct sols as [|s sols]; [reflexivity|].
  cbn. apply IH. destruct Hin as [Heq | Hin]; [discriminate | exact Hin].
Qed.

Lemma empty_component_dec (PS : list (list Solution)) :
  In [] PS \/ Forall (fun sols => sols <> []) PS.
Proof.
  induction PS as [|sols PS [Hin | Hall]].
  - right. constructor.
  - left. right. exact Hin.
  - destruct sols as [|s sols].
    + left. left. reflexivity.
    + right. constructor; [discriminate | exact Hall].
Qed.

(** X2. The merge reads a partial solution out of bounds exactly when the
    vector of some component is empty, and it then does so in its first
    iteration, before anything is pushed. *)
Theorem merge_out_of_bounds_iff_empty_component (PS : list (list Solution))
    (Solutions : list Solution) (cs : ConstraintSystem) :
  ((exists fuel,
       mergePartialSolutions fuel PS Solutions cs = Stop PartialSolutionOutOfBounds)
   <-> In [] PS)
  /\ (In [] PS ->
      forall fuel,
        mergePartialSolutions (S fuel) PS Solutions cs
        = Stop PartialSolutionOutOfBounds).
Proof.
  assert (Hfirst : In [] PS -> forall fuel,
                   mergePartialSolutions (S fuel) PS Solutions cs
                   = Stop PartialSolutionOutOfBounds).
  { intros Hin fuel. unfold mergePartialSolutions. cbn [mergeLoop].
    rewrite applyPartialSolutions_empty by exact Hin. reflexivity. }
  split; [|exact Hfirst]. split.
  - intros [fuel Hstop].
    destruct (empty_component_dec PS) as [Hin | Hall]; [exact Hin|].
    pose proof (mergePartialSolutions_in_bounds PS fuel Solutions cs Hall) as Hm.
    rewrite Hstop in Hm. discriminate.
  - intros Hin. exists 1%nat. apply Hfirst. exact Hin.
Qed.

Lemma mergeLoop_needs_fuel (PS : list (list Solution)) :
  Forall sizeOK (map length PS) ->
  PS <> [] ->
  forall d j Solutions anySolutions cs,
    (j + d < product (map length PS))%nat ->
    mergeLoop d PS (radixDigits (map length PS) j) Solutions anySolutions cs
    = Stop OutOfFuel.
Proof.
  intros Hsizes Hne.
  assert (Hpos : Forall (fun n => (0 < n)%nat) (map length PS)).
  { eapply Forall_impl; [exact Hsizes|]. intros n [Hn _]. exact Hn. }
  assert (Hne' : map length PS <> []) by (destruct PS; [congruence|discriminate]).
  induction d as [|d IH]; intros j Solutions anySolutions cs Hj; [reflexivity|].
  pose proof (nextCombination_digits PS (map length PS) [] j
                (eq_sym (app_nil_r _)) Hsizes Hne' ltac:(lia)) as [Hnext _].
  simpl length in Hnext. cbn [replicate] in Hnext. rewrite !app_nil_r in Hnext.
  rewrite length_map in Hnext. specialize (Hnext ltac:(lia)).
  cbn [mergeLoop].
  rewrite applyPartialSolutions_valid by (apply validCombination_digits; exact Hpos).
  cbn [obind].
  destruct (saveComposed _ _ _) as [[Solutions1 any1] cs2].
  rewrite Hnext. apply IH. lia.
Qed.

(** X3. For a split with at least one component and between 1 and
    2^32 - 1 partial solutions per component, the loop of the merge runs
    exactly as many iterations as there are combinations: with less fuel
    than that it has not returned yet, with that much it returns, and it
    has then pushed at most one solution per combination. *)
Theorem merge_runs_one_iteration_per_combination (PS : list (list Solution))
    (Solutions : list Solution) (cs : ConstraintSystem) :
  PS <> [] ->
  Forall (fun sols => (1 <= length sols)%nat /\ Z.of_nat (length sols) < 2 ^ 32) PS ->
  let combos := product (map length PS) in
  (forall fuel, (fuel < combos)%nat ->
                mergePartialSolutions fuel PS Solutions cs = Stop OutOfFuel)
  /\ exists anySolutions pushed cs',
       mergePartialSolutions combos PS Solutions cs
       = Ok (anySolutions, Solutions ++ pushed, cs')
       /\ (length pushed <= combos)%nat.
Proof.
  intros Hne Hall combos.
  assert (Hsizes : Forall sizeOK (map length PS)).
  { apply Forall_forall. intros n Hin.
    apply list_elem_of_In, in_map_iff in Hin as (sols & <- & Hin).
    rewrite Forall_forall in Hall. apply list_elem_of_In, Hall in Hin.
    unfold sizeOK. lia. }
  assert (Hpos : Forall (fun n => (0 < n)%nat) (map length PS)).
  { eapply Forall_impl; [exact Hsizes|]. intros n [Hn _]. exact Hn. }
  pose proof (product_pos _ Hpos) as HP. fold combos in HP.
  split.
  - intros fuel Hfuel. unfold mergePartialSolutions.
    rewrite <- (length_map length PS), <- radixDigits_zero.
    apply mergeLoop_needs_fuel; [exact Hsizes | exact Hne | fold combos; lia].
  - assert (Hrun : exists r, mergePartialSolutions combos PS Solutions cs = Ok r).
    { unfold mergePartialSolutions.
      destruct combos as [|d] eqn:Ed; [lia|].
      rewrite <- (length_map length PS), <- radixDigits_zero.
      eexists. apply mergeLoop_enumerates; [exact Hsizes | exact Hne |].
      fold combos. lia. }
    destruct Hrun as [[[any sols'] cs'] Hrun].
    pose proof Hrun as Hrun'. unfold mergePartialSolutions in Hrun'.
    destruct (mergeLoop_pushes _ _ _ _ _ _ _ _ _ Hrun') as (pushed & -> & _ & Hlen).
    exists any, pushed, cs'. split; [exact Hrun | exact Hlen].
Qed.

(** X4. A splitter step that has no component and is resumed after a
    success never returns: the loop of its merge has no way out. *)
Theorem SplitterStep_resume_without_components (fuel : nat) (s : SplitterStep)
    (store : Store) (cs : ConstraintSystem) :
  SS_PartialSolutions s = [] ->
  SplitterStep_resume fuel s false store cs = Stop OutOfFuel.
Proof.
  intros Hnone. unfold SplitterStep_resume, mergePartialSolutions.
  rewrite Hnone. cbn [map length replicate].
  rewrite mergeLoop_no_components. reflexivity.
Qed.

End MergeExtras.

(** ** The components of a split *)

Section FollowupExtras.
Context `{!Collaborators}.

Lemma recordConstraints_fields : forall l step,
  let step' := fold_left recordConstraint l step in
  sameComponent step step'
  /\ OrphanedConstraint step' = OrphanedConstraint step
  /\ TypeVars step' = TypeVars step
  /\ Constraints step' = Constraints step ++ l.
Proof.
  induction l as [|c l IH]; intros step; cbn [fold_left]; cbv zeta.
  - rewrite app_nil_r. repeat split.
  - destruct (IH (recordConstraint step c)) as ((Hi & Hs & Ha & Hc) & Ho & Htv & Hcons).
    unfold sameComponent. rewrite Hi, Hs, Ha, Hc, Ho, Htv, Hcons. cbn.
    rewrite <- app_assoc. repeat split.
Qed.

Lemma recordNode_fields cs typeVar step :
  let step' := recordNode cs typeVar step in
  sameComponent step step'
  /\ OrphanedConstraint step' = OrphanedConstraint step
  /\ TypeVars step' = TypeVars step ++ [typeVar]
  /\ Constraints step' = Constraints step ++ getConstraints cs typeVar.
Proof.
  unfold recordNode.
  destruct (recordConstraints_fields (getConstraints cs typeVar) (recordTypeVar typeVar step))
    as ((Hi & Hs & Ha & Hc) & Ho & Htv & Hcons).
  cbv zeta. unfold sameComponent. rewrite Hi, Hs, Ha, Hc, Ho, Htv, Hcons. repeat split.
Qed.

Lemma sameComponent_refl c : sameComponent c c.
Proof. repeat split. Qed.

Lemma sameComponent_trans a b c :
  sameComponent a b -> sameComponent b c -> sameComponent a c.
Proof.
  intros (H1 & H2 & H3 & H4) (H1' & H2' & H3' & H4').
  unfold sameComponent. rewrite H1', H2', H3', H4'. auto.
Qed.

Lemma assignedTo_nil j components : assignedTo j [] components = [].
Proof. reflexivity. Qed.

Lemma assignedTo_cons j typeVar typeVars comp components :
  assignedTo j (typeVar :: typeVars) (comp :: components)
  = if decide (comp = j) then typeVar :: assignedTo j typeVars components
    else assignedTo j typeVars components.
Proof.
  unfold assignedTo. cbn [zip zip_with]. rewrite filter_cons. cbn [snd].
  destruct (decide (comp = j)); reflexivity.
Qed.

Lemma mapIntoSteps_records cs : forall typeVars i components steps steps',
  mapIntoSteps cs typeVars i components steps = Ok steps' ->
  length steps' = length steps
  /\ forall j step, steps !! j = Some step ->
       exists step',
         steps' !! j = Some step'
         /\ sameComponent step step'
         /\ OrphanedConstraint step' = OrphanedConstraint step
         /\ TypeVars step' = TypeVars step ++ assignedTo j typeVars (drop i components)
         /\ Constraints step'
            = Constraints step
              ++ concat (map (getConstraints cs)
                             (assignedTo j typeVars (drop i components))).
Proof.
  induction typeVars as [|typeVar rest IH]; intros i components steps steps' Hrun.
  - cbn in Hrun. inversion Hrun; subst. split; [reflexivity|].
    intros j step Hj. exists step. rewrite assignedTo_nil. cbn.
    rewrite !app_nil_r. split; [exact Hj|]. split; [apply sameComponent_refl|].
    repeat split.
  - cbn [mapIntoSteps] in Hrun.
    destruct (components !! i) as [comp|] eqn:Hcomp; [|discriminate].
    destruct (steps !! comp) as [target|] eqn:Htarget; [|discriminate].
    apply IH in Hrun as [Hlen Hall]. rewrite length_insert in Hlen.
    split; [exact Hlen|].
    intros j step Hj.
    rewrite (drop_S _ _ _ Hcomp), assignedTo_cons.
    destruct (recordNode_fields cs typeVar target) as (Hsame & Ho & Htv & Hcons).
    destruct (decide (comp = j)) as [->|Hne].
    + assert (target = step) by congruence. subst target.
      destruct (Hall j (recordNode cs typeVar step)) as (step' & Hj' & Hs' & Ho' & Htv' & Hc').
      { apply list_lookup_insert_eq. apply lookup_lt_Some in Hj. exact Hj. }
      exists step'. split; [exact Hj'|].
      split; [eapply sameComponent_trans; eassumption|].
      split; [congruence|].
      split.
      * rewrite Htv', Htv, <- app_assoc. reflexivity.
      * rewrite Hc', Hcons, <- app_assoc. reflexivity.
    + destruct (Hall j step) as (step' & Hj' & Hrest).
      { rewrite list_lookup_insert_ne by exact Hne. exact Hj. }
      exists step'. split; [exact Hj' | exact Hrest].
Qed.

Lemma mapIntoSteps_succeeds cs : forall typeVars i components steps,
  (exists steps', mapIntoSteps cs typeVars i components steps = Ok steps')
  <-> (length typeVars <= length (drop i components))%nat
      /\ Forall (fun c => (c < length steps)%nat)
                (firstn (length typeVars) (drop i components)).
Proof.
  induction typeVars as [|typeVar rest IH]; intros i components steps.
  - cbn. split.
    + intros _. split; [lia | constructor].
    + intros _. eexists. reflexivity.
  - cbn [mapIntoSteps length].
    destruct (components !! i) as [comp|] eqn:Hcomp.
    + rewrite (drop_S _ _ _ Hcomp). cbn [length firstn].
      destruct (steps !! comp) as [target|] eqn:Htarget.
      * rewrite IH, length_insert. apply lookup_lt_Some in Htarget.
        split.
        -- intros [Hlen Hall]. split; [lia|]. constructor; assumption.
        -- intros [Hlen Hall]. inversion Hall; subst. split; [lia | assumption].
      * apply lookup_ge_None in Htarget. split.
        -- intros [steps' Habs]. discriminate.
        -- intros [_ Hall]. inversion Hall; subst. lia.
    + apply lookup_ge_None in Hcomp. rewrite drop_ge by exact Hcomp. cbn.
      split.
      * intros [steps' Habs]. discriminate.
      * intros [Hlen _]. lia.
Qed.

Lemma orphanOf_nil first j : orphanOf first [] j = None.
Proof. unfold orphanOf. destruct (first <=? j)%nat; reflexivity. Qed.

Lemma recordOrphans_records : forall orphans component steps steps',
  recordOrphans orphans component steps = Ok steps' ->
  length steps' = length steps
  /\ forall j step, steps !! j = Some step ->
       exists step',
         steps' !! j = Some step'
         /\ sameComponent step step'
         /\ TypeVars step' = TypeVars step
         /\ Constraints step' = Constraints step
         /\ OrphanedConstraint step'
            = match orphanOf component orphans j with
              | Some constraint => Some constraint
              | None => OrphanedConstraint step
              end.
Proof.
  induction orphans as [|constraint rest IH]; intros component steps steps' Hrun.
  - cbn in Hrun. inversion Hrun; subst. split; [reflexivity|].
    intros j step Hj. exists step. rewrite orphanOf_nil.
    split; [exact Hj|]. split; [apply sameComponent_refl|]. repeat split.
  - cbn [recordOrphans] in Hrun.
    destruct (steps !! component) as [target|] eqn:Htarget; [|discriminate].
    apply IH in Hrun as [Hlen Hall]. rewrite length_insert in Hlen.
    split; [exact Hlen|].
    intros j step Hj.
    destruct (decide (component = j)) as [->|Hne].
    + assert (target = step) by congruence. subst target.
      destruct (Hall j (recordOrphan constraint step))
        as (step' & Hj' & Hs' & Htv' & Hc' & Ho').
      { apply list_lookup_insert_eq. apply lookup_lt_Some in Hj. exact Hj. }
      exists step'. split; [exact Hj'|].
      split; [eapply sameComponent_trans; [|exact Hs']; repeat split|].
      split; [exact Htv'|]. split; [exact Hc'|].
      rewrite Ho'. unfold orphanOf.
      replace (S j <=? j)%nat with false by (symmetry; apply Nat.leb_gt; lia).
      rewrite Nat.leb_refl, Nat.sub_diag. reflexivity.
    + destruct (Hall j step) as (step' & Hj' & Hs' & Htv' & Hc' & Ho').
      { rewrite list_lookup_insert_ne by exact Hne. exact Hj. }
      exists step'. split; [exact Hj'|]. split; [exact Hs'|].
      split; [exact Htv'|]. split; [exact Hc'|].
      rewrite Ho'. unfold orphanOf.
      destruct (Nat.leb_spec component j) as [Hle|Hgt].
      * replace (S component <=? j)%nat with true by (symmetry; apply Nat.leb_le; lia).
        replace (j - component)%nat with (S (j - S component)) by lia.
        reflexivity.
      * replace (S component <=? j)%nat with false by (symmetry; apply Nat.leb_gt; lia).
        reflexivity.
Qed.

Lemma recordOrphans_succeeds : forall orphans component steps,
  (exists steps', recordOrphans orphans component steps = Ok steps')
  <-> orphans = [] \/ (component + length orphans <= length steps)%nat.
Proof.
  induction orphans as [|constraint rest IH]; intros component steps.
  - cbn. split; [intros _; left; reflexivity | intros _; eexists; reflexivity].
  - cbn [recordOrphans length].
    destruct (steps !! component) as [target|] eqn:Htarget.
    + rewrite IH, length_insert. apply lookup_lt_Some in Htarget.
      split.
      * intros [-> | Hle]; right; cbn; lia.
      * intros [Habs | Hle]; [discriminate|].
        destruct rest; [left; reflexivity | right; cbn in *; lia].
    + apply lookup_ge_None in Htarget. split.
      * intros [steps' Habs]. discriminate.
      * intros [Habs | Hle]; [discriminate | lia].
Qed.

Lemma computeFollowupSteps_inv (s : SplitterStep) (store : Store) cs
    followup s1 store1 cs1 :
  computeFollowupSteps s store cs = Ok (followup, s1, store1, cs1) ->
  let cs0 := optimize cs in
  let r := computeConnectedComponents cs0 (TypeVariables cs0) in
  let k := fst (fst r) in
  let first := Z.to_nat (wrap32 (Z.of_nat k - Z.of_nat (length (OrphanedConstraints cs0)))) in
  exists steps1 steps2,
    mapIntoSteps cs0 (snd (fst r)) 0 (snd r)
      (map (fun i => ComponentStep_create cs0 i (Nat.eqb k 1) (length store + i)%nat)
           (seq 0 k)) = Ok steps1
    /\ recordOrphans (OrphanedConstraints cs0) first steps1 = Ok steps2
    /\ followup = map Component steps2
    /\ s1 = mkSplitterStep (SS_Solutions s) (seq (length store) k) (OrphanedConstraints cs0)
    /\ store1 = store ++ replicate k []
    /\ cs1 = withOrphaned [] cs0.
Proof.
  cbv zeta. unfold computeFollowupSteps.
  destruct (computeConnectedComponents _ _) as [[k typeVars] components].
  cbn [fst snd].
  destruct (mapIntoSteps _ _ _ _ _) as [steps1|f]; [|discriminate].
  cbn [obind].
  destruct (recordOrphans _ _ _) as [steps2|f] eqn:Horph; [|discriminate].
  cbn [obind]. intros Hrun. inversion Hrun; subst.
  exists steps1, steps2. repeat split. exact Horph.
Qed.

Lemma created_lookup cs0 k base j c :
  map (fun i => ComponentStep_create cs0 i (Nat.eqb k 1) (base + i)%nat) (seq 0 k) !! j
  = Some c ->
  (j < k)%nat /\ c = ComponentStep_create cs0 j (Nat.eqb k 1) (base + j)%nat.
Proof.
  rewrite list_lookup_fmap. intros Hj.
  destruct (seq 0 k !! j) as [i|] eqn:Hi; [|discriminate].
  apply lookup_seq in Hi as [-> Hlt]. cbn in Hj. inversion Hj. split; [exact Hlt | reflexivity].
Qed.

Lemma followup_lookup (s : SplitterStep) (store : Store) cs comps s1 store1 cs1 :
  computeFollowupSteps s store cs = Ok (map Component comps, s1, store1, cs1) ->
  let cs0 := optimize cs in
  let r := computeConnectedComponents cs0 (TypeVariables cs0) in
  let k := fst (fst r) in
  let first := Z.to_nat (wrap32 (Z.of_nat k - Z.of_nat (length (OrphanedConstraints cs0)))) in
  length comps = k
  /\ forall j c, comps !! j = Some c ->
       (j < k)%nat
       /\ sameComponent (ComponentStep_create cs0 j (Nat.eqb k 1) (length store + j)%nat) c
       /\ TypeVars c = assignedTo j (snd (fst r)) (snd r)
       /\ Constraints c = concat (map (getConstraints cs0) (TypeVars c))
       /\ OrphanedConstraint c = orphanOf first (OrphanedConstraints cs0) j.
Proof.
  intros Hrun. cbv zeta.
  destruct (computeFollowupSteps_inv _ _ _ _ _ _ _ Hrun)
    as (steps1 & steps2 & Hmap & Horph & Hfollow & _).
  assert (comps = steps2) as ->.
  { clear -Hfollow. revert steps2 Hfollow.
    induction comps as [|c comps IH]; intros [|c2 steps2] Heq; try discriminate.
    - reflexivity.
    - cbn in Heq. inversion Heq. f_equal. apply IH. assumption. }
  apply mapIntoSteps_records in Hmap as [Hlen1 Hall1].
  apply recordOrphans_records in Horph as [Hlen2 Hall2].
  rewrite length_map, length_seq in Hlen1.
  split; [congruence|].
  intros j c Hj.
  assert (Hlt : (j < length steps2)%nat) by (apply lookup_lt_Some in Hj; exact Hj).
  match type of Hall1 with
  | forall j step, ?l !! j = Some step -> _ =>
      destruct (lookup_lt_is_Some_2 l j) as [c0 Hc0];
        [rewrite length_map, length_seq; lia|]
  end.
  destruct (created_lookup _ _ _ _ _ Hc0) as [Hjk ->].
  destruct (Hall1 _ _ Hc0) as (c1 & Hc1 & Hs1 & Ho1 & Htv1 & Hcons1).
  destruct (Hall2 _ _ Hc1) as (c2 & Hc2 & Hs2 & Htv2 & Hcons2 & Ho2).
  assert (c2 = c) by congruence. subst c2.
  split; [exact Hjk|].
  split; [eapply sameComponent_trans; eassumption|].
  cbn [ComponentStep_create TypeVars Constraints OrphanedConstraint] in *.
  cbn [app] in *. rewrite drop_0 in *.
  split; [congruence|]. split; [congruence|].
  rewrite Ho2, Ho1. destruct (orphanOf _ _ j); reflexivity.
Qed.

(** X5. The component steps of a split: [computeFollowupSteps] creates
    one step per connected component and one new, empty vector of partial
    solutions per step, at the end of the store; step [j] has index [j]
    and owns vector [j], which none of the existing vectors and none of
    its siblings shares; it is marked as the single component exactly when
    there is one component; the vectors that existed stay as they are. *)
Theorem computeFollowupSteps_allocates_components (s : SplitterStep) (store : Store)
    (cs : ConstraintSystem) (followup : list SolverStep) (s1 : SplitterStep)
    (store1 : Store) (cs1 : ConstraintSystem) :
  computeFollowupSteps s store cs = Ok (followup, s1, store1, cs1) ->
  let cs0 := optimize cs in
  let k := fst (fst (computeConnectedComponents cs0 (TypeVariables cs0))) in
  exists comps,
    followup = map Component comps
    /\ length comps = k
    /\ store1 = store ++ replicate k []
    /\ SS_Solutions s1 = SS_Solutions s
    /\ SS_PartialSolutions s1 = map CS_Solutions comps
    /\ NoDup (SS_PartialSolutions s1)
    /\ forall j c, comps !! j = Some c ->
         Index c = j
         /\ IsSingleComponent c = Nat.eqb k 1
         /\ CS_Solutions c = (length store + j)%nat
         /\ store !! CS_Solutions c = None
         /\ store1 !! CS_Solutions c = Some [].
Proof.
  intros Hrun. cbv zeta.
  destruct (computeFollowupSteps_inv _ _ _ _ _ _ _ Hrun)
    as (steps1 & steps2 & _ & _ & Hfollow & Hs1 & Hstore & _).
  subst followup. exists steps2.
  destruct (followup_lookup _ _ _ _ _ _ _ Hrun) as [Hlen Hall].
  cbv zeta in Hlen, Hall.
  set (k := fst (fst (computeConnectedComponents (optimize cs)
                        (TypeVariables (optimize cs))))) in *.
  assert (Hsols : map CS_Solutions steps2 = seq (length store) k).
  { apply list_eq. intros j. rewrite list_lookup_fmap.
    destruct (steps2 !! j) as [c|] eqn:Hj; cbn.
    - destruct (Hall _ _ Hj) as (Hjk & (_ & _ & Ha & _) & _).
      rewrite Ha. cbn. symmetry. apply lookup_seq. split; [reflexivity | exact Hjk].
    - symmetry. apply lookup_ge_None. rewrite length_seq.
      apply lookup_ge_None in Hj. lia. }
  split; [reflexivity|]. split; [exact Hlen|]. split; [exact Hstore|].
  subst s1. cbn [SS_Solutions SS_PartialSolutions].
  split; [reflexivity|]. split; [symmetry; exact Hsols|].
  split; [apply NoDup_ListNoDup, List.seq_NoDup|].
  intros j c Hj.
  destruct (Hall _ _ Hj) as (Hjk & (Hi & Hsingle & Ha & _) & _).
  cbn in Hi, Hsingle, Ha. rewrite Hi, Hsingle, Ha.
  split; [reflexivity|]. split; [reflexivity|]. split; [reflexivity|].
  split.
  - apply lookup_ge_None. lia.
  - subst store1. rewrite lookup_app_r by lia.
    apply lookup_replicate_2. lia.
Qed.

Lemma concat_insert_one {A} (F : nat -> list A) (a : A) (c : nat) : forall k n,
  (n <= c < n + k)%nat ->
  Permutation
    (concat (map (fun j => if decide (c = j) then a :: F j else F j) (seq n k)))
    (a :: concat (map F (seq n k))).
Proof.
  induction k as [|k IH]; intros n Hc; [lia|].
  cbn [seq map concat].
  destruct (decide (c = n)) as [->|Hne].
  - cbn [app]. apply Permutation_cons; [reflexivity|].
    apply Permutation_app_head.
    rewrite (map_ext_in _ F); [reflexivity|].
    intros j Hj. apply in_seq in Hj.
    destruct (decide (n = j)); [lia | reflexivity].
  - rewrite IH by lia. symmetry. apply Permutation_middle.
Qed.

Lemma assigned_partition : forall typeVars components k,
  (length typeVars <= length components)%nat ->
  Forall (fun c => (c < k)%nat) (firstn (length typeVars) components) ->
  Permutation (concat (map (fun j => assignedTo j typeVars components) (seq 0 k)))
              typeVars.
Proof.
  induction typeVars as [|typeVar rest IH]; intros components k Hlen Hall.
  - cbn [map]. induction (seq 0 k) as [|j l IHl]; [reflexivity | exact IHl].
  - destruct components as [|comp components]; [cbn in Hlen; lia|].
    cbn [length firstn] in Hlen, Hall. inversion Hall as [|? ? Hcomp Hrest]; subst.
    rewrite (map_ext _ (fun j => if decide (comp = j)
                                 then typeVar :: assignedTo j rest components
                                 else assignedTo j rest components))
      by (intros j; apply assignedTo_cons).
    rewrite (concat_insert_one (fun j => assignedTo j rest components)) by lia.
    apply Permutation_cons; [reflexivity|].
    apply IH; [lia | exact Hrest].
Qed.

(** X6. Every type variable goes to exactly one component: step [j] gets
    the type variables whose entry of [components] is [j], in their order,
    with the constraints of their nodes of the graph, node after node;
    taken together the steps hold the type variables that
    [computeConnectedComponents] handed back, each of them once. *)
Theorem computeFollowupSteps_distributes_type_variables (s : SplitterStep)
    (store : Store) (cs : ConstraintSystem) (comps : list ComponentStep)
    (s1 : SplitterStep) (store1 : Store) (cs1 : ConstraintSystem) :
  computeFollowupSteps s store cs = Ok (map Component comps, s1, store1, cs1) ->
  let cs0 := optimize cs in
  let r := computeConnectedComponents cs0 (TypeVariables cs0) in
  let typeVars := snd (fst r) in
  let components := snd r in
  (forall j c, comps !! j = Some c ->
     TypeVars c = assignedTo j typeVars components
     /\ Constraints c = concat (map (getConstraints cs0) (TypeVars c)))
  /\ Permutation (concat (map TypeVars comps)) typeVars.
Proof.
  intros Hrun. cbv zeta.
  destruct (followup_lookup _ _ _ _ _ _ _ Hrun) as [Hlen Hall].
  cbv zeta in Hlen, Hall.
  split.
  - intros j c Hj. destruct (Hall _ _ Hj) as (_ & _ & Htv & Hcons & _).
    split; assumption.
  - destruct (computeFollowupSteps_inv _ _ _ _ _ _ _ Hrun)
      as (steps1 & steps2 & Hmap & _).
    cbv zeta in Hmap.
    set (r := computeConnectedComponents (optimize cs) (TypeVariables (optimize cs))) in *.
    assert (Hok : exists steps', mapIntoSteps (optimize cs) (snd (fst r)) 0 (snd r)
              (map (fun i => ComponentStep_create (optimize cs) i (Nat.eqb (fst (fst r)) 1)
                                (length store + i)%nat) (seq 0 (fst (fst r)))) = Ok steps')
      by (eexists; exact Hmap).
    apply mapIntoSteps_succeeds in Hok as [Hle Hbound].
    rewrite drop_0 in Hle, Hbound. rewrite length_map, length_seq in Hbound.
    assert (Heq : map TypeVars comps
                  = map (fun j => assignedTo j (snd (fst r)) (snd r))
                        (seq 0 (fst (fst r)))).
    { apply list_eq. intros j. rewrite !list_lookup_fmap.
      destruct (comps !! j) as [c|] eqn:Hj; cbn.
      - destruct (Hall _ _ Hj) as (Hjk & _ & Htv & _).
        rewrite (proj2 (lookup_seq 0 (fst (fst r)) j j) (conj eq_refl Hjk)).
        cbn. rewrite Htv. reflexivity.
      - apply lookup_ge_None in Hj.
        rewrite (proj2 (lookup_ge_None (seq 0 (fst (fst r))) j));
          [reflexivity | rewrite length_seq; lia]. }
    rewrite Heq. apply assigned_partition; assumption.
Qed.

(** X7. The orphaned constraints go to the last components, one each and
    in their order, and the components before those get none; after the
    split the constraint system has no orphaned constraint left, the
    splitter step keeps them. [NumComponents] is an [unsigned], hence the
    bound. *)
Theorem computeFollowupSteps_places_orphans (s : SplitterStep) (store : Store)
    (cs : ConstraintSystem) (comps : list ComponentStep) (s1 : SplitterStep)
    (store1 : Store) (cs1 : ConstraintSystem) :
  computeFollowupSteps s store cs = Ok (map Component comps, s1, store1, cs1) ->
  Z.of_nat (length comps) < 2 ^ 32 ->
  let orphans := OrphanedConstraints (optimize cs) in
  (length orphans <= length comps)%nat
  /\ SS_OrphanedConstraints s1 = orphans
  /\ OrphanedConstraints cs1 = []
  /\ forall j c, comps !! j = Some c ->
       OrphanedConstraint c
       = if (length comps - length orphans <=? j)%nat
         then orphans !! (j - (length comps - length orphans))%nat
         else None.
Proof.
  intros Hrun Hk. cbv zeta.
  destruct (followup_lookup _ _ _ _ _ _ _ Hrun) as [Hlen Hall].
  destruct (computeFollowupSteps_inv _ _ _ _ _ _ _ Hrun)
    as (steps1 & steps2 & Hmap & Horph & _ & Hs1 & _ & Hcs1).
  cbv zeta in Hlen, Hall, Hmap, Horph.
  set (cs0 := optimize cs) in *.
  set (k := fst (fst (computeConnectedComponents cs0 (TypeVariables cs0)))) in *.
  set (orphans := OrphanedConstraints cs0) in *.
  apply mapIntoSteps_records in Hmap as [Hlen1 _].
  rewrite length_map, length_seq in Hlen1.
  assert (Hm : (length orphans <= k)%nat).
  { assert (Hok : exists steps',
        recordOrphans orphans
          (Z.to_nat (wrap32 (Z.of_nat k - Z.of_nat (length orphans)))) steps1 = Ok steps')
      by (eexists; exact Horph).
    apply recordOrphans_succeeds in Hok as [-> | Hle]; [cbn; lia | lia]. }
  assert (Hfirst : Z.to_nat (wrap32 (Z.of_nat k - Z.of_nat (length orphans)))
                   = (k - length orphans)%nat).
  { rewrite wrap32_small by lia. lia. }
  rewrite Hlen. split; [exact Hm|].
  subst s1 cs1. split; [reflexivity|]. split; [reflexivity|].
  intros j c Hj. destruct (Hall _ _ Hj) as (_ & _ & _ & _ & Ho).
  rewrite Ho, Hfirst. reflexivity.
Qed.

(** X8. [computeFollowupSteps] indexes its vector of component steps with
    the entries of [components] and with a counter for the orphaned
    constraints. All of these reads are within bounds exactly when
    [components] has an entry below [NumComponents] for every type variable
    and there are no more orphaned constraints than components; any other
    split reads a step that does not exist. *)
Theorem computeFollowupSteps_in_bounds_iff (s : SplitterStep) (store : Store)
    (cs : ConstraintSystem) :
  let cs0 := optimize cs in
  let r := computeConnectedComponents cs0 (TypeVariables cs0) in
  let k := fst (fst r) in
  let typeVars := snd (fst r) in
  let components := snd r in
  ((exists out, computeFollowupSteps s store cs = Ok out)
   <-> (length typeVars <= length components)%nat
       /\ Forall (fun c => (c < k)%nat) (firstn (length typeVars) components)
       /\ (length (OrphanedConstraints cs0) <= k)%nat)
  /\ (forall f, computeFollowupSteps s store cs = Stop f -> f = ComponentOutOfBounds).
Proof.
  cbv zeta. split.
  - split.
    + intros [[[[followup s1] store1] cs1] Hrun].
      destruct (computeFollowupSteps_inv _ _ _ _ _ _ _ Hrun)
        as (steps1 & steps2 & Hmap & Horph & _).
      cbv zeta in Hmap, Horph.
      assert (Hok1 : exists steps', mapIntoSteps (optimize cs) _ 0 _ _ = Ok steps')
        by (eexists; exact Hmap).
      apply mapIntoSteps_succeeds in Hok1 as [Hle Hbound].
      rewrite drop_0 in Hle, Hbound. rewrite length_map, length_seq in Hbound.
      apply mapIntoSteps_records in Hmap as [Hlen1 _].
      rewrite length_map, length_seq in Hlen1.
      assert (Hok2 : exists steps', recordOrphans _ _ steps1 = Ok steps')
        by (eexists; exact Horph).
      split; [exact Hle|]. split; [exact Hbound|].
      apply recordOrphans_succeeds in Hok2 as [Hnil | Hfit].
      * rewrite Hnil. cbn [length]. lia.
      * rewrite Hlen1 in Hfit. lia.
    + intros (Hle & Hbound & Hm).
      unfold computeFollowupSteps.
      destruct (computeConnectedComponents _ _) as [[k typeVars] components].
      cbn [fst snd] in *.
      match goal with
      | |- context [mapIntoSteps ?c ?tvs ?i ?comps ?steps] =>
          destruct (proj2 (mapIntoSteps_succeeds c tvs i comps steps)) as [steps1 Hmap]
      end.
      { rewrite drop_0, length_map, length_seq. split; assumption. }
      rewrite Hmap. cbn [obind].
      apply mapIntoSteps_records in Hmap as [Hlen1 _].
      rewrite length_map, length_seq in Hlen1.
      match goal with
      | |- context [recordOrphans ?o ?c ?steps] =>
          destruct (proj2 (recordOrphans_succeeds o c steps)) as [steps2 Horph]
      end.
      { right. rewrite Hlen1.
        assert (Hnonneg : 0 <= Z.of_nat k
                           - Z.of_nat (length (OrphanedConstraints (optimize cs)))).
        { lia. }
        pose proof (Z.mod_le _ (2 ^ 32) Hnonneg ltac:(lia)) as Hmod.
        unfold wrap32. lia. }
      rewrite Horph. cbn [obind]. eexists. reflexivity.
  - intros f Hstop.
    pose proof (computeFollowupSteps_shape s store cs) as Hshape.
    rewrite Hstop in Hshape. exact Hshape.
Qed.

End FollowupExtras.

(** ** A component and the steps below it *)

Section StepExtras.
Context `{!Collaborators}.


(** X10. What [ComponentStep::take] can do. It is Done(true) only when it
    was not taken after a failure, there is neither a type variable to
    bind nor a disjunction, free type variables are allowed and present,
    the score is not worse than the best one and every inactive constraint
    is relational or a member constraint; it has then pushed the finalized
    solution, and nothing else, to its own vector. In every other case the
    vectors and the constraint system are left as they were; when it
    suspends, it hands over one type variable step or one disjunction step
    that writes to the vector of the component. *)
Theorem ComponentStep_take_outcomes (c : ComponentStep) (prevFailed : bool)
    (store : Store) (cs : ConstraintSystem) :
  let r := fst (fst (ComponentStep_take c prevFailed store cs)) in
  let store' := snd (fst (ComponentStep_take c prevFailed store cs)) in
  let cs' := snd (ComponentStep_take c prevFailed store cs) in
  match r with
  | Done true =>
      prevFailed = false
      /\ bindingsToAttempt (determineBestBindings cs) (selectDisjunction cs) = None
      /\ selectDisjunction cs = None
      /\ allowsFreeTypeVariables (solverState cs) = true
      /\ hasFreeTypeVariables cs = true
      /\ worseThanBestSolution cs = false
      /\ forallb ignorableWithFreeVariables (InactiveConstraints cs) = true
      /\ store' = push_back (CS_Solutions c) (fst (finalize cs)) store
      /\ cs' = snd (finalize cs)
  | Done false => store' = store /\ cs' = cs
  | Suspended followup =>
      prevFailed = false /\ store' = store /\ cs' = cs
      /\ exists step,
           followup = [step]
           /\ solutionsOf step = CS_Solutions c
           /\ match step with
              | TypeVariable t =>
                  exists bindings,
                    bindingsToAttempt (determineBestBindings cs) (selectDisjunction cs)
                    = Some bindings
                    /\ t = TypeVariableStep_create cs bindings (CS_Solutions c)
              | Disjunction d =>
                  exists disjunction,
                    selectDisjunction cs = Some disjunction
                    /\ d = DisjunctionStep_create cs disjunction (CS_Solutions c)
              | _ => False
              end
  end.
Proof.
  cbv zeta. unfold ComponentStep_take.
  destruct prevFailed; [cbn; split; reflexivity|].
  destruct (bindingsToAttempt _ _) as [bindings|] eqn:Hbind.
  - cbn. repeat split. eexists. split; [reflexivity|]. split; [reflexivity|].
    exists bindings. split; reflexivity.
  - destruct (selectDisjunction cs) as [disjunction|] eqn:Hdis.
    + cbn. repeat split. eexists. split; [reflexivity|]. split; [reflexivity|].
      exists disjunction. split; reflexivity.
    + destruct (allowsFreeTypeVariables (solverState cs)); cbn [negb orb];
        [|cbn; split; reflexivity].
      destruct (hasFreeTypeVariables cs); cbn [negb]; [|cbn; split; reflexivity].
      destruct (worseThanBestSolution cs); [cbn; split; reflexivity|].
      destruct (forallb _ _); [|cbn; split; reflexivity].
      destruct (finalize cs) as [solution cs1]. cbn. repeat split.
Qed.

Lemma DisjunctionStep_takeLoop_attempts : forall pending d cs,
  let out := DisjunctionStep_takeLoop d pending cs in
  let r := fst (fst out) in
  let d' := snd (fst out) in
  let cs' := snd out in
  BestNonGenericScore d' = BestNonGenericScore d
  /\ exists consumed,
       pending = consumed ++ DS_Producer d'
       /\ match r with
          | Done _ => True
          | Suspended _ =>
              exists before choice csA,
                consumed = before ++ [choice]
                /\ DS_ActiveChoice d' = Some (SolverScope_create csA, choice)
                /\ tracked csA = tracked cs
                /\ shouldSkipChoice d csA choice = false
                /\ shouldShortCircuitAt d csA choice = false
                /\ attemptChoice choice csA = (true, cs')
          end.
Proof.
  induction pending as [|current rest IH]; intros d cs; cbv zeta.
  - cbn. split; [reflexivity|]. exists []. split; [reflexivity | exact I].
  - cbn [DisjunctionStep_takeLoop].
    destruct (shouldSkipChoice d cs current) eqn:Hskip.
    { destruct (IH d cs) as (Hbest & consumed & Hpend & Hres). cbv zeta in *.
      split; [exact Hbest|]. exists (current :: consumed).
      split; [cbn; f_equal; exact Hpend|].
      destruct (fst (fst (DisjunctionStep_takeLoop d rest cs))); [exact I|].
      destruct Hres as (before & choice & csA & -> & Hrest).
      exists (current :: before), choice, csA. split; [reflexivity | exact Hrest]. }
    destruct (shouldShortCircuitAt d cs current) eqn:Hshort.
    { cbn. split; [reflexivity|]. exists [current]. split; [reflexivity | exact I]. }
    destruct (attemptChoice current cs) as [ok cs1] eqn:Hattempt.
    destruct ok; cbn [negb].
    + cbn. split; [reflexivity|]. exists [current]. split; [reflexivity|].
      exists [], current, cs. repeat split; assumption.
    + destruct (IH d (SolverScope_release (SolverScope_create cs) cs1))
        as (Hbest & consumed & Hpend & Hres). cbv zeta in *.
      split; [exact Hbest|]. exists (current :: consumed).
      split; [cbn; f_equal; exact Hpend|].
      destruct (fst (fst (DisjunctionStep_takeLoop d rest _))); [exact I|].
      destruct Hres as (before & choice & csA & -> & Hactive & Htracked & Hrest).
      exists (current :: before), choice, csA.
      split; [reflexivity|]. split; [exact Hactive|].
      split; [rewrite Htracked; apply tracked_release | exact Hrest].
Qed.

(** X11. [DisjunctionStep::take] goes through the choices of the producer
    in order and leaves the ones it has not reached in the producer. The
    choice it suspends on is the last one it took out; that choice is not
    disabled, passed [shouldSkipChoice] and [shouldShortCircuitAt], and its
    attempt succeeded on a system whose type variables, constraints and
    bindings are those [take] started with: the attempts that failed
    before it have been rewound. *)
Theorem DisjunctionStep_take_attempts_in_order (d : DisjunctionStep)
    (prevFailed : bool) (cs : ConstraintSystem) (followup : list SolverStep)
    (d' : DisjunctionStep) (cs' : ConstraintSystem) :
  DisjunctionStep_take d prevFailed cs = (Suspended followup, d', cs') ->
  exists before choice csA,
    DS_Producer d = before ++ choice :: DS_Producer d'
    /\ DS_ActiveChoice d' = Some (SolverScope_create csA, choice)
    /\ choiceIsDisabled choice = false
    /\ tracked csA = tracked cs
    /\ shouldSkipChoice d csA choice = false
    /\ shouldShortCircuitAt d csA choice = false
    /\ attemptChoice choice csA = (true, cs').
Proof.
  intros Htake. unfold DisjunctionStep_take in Htake.
  destruct (DisjunctionStep_takeLoop_attempts (DS_Producer d) d cs)
    as (_ & consumed & Hpend & Hres).
  cbv zeta in Hpend, Hres. rewrite Htake in Hpend, Hres. cbn [fst snd] in Hpend, Hres.
  destruct Hres as (before & choice & csA & -> & Hactive & Htracked & Hskip & Hshort & Hatt).
  exists before, choice, csA.
  split; [rewrite Hpend, <- app_assoc; reflexivity|].
  split; [exact Hactive|].
  split.
  - unfold shouldSkipChoice in Hskip.
    destruct (choiceIsDisabled choice); [discriminate | reflexivity].
  - repeat split; assumption.
Qed.

Lemma DisjunctionStep_takeLoop_result : forall pending d cs,
  let out := DisjunctionStep_takeLoop d pending cs in
  LastSolvedChoice (snd (fst out)) = LastSolvedChoice d
  /\ (forall b, fst (fst out) = Done b -> b = isSome (LastSolvedChoice d))
  /\ (fst (fst out) = Done false -> DS_Producer (snd (fst out)) = []).
Proof.
  induction pending as [|current rest IH]; intros d cs; cbv zeta.
  - cbn. split; [reflexivity|]. split; [|reflexivity].
    intros b Hb. inversion Hb. reflexivity.
  - cbn [DisjunctionStep_takeLoop].
    destruct (shouldSkipChoice d cs current); [apply IH|].
    destruct (shouldShortCircuitAt d cs current) eqn:Hshort.
    { cbn. split; [reflexivity|].
      unfold shouldShortCircuitAt in Hshort.
      destruct (LastSolvedChoice d) as [[lastChoice lastScore]|]; [|discriminate].
      split; [|cbn; discriminate].
      intros b Hb. inversion Hb. reflexivity. }
    destruct (attemptChoice current cs) as [ok cs1]. destruct ok; cbn [negb].
    + cbn. split; [reflexivity|]. split; [|discriminate]. intros b Hb. discriminate.
    + apply IH.
Qed.

(** X12. A disjunction step is Done(false) exactly when it is done and no
    choice of it has been solved, and it has then gone through all of its
    choices; a solved choice, once recorded, stays recorded, so that a
    disjunction step resumed after a success never ends in Done(false). *)
Theorem DisjunctionStep_fails_only_unsolved :
  (forall d prevFailed cs r d' cs',
      DisjunctionStep_take d prevFailed cs = (r, d', cs') ->
      LastSolvedChoice d' = LastSolvedChoice d
      /\ (r = Done false <-> (exists b, r = Done b) /\ LastSolvedChoice d = None)
      /\ (r = Done false -> DS_Producer d' = []))
  /\ (forall d prevFailed store cs r d' cs',
      DisjunctionStep_resume d prevFailed store cs = Ok (r, d', cs') ->
      (prevFailed = true -> LastSolvedChoice d' = LastSolvedChoice d)
      /\ (prevFailed = false -> LastSolvedChoice d' <> None)
      /\ (r = Done false
          <-> (exists b, r = Done b) /\ LastSolvedChoice d = None /\ prevFailed = true)
      /\ (r = Done false -> DS_Producer d' = [])).
Proof.
  assert (Htake : forall d prevFailed cs r d' cs',
      DisjunctionStep_take d prevFailed cs = (r, d', cs') ->
      LastSolvedChoice d' = LastSolvedChoice d
      /\ (r = Done false <-> (exists b, r = Done b) /\ LastSolvedChoice d = None)
      /\ (r = Done false -> DS_Producer d' = [])).
  { intros d prevFailed cs r d' cs' Htake. unfold DisjunctionStep_take in Htake.
    pose proof (DisjunctionStep_takeLoop_result (DS_Producer d) d cs) as Hres.
    cbv zeta in Hres. rewrite Htake in Hres. cbn [fst snd] in Hres.
    destruct Hres as (Hlast & Hdone & Hexh).
    split; [exact Hlast|]. split; [|exact Hexh].
    split.
    - intros ->. split; [eexists; reflexivity|].
      apply isSome_false. symmetry. apply Hdone. reflexivity.
    - intros [[b ->] Hnone]. rewrite (Hdone b eq_refl), Hnone. reflexivity. }
  split; [exact Htake|].
  intros d prevFailed store cs r d' cs' Hres.
  unfold DisjunctionStep_resume in Hres.
  destruct (DS_ActiveChoice d) as [[scope choice]|]; [|discriminate].
  destruct prevFailed; cbn [negb obind] in Hres.
  - unfold DisjunctionStep_rewind in Hres. inversion Hres as [Hrun]. clear Hres.
    apply Htake in Hrun as (Hlast & Hdone & Hexh).
    cbn [DS_update LastSolvedChoice] in Hlast, Hdone.
    split; [intros _; exact Hlast|]. split; [discriminate|].
    split; [|exact Hexh].
    rewrite Hdone. split; [intros [Hb Hn]; auto | intros (Hb & Hn & _); auto].
  - destruct (getBestScore _) as [score|]; [|discriminate].
    cbn [obind] in Hres. unfold DisjunctionStep_rewind in Hres.
    inversion Hres as [Hrun]. clear Hres.
    apply Htake in Hrun as (Hlast & Hdone & Hexh).
    cbn [DS_update recordSolvedChoice LastSolvedChoice] in Hlast, Hdone.
    split; [discriminate|]. split; [intros _; rewrite Hlast; discriminate|].
    split; [|exact Hexh].
    rewrite Hdone. split; [intros [_ Hn]; discriminate | intros (_ & _ & Hf); discriminate].
Qed.

Lemma score_ltb_asym x y : score_ltb x y = true -> score_ltb y x = false.
Proof.
  unfold score_ltb. intros Hxy.
  destruct (data_ltb (Data y) (Data x)) eqn:Hyx; [|reflexivity].
  pose proof (data_ltb_trans _ _ _ Hxy Hyx) as Hxx.
  rewrite data_ltb_irrefl in Hxx. discriminate.
Qed.

(** X13. The best score of the non-generic choices never gets worse.
    Resuming a disjunction step changes [BestNonGenericScore] only after a
    success of a choice that is not a generic operator and is a symmetric
    operator; the new value is then the best score of the solutions when
    none was recorded or that score is below the recorded one, and the
    recorded one otherwise. *)
Theorem BestNonGenericScore_never_gets_worse (d : DisjunctionStep)
    (scope : SolverScope) (choice : DisjunctionChoice) (prevFailed : bool)
    (store : Store) (cs : ConstraintSystem) (r : StepResult)
    (d' : DisjunctionStep) (cs' : ConstraintSystem) :
  DS_ActiveChoice d = Some (scope, choice) ->
  DisjunctionStep_resume d prevFailed store cs = Ok (r, d', cs') ->
  (forall best, BestNonGenericScore d = Some best ->
     exists best', BestNonGenericScore d' = Some best' /\ score_ltb best best' = false)
  /\ (prevFailed = true \/ isGenericOperator choice = true
      \/ isSymmetricOperator choice = false ->
      BestNonGenericScore d' = BestNonGenericScore d)
  /\ (prevFailed = false -> isGenericOperator choice = false ->
      isSymmetricOperator choice = true ->
      exists score best',
        getBestScore (vectorAt store (DS_Solutions d)) = Some score
        /\ BestNonGenericScore d' = Some best'
        /\ score_ltb score best' = false
        /\ (best' = score \/ BestNonGenericScore d = Some best')).
Proof.
  intros Hactive Hres. unfold DisjunctionStep_resume in Hres. rewrite Hactive in Hres.
  assert (Hkeep : forall d1 producer cs1,
            BestNonGenericScore
              (snd (fst (DisjunctionStep_take (DS_update d1 producer None)
                                              prevFailed cs1)))
            = BestNonGenericScore d1).
  { intros d1 producer cs1. unfold DisjunctionStep_take.
    destruct (DisjunctionStep_takeLoop_attempts
                (DS_Producer (DS_update d1 producer None))
                (DS_update d1 producer None) cs1) as [Hbest _].
    exact Hbest. }
  destruct prevFailed; cbn [negb obind] in Hres.
  - unfold DisjunctionStep_rewind in Hres. inversion Hres as [Hrun]. clear Hres.
    pose proof (Hkeep d (DS_Producer d) (SolverScope_release scope cs)) as Hbest.
    rewrite Hrun in Hbest. cbn [fst snd] in Hbest.
    split; [|split].
    + intros best Hb. exists best. rewrite Hbest. split; [exact Hb|].
      apply data_ltb_irrefl.
    + intros _. exact Hbest.
    + discriminate.
  - destruct (getBestScore _) as [score|] eqn:Hscore; [|discriminate].
    cbn [obind] in Hres. unfold DisjunctionStep_rewind in Hres.
    inversion Hres as [Hrun]. clear Hres.
    cbn [recordSolvedChoice DS_Producer] in Hrun.
    pose proof (Hkeep (recordSolvedChoice d choice score) (DS_Producer d)
                      (SolverScope_release scope cs)) as Hbest.
    cbn [recordSolvedChoice DS_Producer] in Hbest.
    rewrite Hrun in Hbest. cbn [fst snd] in Hbest.
    cbn [recordSolvedChoice BestNonGenericScore] in Hbest.
    destruct (isGenericOperator choice), (isSymmetricOperator choice);
      cbn [negb andb] in Hbest.
    + split; [|split]; [|intros _; exact Hbest | discriminate].
      intros best Hb. exists best. rewrite Hbest. split; [exact Hb | apply data_ltb_irrefl].
    + split; [|split]; [|intros _; exact Hbest | discriminate].
      intros best Hb. exists best. rewrite Hbest. split; [exact Hb | apply data_ltb_irrefl].
    + destruct (BestNonGenericScore d) as [best|] eqn:Hold;
        cbn [isSome negb orb optScore_ltb] in Hbest.
      * destruct (score_ltb score best) eqn:Hlt.
        -- split; [|split].
           ++ intros b Hb. inversion Hb; subst b. exists score.
              split; [exact Hbest | apply score_ltb_asym; exact Hlt].
           ++ intros [Hf | [Hf | Hf]]; discriminate.
           ++ intros _ _ _. exists score, score.
              split; [reflexivity|]. split; [exact Hbest|].
              split; [apply data_ltb_irrefl | left; reflexivity].
        -- split; [|split].
           ++ intros b Hb. inversion Hb; subst b. exists best.
              split; [exact Hbest | apply data_ltb_irrefl].
           ++ intros [Hf | [Hf | Hf]]; discriminate.
           ++ intros _ _ _. exists score, best.
              split; [reflexivity|]. split; [exact Hbest|].
              split; [exact Hlt | right; reflexivity].
      * split; [|split].
        -- discriminate.
        -- intros [Hf | [Hf | Hf]]; discriminate.
        -- intros _ _ _. exists score, score.
           split; [reflexivity|]. split; [exact Hbest|].
           split; [apply data_ltb_irrefl | left; reflexivity].
    + split; [|split]; [|intros _; exact Hbest | discriminate].
      intros best Hb. exists best. rewrite Hbest. split; [exact Hb | apply data_ltb_irrefl].
Qed.

Lemma TypeVariableStep_takeLoop_attempts : forall pending t used saw cs,
  let out := TypeVariableStep_takeLoop t pending used saw cs in
  let r := fst (fst out) in
  let t' := snd (fst out) in
  let cs' := snd out in
  (saw = true -> SawFirstLiteralConstraint t' = true)
  /\ exists consumed,
       pending = consumed ++ pendingBindings (TVS_Producer t')
       /\ match r with
          | Done _ => True
          | Suspended _ =>
              exists before binding last csA,
                consumed = before ++ [(binding, last)]
                /\ batchUsedUp (TVS_Producer t') = last
                /\ TVS_ActiveChoice t' = Some (SolverScope_create csA)
                /\ tracked csA = tracked cs
                /\ attemptBinding binding csA = (true, cs')
                /\ (AnySolved t = true -> isDefaultable binding = false)
                /\ (hasDefaultedProtocol binding = true ->
                    SawFirstLiteralConstraint t' = true)
          end.
Proof.
  induction pending as [|[current last] rest IH]; intros t used saw cs; cbv zeta.
  - cbn. split; [auto|]. exists []. split; [reflexivity | exact I].
  - cbn [TypeVariableStep_takeLoop].
    destruct (AnySolved t && isDefaultable current) eqn:Hskip.
    { destruct (IH t last saw (bumpNumTypeVariableBindings cs))
        as (Hsaw & consumed & Hpend & Hres). cbv zeta in *.
      split; [exact Hsaw|]. exists ((current, last) :: consumed).
      split; [cbn; f_equal; exact Hpend|].
      destruct (fst (fst (TypeVariableStep_takeLoop t rest last saw _))); [exact I|].
      destruct Hres as (before & binding & l & csA & -> & Hrest).
      exists ((current, last) :: before), binding, l, csA.
      split; [reflexivity | exact Hrest]. }
    destruct (AnySolved t && (hasDefaultedProtocol current && negb saw)).
    { cbn. split; [auto|]. exists [(current, last)]. split; [reflexivity | exact I]. }
    destruct (attemptBinding current (bumpNumTypeVariableBindings cs)) as [ok cs2]
      eqn:Hattempt.
    destruct ok.
    + cbn. split; [intros ->; destruct (hasDefaultedProtocol current); reflexivity|].
      exists [(current, last)]. split; [reflexivity|].
      exists [], current, last, (bumpNumTypeVariableBindings cs).
      split; [reflexivity|]. split; [reflexivity|]. split; [reflexivity|].
      split; [reflexivity|]. split; [exact Hattempt|].
      split.
      * intros Hany. rewrite Hany in Hskip. exact Hskip.
      * intros ->. reflexivity.
    + destruct (IH t last (if hasDefaultedProtocol current then true else saw)
                  (SolverScope_release
                     (SolverScope_create (bumpNumTypeVariableBindings cs)) cs2))
        as (Hsaw & consumed & Hpend & Hres). cbv zeta in *.
      split.
      { intros ->. apply Hsaw. destruct (hasDefaultedProtocol current); reflexivity. }
      exists ((current, last) :: consumed).
      split; [cbn; f_equal; exact Hpend|].
      destruct (fst (fst (TypeVariableStep_takeLoop t rest last _ _))); [exact I|].
      destruct Hres as (before & binding & l & csA & -> & Hused & Hactive & Htracked & Hrest).
      exists ((current, last) :: before), binding, l, csA.
      split; [reflexivity|]. split; [exact Hused|]. split; [exact Hactive|].
      split; [rewrite Htracked; reflexivity | exact Hrest].
Qed.

(** X14. [TypeVariableStep::take] goes through the bindings of the
    producer in order and leaves the ones it has not reached in the
    producer. The binding it suspends on is the last one it took out; its
    attempt succeeded on a system whose type variables, constraints and
    bindings are those [take] started with; it is not defaultable when a
    solution had been found before; and [SawFirstLiteralConstraint], once
    set, stays set, and is set when that binding has a defaulted
    protocol. *)
Theorem TypeVariableStep_take_attempts_in_order (t : TypeVariableStep)
    (prevFailed : bool) (cs : ConstraintSystem) (followup : list SolverStep)
    (t' : TypeVariableStep) (cs' : ConstraintSystem) :
  TypeVariableStep_take t prevFailed cs = (Suspended followup, t', cs') ->
  exists before binding last csA,
    pendingBindings (TVS_Producer t)
    = before ++ (binding, last) :: pendingBindings (TVS_Producer t')
    /\ needsToComputeNext (TVS_Producer t') = last
    /\ TVS_ActiveChoice t' = Some (SolverScope_create csA)
    /\ tracked csA = tracked cs
    /\ attemptBinding binding csA = (true, cs')
    /\ (AnySolved t = true -> isDefaultable binding = false)
    /\ (SawFirstLiteralConstraint t = true \/ hasDefaultedProtocol binding = true ->
        SawFirstLiteralConstraint t' = true).
Proof.
  intros Htake. unfold TypeVariableStep_take in Htake.
  destruct (TypeVariableStep_takeLoop_attempts
              (pendingBindings (TVS_Producer t)) t (batchUsedUp (TVS_Producer t))
              (SawFirstLiteralConstraint t) cs) as (Hsaw & consumed & Hpend & Hres).
  cbv zeta in Hsaw, Hpend, Hres. rewrite Htake in Hsaw, Hpend, Hres.
  cbn [fst snd] in Hsaw, Hpend, Hres.
  destruct Hres as (before & binding & last & csA & -> & Hused & Hactive & Htracked
                    & Hatt & Hdef & Hproto).
  exists before, binding, last, csA.
  split; [rewrite Hpend, <- app_assoc; reflexivity|].
  split; [exact Hused|]. split; [exact Hactive|]. split; [exact Htracked|].
  split; [exact Hatt|]. split; [exact Hdef|].
  intros [Hs | Hp]; [apply Hsaw; exact Hs | apply Hproto; exact Hp].
Qed.

Lemma counter_delta_zero (x y : Score) (kind : nat) :
  length (Data x) = length (Data y) ->
  scoreInRange x -> scoreInRange y ->
  (counter (score_sub x y) kind = 0 <-> counter x kind = counter y kind).
Proof.
  intros Hlen Hx Hy. unfold counter, score_sub. cbn [Data].
  rewrite !nth_lookup, lookup_zip_with.
  destruct (Data x !! kind) as [a|] eqn:Ha; destruct (Data y !! kind) as [b|] eqn:Hb; cbn.
  - unfold scoreInRange in Hx, Hy. rewrite Forall_forall in Hx, Hy.
    pose proof (Hx a (list_elem_of_lookup_2 _ _ _ Ha)) as Hra.
    pose proof (Hy b (list_elem_of_lookup_2 _ _ _ Hb)) as Hrb.
    unfold wrap32. split.
    + intros Hmod.
      pose proof (Z.div_mod (a - b) (2 ^ 32) ltac:(lia)) as Hdiv.
      rewrite Hmod in Hdiv. lia.
    + intros ->. rewrite Z.sub_diag. reflexivity.
  - apply lookup_lt_Some in Ha. apply lookup_ge_None in Hb. lia.
  - apply lookup_ge_None in Ha. apply lookup_lt_Some in Hb. lia.
  - split; reflexivity.
Qed.

(** X15. The counters of a score are unsigned, so a difference of two
    scores has a counter above zero whenever the two counters differ, in
    either direction. A disjunction step therefore short-circuits at a
    choice exactly when the score of the last solved choice and the current
    score have the same number of unavailable overloads and the same number
    of fixes, and the choice is dominated by the last solved choice. *)
Theorem shouldShortCircuitAt_needs_equal_counters (d : DisjunctionStep)
    (cs : ConstraintSystem) (choice : DisjunctionChoice)
    (lastChoice : Constraint) (lastScore : Score) :
  LastSolvedChoice d = Some (lastChoice, lastScore) ->
  length (Data lastScore) = length (Data (CurrentScore cs)) ->
  scoreInRange lastScore ->
  scoreInRange (CurrentScore cs) ->
  (shouldShortCircuitAt d cs choice = true
   <-> counter lastScore SK_Unavailable = counter (CurrentScore cs) SK_Unavailable
       /\ counter lastScore SK_Fix = counter (CurrentScore cs) SK_Fix
       /\ shortCircuitDisjunctionAt cs (choiceConstraint choice) lastChoice = true).
Proof.
  intros Hlast Hlen Hr1 Hr2. unfold shouldShortCircuitAt, getCurrentScore.
  rewrite Hlast. cbv zeta.
  rewrite <- (counter_delta_zero lastScore (CurrentScore cs) SK_Unavailable) by assumption.
  rewrite <- (counter_delta_zero lastScore (CurrentScore cs) SK_Fix) by assumption.
  pose proof (counter_score_sub_nonneg lastScore (CurrentScore cs) SK_Unavailable) as Hu.
  pose proof (counter_score_sub_nonneg lastScore (CurrentScore cs) SK_Fix) as Hf.
  rewrite !andb_true_iff, !negb_true_iff, !Z.ltb_ge.
  split.
  - intros [[Hun Hfix] Hdom]. repeat split; [lia | lia | exact Hdom].
  - intros (Hun & Hfix & Hdom). repeat split; [lia | lia | exact Hdom].
Qed.

End StepExtras.

(** ** The further properties on the sample solver *)

Section ExtraWitnesses.

#[local] Existing Instance exampleSolver.

Lemma merge_reports_pushed_solutions_witness :
  exists anySolutions Solutions' cs',
    mergePartialSolutions 2 samplePartialSolutions [] (exampleSystem [] [] true)
    = Ok (anySolutions, Solutions', cs')
    /\ exists pushed,
         Solutions' = [] ++ pushed
         /\ (anySolutions = true <-> pushed <> [])
         /\ (anySolutions = false <-> Solutions' = []).
Proof.
  eexists _, _, _. split; [vm_compute; reflexivity|].
  exact (merge_reports_pushed_solutions 2 samplePartialSolutions []
           (exampleSystem [] [] true) _ _ _ eq_refl).
Defined.

Lemma merge_out_of_bounds_iff_empty_component_witness :
  In [] [[]; [sampleSolution 1]]
  /\ mergePartialSolutions 1 [[]; [sampleSolution 1]] [] (exampleSystem [] [] true)
     = Stop PartialSolutionOutOfBounds.
Proof.
  assert (Hin : In [] [[]; [sampleSolution 1]]) by (left; reflexivity).
  split; [exact Hin|].
  exact (proj2 (merge_out_of_bounds_iff_empty_component [[]; [sampleSolution 1]] []
                  (exampleSystem [] [] true)) Hin 0%nat).
Defined.

Lemma merge_runs_one_iteration_per_combination_witness :
  samplePartialSolutions <> []
  /\ Forall (fun sols => (1 <= length sols)%nat /\ Z.of_nat (length sols) < 2 ^ 32)
            samplePartialSolutions
  /\ (forall fuel, (fuel < 2)%nat ->
        mergePartialSolutions fuel samplePartialSolutions [] (exampleSystem [] [] true)
        = Stop OutOfFuel)
  /\ exists anySolutions pushed cs',
       mergePartialSolutions 2 samplePartialSolutions [] (exampleSystem [] [] true)
       = Ok (anySolutions, [] ++ pushed, cs')
       /\ (length pushed <= 2)%nat.
Proof.
  assert (Hne : samplePartialSolutions <> []) by discriminate.
  assert (Hall : Forall (fun sols => (1 <= length sols)%nat
                                     /\ Z.of_nat (length sols) < 2 ^ 32)
                        samplePartialSolutions).
  { repeat constructor; simpl; lia. }
  split; [exact Hne|]. split; [exact Hall|].
  exact (merge_runs_one_iteration_per_combination samplePartialSolutions []
           (exampleSystem [] [] true) Hne Hall).
Defined.

Lemma SplitterStep_resume_without_components_witness :
  SS_PartialSolutions (SplitterStep_create 0) = []
  /\ SplitterStep_resume 7 (SplitterStep_create 0) false [[]] (exampleSystem [] [] true)
     = Stop OutOfFuel.
Proof.
  split; [reflexivity|].
  exact (SplitterStep_resume_without_components 7 (SplitterStep_create 0) [[]]
           (exampleSystem [] [] true) eq_refl).
Defined.

Lemma sampleSplit_run :
  computeFollowupSteps (SplitterStep_create 0) [[]] orphanedSystem
  = Ok (map Component sampleSplit,
        mkSplitterStep 0 [1; 2; 3]%nat [relationalConstraint],
        [[]; []; []; []],
        withOrphaned [] orphanedSystem).
Proof. reflexivity. Qed.

Lemma computeFollowupSteps_allocates_components_witness :
  computeFollowupSteps (SplitterStep_create 0) [[]] orphanedSystem
  = Ok (map Component sampleSplit,
        mkSplitterStep 0 [1; 2; 3]%nat [relationalConstraint],
        [[]; []; []; []],
        withOrphaned [] orphanedSystem)
  /\ exists comps,
       map Component sampleSplit = map Component comps
       /\ length comps = 3%nat
       /\ [[]; []; []; []] = [[]] ++ replicate 3 ([] : list Solution)
       /\ 0%nat = 0%nat
       /\ [1; 2; 3]%nat = map CS_Solutions comps
       /\ NoDup [1; 2; 3]%nat
       /\ forall j c, comps !! j = Some c ->
            Index c = j
            /\ IsSingleComponent c = Nat.eqb 3 1
            /\ CS_Solutions c = (1 + j)%nat
            /\ ([[]] : Store) !! CS_Solutions c = None
            /\ ([[]; []; []; []] : Store) !! CS_Solutions c = Some [].
Proof.
  split; [exact sampleSplit_run|].
  exact (computeFollowupSteps_allocates_components (SplitterStep_create 0) [[]]
           orphanedSystem _ _ _ _ sampleSplit_run).
Defined.

Lemma computeFollowupSteps_distributes_type_variables_witness :
  computeFollowupSteps (SplitterStep_create 0) [[]] orphanedSystem
  = Ok (map Component sampleSplit,
        mkSplitterStep 0 [1; 2; 3]%nat [relationalConstraint],
        [[]; []; []; []],
        withOrphaned [] orphanedSystem)
  /\ (forall j c, sampleSplit !! j = Some c ->
        TypeVars c = assignedTo j [1; 2]%nat [0; 1]%nat
        /\ Constraints c = concat (map (getConstraints orphanedSystem) (TypeVars c)))
  /\ Permutation (concat (map TypeVars sampleSplit)) [1; 2]%nat.
Proof.
  split; [exact sampleSplit_run|].
  exact (computeFollowupSteps_distributes_type_variables (SplitterStep_create 0) [[]]
           orphanedSystem sampleSplit _ _ _ sampleSplit_run).
Defined.

Lemma computeFollowupSteps_places_orphans_witness :
  computeFollowupSteps (SplitterStep_create 0) [[]] orphanedSystem
  = Ok (map Component sampleSplit,
        mkSplitterStep 0 [1; 2; 3]%nat [relationalConstraint],
        [[]; []; []; []],
        withOrphaned [] orphanedSystem)
  /\ Z.of_nat (length sampleSplit) < 2 ^ 32
  /\ (1 <= 3)%nat
  /\ [relationalConstraint] = [relationalConstraint]
  /\ OrphanedConstraints (withOrphaned [] orphanedSystem) = []
  /\ forall j c, sampleSplit !! j = Some c ->
       OrphanedConstraint c
       = if (2 <=? j)%nat then [relationalConstraint] !! (j - 2)%nat else None.
Proof.
  assert (Hk : Z.of_nat (length sampleSplit) < 2 ^ 32) by (cbn; lia).
  split; [exact sampleSplit_run|]. split; [exact Hk|].
  exact (computeFollowupSteps_places_orphans (SplitterStep_create 0) [[]]
           orphanedSystem sampleSplit _ _ _ sampleSplit_run Hk).
Defined.

Lemma computeFollowupSteps_in_bounds_iff_witness :
  (length [1; 2]%nat <= length [0; 1]%nat)%nat
  /\ Forall (fun c => (c < 3)%nat) (firstn (length [1; 2]%nat) [0; 1]%nat)
  /\ (length [relationalConstraint] <= 3)%nat
  /\ exists out,
       computeFollowupSteps (SplitterStep_create 0) [[]] orphanedSystem = Ok out.
Proof.
  assert (H1 : (length [1; 2]%nat <= length [0; 1]%nat)%nat) by (cbn; lia).
  assert (H2 : Forall (fun c => (c < 3)%nat) (firstn (length [1; 2]%nat) [0; 1]%nat))
    by (repeat constructor).
  assert (H3 : (length [relationalConstraint] <= 3)%nat) by (cbn; lia).
  split; [exact H1|]. split; [exact H2|]. split; [exact H3|].
  exact (proj2 (proj1 (computeFollowupSteps_in_bounds_iff (SplitterStep_create 0) [[]]
                         orphanedSystem))
               (conj H1 (conj H2 H3))).
Defined.


Lemma DisjunctionStep_take_attempts_in_order_witness :
  exists followup d' cs',
    DisjunctionStep_take sampleChoicesStep false (exampleSystem [] [] true)
    = (Suspended followup, d', cs')
    /\ exists before choice csA,
         DS_Producer sampleChoicesStep = before ++ choice :: DS_Producer d'
         /\ DS_ActiveChoice d' = Some (SolverScope_create csA, choice)
         /\ choiceIsDisabled choice = false
         /\ tracked csA = tracked (exampleSystem [] [] true)
         /\ shouldSkipChoice sampleChoicesStep csA choice = false
         /\ shouldShortCircuitAt sampleChoicesStep csA choice = false
         /\ attemptChoice choice csA = (true, cs').
Proof.
  eexists _, _, _. split; [vm_compute; reflexivity|].
  exact (DisjunctionStep_take_attempts_in_order sampleChoicesStep false
           (exampleSystem [] [] true) _ _ _ eq_refl).
Defined.

Lemma DisjunctionStep_fails_only_unsolved_witness :
  DisjunctionStep_take (sampleDisjunctionStep None None) false (exampleSystem [] [] true)
  = (Done false, sampleDisjunctionStep None None, exampleSystem [] [] true)
  /\ DS_Producer (sampleDisjunctionStep None None) = [].
Proof.
  assert (Hrun : DisjunctionStep_take (sampleDisjunctionStep None None) false
                   (exampleSystem [] [] true)
                 = (Done false, sampleDisjunctionStep None None,
                    exampleSystem [] [] true)) by reflexivity.
  split; [exact Hrun|].
  exact (proj2 (proj2 (proj1 DisjunctionStep_fails_only_unsolved _ _ _ _ _ _ Hrun))
               eq_refl).
Defined.

Lemma BestNonGenericScore_never_gets_worse_witness :
  DS_ActiveChoice sampleSymmetricStep = Some (sampleScope, symmetricChoice)
  /\ exists r d' cs',
       DisjunctionStep_resume sampleSymmetricStep false [[costlySolution]]
                              (exampleSystem [] [] true)
       = Ok (r, d', cs')
       /\ (forall best, BestNonGenericScore sampleSymmetricStep = Some best ->
             exists best', BestNonGenericScore d' = Some best'
                           /\ score_ltb best best' = false)
       /\ (false = true \/ isGenericOperator symmetricChoice = true
           \/ isSymmetricOperator symmetricChoice = false ->
           BestNonGenericScore d' = BestNonGenericScore sampleSymmetricStep)
       /\ (false = false -> isGenericOperator symmetricChoice = false ->
           isSymmetricOperator symmetricChoice = true ->
           exists score best',
             getBestScore (vectorAt [[costlySolution]] (DS_Solutions sampleSymmetricStep))
             = Some score
             /\ BestNonGenericScore d' = Some best'
             /\ score_ltb score best' = false
             /\ (best' = score \/ BestNonGenericScore sampleSymmetricStep = Some best')).
Proof.
  split; [reflexivity|].
  eexists _, _, _. split; [vm_compute; reflexivity|].
  exact (BestNonGenericScore_never_gets_worse sampleSymmetricStep sampleScope
           symmetricChoice false [[costlySolution]] (exampleSystem [] [] true)
           _ _ _ eq_refl eq_refl).
Defined.

Lemma TypeVariableStep_take_attempts_in_order_witness :
  exists followup t' cs',
    TypeVariableStep_take
      (sampleTypeVariableStep true [(defaultableBinding, false); (plainBinding, true)] None)
      false (exampleSystem [1%nat] [] true)
    = (Suspended followup, t', cs')
    /\ exists before binding last csA,
         [(defaultableBinding, false); (plainBinding, true)]
         = before ++ (binding, last) :: pendingBindings (TVS_Producer t')
         /\ needsToComputeNext (TVS_Producer t') = last
         /\ TVS_ActiveChoice t' = Some (SolverScope_create csA)
         /\ tracked csA = tracked (exampleSystem [1%nat] [] true)
         /\ attemptBinding binding csA = (true, cs')
         /\ (true = true -> isDefaultable binding = false)
         /\ (false = true \/ hasDefaultedProtocol binding = true ->
             SawFirstLiteralConstraint t' = true).
Proof.
  eexists _, _, _. split; [vm_compute; reflexivity|].
  exact (TypeVariableStep_take_attempts_in_order
           (sampleTypeVariableStep true
              [(defaultableBinding, false); (plainBinding, true)] None)
           false (exampleSystem [1%nat] [] true) _ _ _ eq_refl).
Defined.

Lemma shouldShortCircuitAt_needs_equal_counters_witness :
  LastSolvedChoice
    (sampleDisjunctionStep None (Some (overloadConstraint true false, zeroScore)))
  = Some (overloadConstraint true false, zeroScore)
  /\ length (Data zeroScore) = length (Data (CurrentScore (exampleSystem [] [] true)))
  /\ scoreInRange zeroScore
  /\ scoreInRange (CurrentScore (exampleSystem [] [] true))
  /\ (shouldShortCircuitAt
        (sampleDisjunctionStep None (Some (overloadConstraint true false, zeroScore)))
        (exampleSystem [] [] true) plainChoice = true
      <-> counter zeroScore SK_Unavailable
          = counter (CurrentScore (exampleSystem [] [] true)) SK_Unavailable
          /\ counter zeroScore SK_Fix
             = counter (CurrentScore (exampleSystem [] [] true)) SK_Fix
          /\ shortCircuitDisjunctionAt (exampleSystem [] [] true)
               (choiceConstraint plainChoice) (overloadConstraint true false) = true).
Proof.
  assert (Hrange : scoreInRange zeroScore) by (repeat constructor; lia).
  split; [reflexivity|]. split; [reflexivity|]. split; [exact Hrange|].
  split; [exact Hrange|].
  exact (shouldShortCircuitAt_needs_equal_counters
           (sampleDisjunctionStep None (Some (overloadConstraint true false, zeroScore)))
           (exampleSystem [] [] true) plainChoice (overloadConstraint true false)
           zeroScore eq_refl eq_refl Hrange Hrange).
Defined.

End ExtraWitnesses.
